(** * A set-associative cache simulator (src/main.cpp), embedded in Rocq

    The development follows [class CacheSimulator] of src/main.cpp:
    the data layout ([CacheBlock], [CacheSet], the simulator's fields),
    the address split of [processAccess], the two access paths
    [processLoad] and [processStore], and the allocation and eviction
    routines [allocateBlock] and [evictBlock]; then [main], with its
    argument checks and its replay loop.

    Conventions.
    - An [unsigned int] is a [Z] in [0, 2^32); [++global_counter] wraps
      modulo 2^32 ([uint]).
    - An [int] is a [Z] in [-2^31, 2^31); C++ gives no meaning to a signed
      overflow, so checked arithmetic ([int_add], [int_mul], [int_div])
      returns [None] there.
    - [v[i]] on a [std::vector] is list lookup; an index past the end has no
      defined behaviour in C++ and is [None] here.
    - A function of the simulator maps a state to [option] of the next
      state: [None] stands for an execution C++ leaves undefined.
    - The reference [CacheSet& set = sets[set_index]] is carried as the
      index of the set inside [sets]; writes through it are list updates. *)

From Stdlib Require Import ZArith Lia Bool Ascii.
From stdpp Require Import base option list strings.

Local Open Scope Z_scope.

(** * Part I: the embedding *)

(** ** Machine integers *)

Module MachineInt.

Definition INT_MIN : Z := - 2 ^ 31.
Definition INT_MAX : Z := 2 ^ 31 - 1.

Definition in_int (z : Z) : bool := (INT_MIN <=? z) && (z <=? INT_MAX).

(** The value of a signed [int] expression whose exact result is [z]. *)
Definition int_of (z : Z) : option Z := if in_int z then Some z else None.

Definition int_add (x y : Z) : option Z := int_of (x + y).
Definition int_mul (x y : Z) : option Z := int_of (x * y).
(** C++ division truncates towards zero. *)
Definition int_div (x y : Z) : option Z :=
  if y =? 0 then None else int_of (Z.quot x y).

(** Conversion to [unsigned int]: reduction modulo 2^32. *)
Definition uint (z : Z) : Z := z mod 2 ^ 32.

End MachineInt.
Import MachineInt.

(** ** Data model *)

(** [struct CacheBlock]. *)
Record CacheBlock : Type := mkCacheBlock {
  valid : bool;
  dirty : bool;
  tag : Z;          (* unsigned int *)
  lru_count : Z     (* unsigned int *)
}.

(** [CacheBlock::CacheBlock()]. *)
Definition new_CacheBlock : CacheBlock :=
  {| valid := false; dirty := false; tag := 0; lru_count := 0 |}.

(** [struct CacheSet]. *)
Record CacheSet : Type := mkCacheSet {
  blocks : list CacheBlock
}.

(** [CacheSet::CacheSet(int associativity)]: [blocks(associativity)].  A
    negative count converts to a huge [size_t], for which the vector
    constructor throws. *)
Definition new_CacheSet (associativity : Z) : option CacheSet :=
  if associativity <? 0 then None
  else Some {| blocks := replicate (Z.to_nat associativity) new_CacheBlock |}.

(** The fields of [class CacheSimulator], in declaration order. *)
Record CacheSimulator : Type := mkCacheSimulator {
  num_sets : Z;
  num_blocks_per_set : Z;
  block_size : Z;
  write_allocate : bool;
  write_through : bool;
  lru_eviction : bool;
  sets : list CacheSet;
  global_counter : Z;     (* unsigned int *)
  total_loads : Z;
  total_stores : Z;
  load_hits : Z;
  load_misses : Z;
  store_hits : Z;
  store_misses : Z;
  total_cycles : Z;
  set_bits : Z;
  block_bits : Z;
  tag_bits : Z
}.

(** Assignments to the fields that change during a simulation. *)
Section FieldUpdates.
Variable s : CacheSimulator.

Definition with_sets (v : list CacheSet) : CacheSimulator :=
  mkCacheSimulator (num_sets s) (num_blocks_per_set s) (block_size s)
    (write_allocate s) (write_through s) (lru_eviction s)
    v (global_counter s)
    (total_loads s) (total_stores s) (load_hits s) (load_misses s)
    (store_hits s) (store_misses s) (total_cycles s)
    (set_bits s) (block_bits s) (tag_bits s).

Definition with_global_counter (v : Z) : CacheSimulator :=
  mkCacheSimulator (num_sets s) (num_blocks_per_set s) (block_size s)
    (write_allocate s) (write_through s) (lru_eviction s)
    (sets s) v
    (total_loads s) (total_stores s) (load_hits s) (load_misses s)
    (store_hits s) (store_misses s) (total_cycles s)
    (set_bits s) (block_bits s) (tag_bits s).

Definition with_total_loads (v : Z) : CacheSimulator :=
  mkCacheSimulator (num_sets s) (num_blocks_per_set s) (block_size s)
    (write_allocate s) (write_through s) (lru_eviction s)
    (sets s) (global_counter s)
    v (total_stores s) (load_hits s) (load_misses s)
    (store_hits s) (store_misses s) (total_cycles s)
    (set_bits s) (block_bits s) (tag_bits s).

Definition with_total_stores (v : Z) : CacheSimulator :=
  mkCacheSimulator (num_sets s) (num_blocks_per_set s) (block_size s)
    (write_allocate s) (write_through s) (lru_eviction s)
    (sets s) (global_counter s)
    (total_loads s) v (load_hits s) (load_misses s)
    (store_hits s) (store_misses s) (total_cycles s)
    (set_bits s) (block_bits s) (tag_bits s).

Definition with_load_hits (v : Z) : CacheSimulator :=
  mkCacheSimulator (num_sets s) (num_blocks_per_set s) (block_size s)
    (write_allocate s) (write_through s) (lru_eviction s)
    (sets s) (global_counter s)
    (total_loads s) (total_stores s) v (load_misses s)
    (store_hits s) (store_misses s) (total_cycles s)
    (set_bits s) (block_bits s) (tag_bits s).

Definition with_load_misses (v : Z) : CacheSimulator :=
  mkCacheSimulator (num_sets s) (num_blocks_per_set s) (block_size s)
    (write_allocate s) (write_through s) (lru_eviction s)
    (sets s) (global_counter s)
    (total_loads s) (total_stores s) (load_hits s) v
    (store_hits s) (store_misses s) (total_cycles s)
    (set_bits s) (block_bits s) (tag_bits s).

Definition with_store_hits (v : Z) : CacheSimulator :=
  mkCacheSimulator (num_sets s) (num_blocks_per_set s) (block_size s)
    (write_allocate s) (write_through s) (lru_eviction s)
    (sets s) (global_counter s)
    (total_loads s) (total_stores s) (load_hits s) (load_misses s)
    v (store_misses s) (total_cycles s)
    (set_bits s) (block_bits s) (tag_bits s).

Definition with_store_misses (v : Z) : CacheSimulator :=
  mkCacheSimulator (num_sets s) (num_blocks_per_set s) (block_size s)
    (write_allocate s) (write_through s) (lru_eviction s)
    (sets s) (global_counter s)
    (total_loads s) (total_stores s) (load_hits s) (load_misses s)
    (store_hits s) v (total_cycles s)
    (set_bits s) (block_bits s) (tag_bits s).

Definition with_total_cycles (v : Z) : CacheSimulator :=
  mkCacheSimulator (num_sets s) (num_blocks_per_set s) (block_size s)
    (write_allocate s) (write_through s) (lru_eviction s)
    (sets s) (global_counter s)
    (total_loads s) (total_stores s) (load_hits s) (load_misses s)
    (store_hits s) (store_misses s) v
    (set_bits s) (block_bits s) (tag_bits s).
End FieldUpdates.

(** ** The constructor *)

(** [std::log2] of an [int], stored into an [int]: the double is truncated.
    For [1 <= n < 2^31] this is the position of the leading bit; for
    [n <= 0] the double is minus infinity or NaN and the conversion has no
    defined value. *)
Definition log2_int (n : Z) : option Z :=
  if n <=? 0 then None else Some (Z.log2 n).

(** [CacheSimulator::CacheSimulator]. [sets(sets, CacheSet(blocks_per_set))]
    builds one set and copies it [sets] times. *)
Definition new_CacheSimulator (nsets blocks_per_set bytes_per_block : Z)
    (write_alloc write_thru lru : bool) : option CacheSimulator :=
  proto ← new_CacheSet blocks_per_set;
  if nsets <? 0 then None else
  sb ← log2_int nsets;
  bb ← log2_int bytes_per_block;
  t1 ← int_add 32 (- sb);
  tb ← int_add t1 (- bb);
  Some {| num_sets := nsets; num_blocks_per_set := blocks_per_set;
          block_size := bytes_per_block;
          write_allocate := write_alloc; write_through := write_thru;
          lru_eviction := lru;
          sets := replicate (Z.to_nat nsets) proto;
          global_counter := 0;
          total_loads := 0; total_stores := 0;
          load_hits := 0; load_misses := 0;
          store_hits := 0; store_misses := 0;
          total_cycles := 0;
          set_bits := sb; block_bits := bb; tag_bits := tb |}.

(** ** Loops over the blocks of a set

    Each [for (int i = ...; i < num_blocks_per_set; i++)] is a recursion on
    the number [n] of iterations left, [i] being the current index. *)

(** The scan of [processLoad] and [processStore]: the first [i] with
    [set.blocks[i].valid && set.blocks[i].tag == tag]. *)
Fixpoint find_tag (bs : list CacheBlock) (t : Z) (i n : nat)
    : option (option nat) :=
  match n with
  | O => Some None
  | S n' =>
      b ← bs !! i;
      if valid b && (tag b =? t) then Some (Some i)
      else find_tag bs t (S i) n'
  end.

(** The scan of [allocateBlock]: the first [i] with [!set.blocks[i].valid]. *)
Fixpoint find_invalid (bs : list CacheBlock) (i n : nat)
    : option (option nat) :=
  match n with
  | O => Some None
  | S n' =>
      b ← bs !! i;
      if negb (valid b) then Some (Some i)
      else find_invalid bs (S i) n'
  end.

(** The scan of [evictBlock], with its two loop variables. *)
Fixpoint min_scan (bs : list CacheBlock) (i n : nat)
    (min_counter : Z) (evict_index : nat) : option nat :=
  match n with
  | O => Some evict_index
  | S n' =>
      b ← bs !! i;
      if lru_count b <? min_counter
      then min_scan bs (S i) n' (lru_count b) i
      else min_scan bs (S i) n' min_counter evict_index
  end.

(** ** Writes to one block *)

Definition set_lru_count (b : CacheBlock) (c : Z) : CacheBlock :=
  {| valid := valid b; dirty := dirty b; tag := tag b; lru_count := c |}.

Definition set_dirty (b : CacheBlock) (d : bool) : CacheBlock :=
  {| valid := valid b; dirty := d; tag := tag b; lru_count := lru_count b |}.

(** [sets[k].blocks[i] = b]. *)
Definition write_block (s : CacheSimulator) (k i : nat) (b : CacheBlock)
    : option CacheSimulator :=
  set ← sets s !! k;
  _ ← blocks set !! i;
  Some (with_sets s (<[k := {| blocks := <[i := b]> (blocks set) |}]> (sets s))).

(** [set.blocks[i].lru_count = ++global_counter;] *)
Definition touch_block (s : CacheSimulator) (k i : nat)
    : option CacheSimulator :=
  set ← sets s !! k;
  b ← blocks set !! i;
  let gc := uint (global_counter s + 1) in
  write_block (with_global_counter s gc) k i (set_lru_count b gc).

(** The four assignments shared by [allocateBlock] and [evictBlock]:
    [valid = true; tag = tag; lru_count = ++global_counter; dirty = false]. *)
Definition install_block (s : CacheSimulator) (k i : nat) (t : Z)
    : option CacheSimulator :=
  let gc := uint (global_counter s + 1) in
  write_block (with_global_counter s gc) k i
    {| valid := true; dirty := false; tag := t; lru_count := gc |}.

(** [total_cycles += c]. *)
Definition add_cycles (s : CacheSimulator) (c : Z) : option CacheSimulator :=
  tc ← int_add (total_cycles s) c;
  Some (with_total_cycles s tc).

(** [100 * (block_size / 4)]. *)
Definition block_transfer_cycles (s : CacheSimulator) : option Z :=
  q ← int_div (block_size s) 4;
  int_mul 100 q.

(** The trip count of [for (int i = 0; i < num_blocks_per_set; i++)]. *)
Definition ways (s : CacheSimulator) : nat := Z.to_nat (num_blocks_per_set s).

(** ** Eviction and allocation *)

(** The first half of [evictBlock]: the choice of [evict_index].  The
    source writes the scan once per policy; the two branches are kept. *)
Definition select_victim (s : CacheSimulator) (set : CacheSet) : option nat :=
  if lru_eviction s then
    b0 ← blocks set !! 0%nat;
    min_scan (blocks set) 1 (ways s - 1) (lru_count b0) 0
  else
    (* fifo doesnt work yet *)
    b0 ← blocks set !! 0%nat;
    min_scan (blocks set) 1 (ways s - 1) (lru_count b0) 0.

(** [CacheSimulator::evictBlock]. *)
Definition evictBlock (s : CacheSimulator) (k : nat) (t : Z)
    : option CacheSimulator :=
  set ← sets s !! k;
  evict_index ← select_victim s set;
  victim ← blocks set !! evict_index;
  s1 ← (if dirty victim && negb (write_through s)
        then c ← block_transfer_cycles s; add_cycles s c
        else Some s);
  install_block s1 k evict_index t.

(** [CacheSimulator::allocateBlock]. *)
Definition allocateBlock (s : CacheSimulator) (k : nat) (t : Z)
    : option CacheSimulator :=
  set ← sets s !! k;
  r ← find_invalid (blocks set) 0 (ways s);
  match r with
  | Some i => install_block s k i t
  | None => evictBlock s k t
  end.

(** ** The two access paths *)

(** [CacheSimulator::processLoad]. *)
Definition processLoad (s : CacheSimulator) (set_index t : Z)
    : option CacheSimulator :=
  tl ← int_add (total_loads s) 1;
  s ← add_cycles (with_total_loads s tl) 1;
  let k := Z.to_nat set_index in
  set ← sets s !! k;
  r ← find_tag (blocks set) t 0 (ways s);
  match r with
  | Some i =>
      lh ← int_add (load_hits s) 1;
      touch_block (with_load_hits s lh) k i
  | None =>
      lm ← int_add (load_misses s) 1;
      c ← block_transfer_cycles s;
      s ← add_cycles (with_load_misses s lm) c;
      allocateBlock s k t
  end.

(** [CacheSimulator::processStore]. *)
Definition processStore (s : CacheSimulator) (set_index t : Z)
    : option CacheSimulator :=
  ts ← int_add (total_stores s) 1;
  s ← add_cycles (with_total_stores s ts) 1;
  let k := Z.to_nat set_index in
  set ← sets s !! k;
  r ← find_tag (blocks set) t 0 (ways s);
  match r with
  | Some i =>
      sh ← int_add (store_hits s) 1;
      s ← touch_block (with_store_hits s sh) k i;
      if negb (write_through s) then
        set ← sets s !! k;
        b ← blocks set !! i;
        write_block s k i (set_dirty b true)
      else add_cycles s 100
  | None =>
      sm ← int_add (store_misses s) 1;
      let s := with_store_misses s sm in
      if write_allocate s then
        c ← block_transfer_cycles s;
        s ← add_cycles s c;
        s ← allocateBlock s k t;
        if negb (write_through s) then
          set ← sets s !! k;
          r ← find_tag (blocks set) t 0 (ways s);
          match r with
          | Some i =>
              b ← blocks set !! i;
              write_block s k i (set_dirty b true)
          | None => Some s
          end
        else add_cycles s 100
      else add_cycles s 100
  end.

(** ** Address decomposition and dispatch *)

(** [(address >> block_bits) & ((1 << set_bits) - 1)]; the mask is an [int]
    converted to [unsigned int] by [&]. *)
Definition set_index_of (address sbits bbits : Z) : Z :=
  Z.land (Z.shiftr address bbits) (uint (Z.shiftl 1 sbits - 1)).

(** [address >> (set_bits + block_bits)]. *)
Definition tag_of (address sbits bbits : Z) : Z :=
  Z.shiftr address (sbits + bbits).

(** The shift counts for which C++ defines the three shifts above on 32-bit
    operands, [(1 << set_bits) - 1] staying inside [int]. *)
Definition shifts_defined (sbits bbits : Z) : bool :=
  (0 <=? bbits) && (0 <=? sbits) && (sbits <? 31) && (sbits + bbits <? 32).

(** [CacheSimulator::processAccess].  [address] is an [unsigned int]:
    callers pass [0 <= address < 2^32]. *)
Definition processAccess (s : CacheSimulator) (operation : ascii)
    (address : Z) : option CacheSimulator :=
  if shifts_defined (set_bits s) (block_bits s) then
    let set_index := set_index_of address (set_bits s) (block_bits s) in
    let t := tag_of address (set_bits s) (block_bits s) in
    if Ascii.eqb operation "l"%char then processLoad s set_index t
    else processStore s set_index t
  else None.

(** The loop of [main]: one [processAccess] per trace record, in order. *)
Fixpoint run_trace (s : CacheSimulator) (trace : list (ascii * Z))
    : option CacheSimulator :=
  match trace with
  | [] => Some s
  | (operation, address) :: rest =>
      s' ← processAccess s operation address;
      run_trace s' rest
  end.

(** * Part II: the vocabulary of the properties *)

(** ** Scans and single blocks *)

Definition matches (t : Z) (b : CacheBlock) : bool := valid b && (tag b =? t).

(** The fields fixed by the constructor. *)
Definition config_of (s : CacheSimulator) :=
  (num_sets s, num_blocks_per_set s, block_size s,
   write_allocate s, write_through s, lru_eviction s,
   set_bits s, block_bits s, tag_bits s).

(** The six hit and miss counters. *)
Definition counts_of (s : CacheSimulator) :=
  (total_loads s, total_stores s, load_hits s, load_misses s,
   store_hits s, store_misses s).

(** [100 * (block_size / 4)] as a number. *)
Definition fill_cost (s : CacheSimulator) : Z := 100 * Z.quot (block_size s) 4.

(** The block written by an installation. *)
Definition installed (s : CacheSimulator) (t : Z) : CacheBlock :=
  {| valid := true; dirty := false; tag := t;
     lru_count := uint (global_counter s + 1) |}.

(** [sets] with slot [i] of set [k] replaced. *)
Definition put_block (ss : list CacheSet) (k i : nat) (set : CacheSet)
    (b : CacheBlock) : list CacheSet :=
  <[k := {| blocks := <[i := b]> (blocks set) |}]> ss.

(** ** Allocation *)

(** The cycles [evictBlock] charges for writing the victim back. *)
Definition writeback_cost (s : CacheSimulator) (victim : CacheBlock) : Z :=
  if dirty victim && negb (write_through s) then fill_cost s else 0.

(** The slot [allocateBlock] writes and the write-back cycles it charges:
    the first invalid slot at no charge, or else the victim. *)
Inductive alloc_choice (s : CacheSimulator) (set : CacheSet)
    : nat -> Z -> Prop :=
| alloc_free i :
    find_invalid (blocks set) 0 (ways s) = Some (Some i) ->
    alloc_choice s set i 0
| alloc_evict v victim :
    find_invalid (blocks set) 0 (ways s) = Some None ->
    select_victim s set = Some v ->
    blocks set !! v = Some victim ->
    alloc_choice s set v (writeback_cost s victim).

(** ** Effects of the two access paths *)

(** The block a store hit leaves behind. *)
Definition store_hit_block (s : CacheSimulator) (b : CacheBlock) : CacheBlock :=
  let b1 := set_lru_count b (uint (global_counter s + 1)) in
  if write_through s then b1 else set_dirty b1 true.

(** The block a store miss leaves behind under write-allocate. *)
Definition store_installed (s : CacheSimulator) (t : Z) : CacheBlock :=
  if write_through s then installed s t else set_dirty (installed s t) true.

(** The cycles of the write itself: 100 under write-through. *)
Definition through_cost (s : CacheSimulator) : Z :=
  if write_through s then 100 else 0.

Inductive load_effect (s : CacheSimulator) (k : nat) (t : Z)
    (s' : CacheSimulator) : Prop :=
| load_hit set i b :
    sets s !! k = Some set ->
    find_tag (blocks set) t 0 (ways s) = Some (Some i) ->
    blocks set !! i = Some b ->
    counts_of s' = (total_loads s + 1, total_stores s, load_hits s + 1,
                    load_misses s, store_hits s, store_misses s) ->
    total_cycles s' = total_cycles s + 1 ->
    sets s' = put_block (sets s) k i set
                (set_lru_count b (uint (global_counter s + 1))) ->
    load_effect s k t s'
| load_miss set i wb :
    sets s !! k = Some set ->
    find_tag (blocks set) t 0 (ways s) = Some None ->
    alloc_choice s set i wb ->
    is_Some (blocks set !! i) ->
    counts_of s' = (total_loads s + 1, total_stores s, load_hits s,
                    load_misses s + 1, store_hits s, store_misses s) ->
    total_cycles s' = total_cycles s + 1 + fill_cost s + wb ->
    sets s' = put_block (sets s) k i set (installed s t) ->
    load_effect s k t s'.

Inductive store_effect (s : CacheSimulator) (k : nat) (t : Z)
    (s' : CacheSimulator) : Prop :=
| store_hit set i b :
    sets s !! k = Some set ->
    find_tag (blocks set) t 0 (ways s) = Some (Some i) ->
    blocks set !! i = Some b ->
    counts_of s' = (total_loads s, total_stores s + 1, load_hits s,
                    load_misses s, store_hits s + 1, store_misses s) ->
    total_cycles s' = total_cycles s + 1 + through_cost s ->
    global_counter s' = uint (global_counter s + 1) ->
    sets s' = put_block (sets s) k i set (store_hit_block s b) ->
    store_effect s k t s'
| store_miss_allocate set i wb b' :
    write_allocate s = true ->
    sets s !! k = Some set ->
    find_tag (blocks set) t 0 (ways s) = Some None ->
    alloc_choice s set i wb ->
    is_Some (blocks set !! i) ->
    b' = store_installed s t \/ (ways s = 0%nat /\ b' = installed s t) ->
    counts_of s' = (total_loads s, total_stores s + 1, load_hits s,
                    load_misses s, store_hits s, store_misses s + 1) ->
    total_cycles s' = total_cycles s + 1 + fill_cost s + wb + through_cost s ->
    global_counter s' = uint (global_counter s + 1) ->
    sets s' = put_block (sets s) k i set b' ->
    store_effect s k t s'
| store_miss_around set :
    write_allocate s = false ->
    sets s !! k = Some set ->
    find_tag (blocks set) t 0 (ways s) = Some None ->
    counts_of s' = (total_loads s, total_stores s + 1, load_hits s,
                    load_misses s, store_hits s, store_misses s + 1) ->
    total_cycles s' = total_cycles s + 1 + 100 ->
    global_counter s' = global_counter s ->
    sets s' = sets s ->
    store_effect s k t s'.

(** ** One access, seen from outside *)

(** The scan an access to [address] performs: the set is chosen by
    [set_index_of], the tag by [tag_of], as in [processAccess]. *)
Definition probe (s : CacheSimulator) (address : Z) : option (option nat) :=
  set ← sets s !! Z.to_nat (set_index_of address (set_bits s) (block_bits s));
  find_tag (blocks set) (tag_of address (set_bits s) (block_bits s)) 0 (ways s).

Definition is_load (operation : ascii) : bool := Ascii.eqb operation "l"%char.

(** How one slot changes across an access: it ends valid; it is dirty only
    if it was dirty before or the cache is write-back; and it either keeps
    the tag of a valid block or takes a tag no valid block of the scanned
    ways had. *)
Definition slot_step (s : CacheSimulator) (set : CacheSet)
    (b b' : CacheBlock) : Prop :=
  valid b' = true /\
  (dirty b' = true -> dirty b = true \/ write_through s = false) /\
  ((valid b = true /\ tag b' = tag b) \/
   (forall j bj, (j < ways s)%nat -> blocks set !! j = Some bj ->
                 valid bj = true -> tag bj <> tag b')).

(** ** Invariants *)

(** Every set holds as many blocks as the loops visit: the vectors are
    sized by the constructor and never resized. *)
Definition well_sized (s : CacheSimulator) : Prop :=
  forall k set, sets s !! k = Some set -> length (blocks set) = ways s.

(** No block is dirty. *)
Definition all_clean (s : CacheSimulator) : Prop :=
  forall k set i b,
    sets s !! k = Some set -> blocks set !! i = Some b -> dirty b = false.

(** No two valid blocks of a set hold the same tag. *)
Definition distinct_tags (s : CacheSimulator) : Prop :=
  forall k set i j bi bj,
    sets s !! k = Some set ->
    blocks set !! i = Some bi -> blocks set !! j = Some bj ->
    valid bi = true -> valid bj = true -> tag bi = tag bj -> i = j.

(** The number of valid blocks in a list of blocks. *)
Fixpoint count_valid (bs : list CacheBlock) : nat :=
  match bs with
  | [] => 0
  | b :: rest => ((if valid b then 1 else 0) + count_valid rest)%nat
  end.

(** Valid slots of [ss] are valid slots of [ss'], set by set. *)
Definition valid_kept (ss ss' : list CacheSet) : Prop :=
  forall k set, ss !! k = Some set ->
    exists set', ss' !! k = Some set' /\
      (forall i b, blocks set !! i = Some b -> valid b = true ->
         exists b', blocks set' !! i = Some b' /\ valid b' = true) /\
      (count_valid (blocks set) <= count_valid (blocks set'))%nat.

(** ** Counters and cycles *)

Definition hit_of (r : option nat) : Z :=
  match r with Some _ => 1 | None => 0 end.
Definition miss_of (r : option nat) : Z :=
  match r with Some _ => 0 | None => 1 end.

(** The six counters after an access whose scan returned [r]. *)
Definition counts_after (s : CacheSimulator) (load : bool) (r : option nat) :=
  if load then
    (total_loads s + 1, total_stores s, load_hits s + hit_of r,
     load_misses s + miss_of r, store_hits s, store_misses s)
  else
    (total_loads s, total_stores s + 1, load_hits s, load_misses s,
     store_hits s + hit_of r, store_misses s + miss_of r).

(** The cycles of an access whose scan returned [r], the write-back of an
    evicted block left out. *)
Definition base_cost (s : CacheSimulator) (load : bool) (r : option nat) : Z :=
  1 + match r with
      | Some _ => if load then 0 else through_cost s
      | None =>
          if load then fill_cost s
          else if write_allocate s then fill_cost s + through_cost s
          else 100
      end.

Definition stats_consistent (s : CacheSimulator) : Prop :=
  total_loads s = load_hits s + load_misses s /\
  total_stores s = store_hits s + store_misses s.

(** Each of the seven counters of [s] is at most its value in [s']. *)
Definition stats_le (s s' : CacheSimulator) : Prop :=
  total_loads s <= total_loads s' /\ total_stores s <= total_stores s' /\
  load_hits s <= load_hits s' /\ load_misses s <= load_misses s' /\
  store_hits s <= store_hits s' /\ store_misses s <= store_misses s' /\
  total_cycles s <= total_cycles s'.

(** The [int] fields have room for one more access: the block size and the
    block transfer cost are [int]s, each counter can take one increment,
    and [total_cycles] can take the dearest access (a store miss that
    fills a block, writes a victim back and writes through). *)
Definition room (s : CacheSimulator) : Prop :=
  0 <= block_size s <= INT_MAX /\ fill_cost s <= INT_MAX /\
  INT_MIN <= total_loads s < INT_MAX /\ INT_MIN <= total_stores s < INT_MAX /\
  INT_MIN <= load_hits s < INT_MAX /\ INT_MIN <= load_misses s < INT_MAX /\
  INT_MIN <= store_hits s < INT_MAX /\ INT_MIN <= store_misses s < INT_MAX /\
  INT_MIN <= total_cycles s /\
  total_cycles s + 1 + 2 * fill_cost s + 100 <= INT_MAX.

(** ** Traces and scenarios *)

Definition load (address : Z) : ascii * Z := ("l"%char, address).
Definition store (address : Z) : ascii * Z := ("s"%char, address).

(** The seven numbers [printStats] prints, in its order. *)
Definition statistics (s : CacheSimulator) :=
  (total_loads s, total_stores s, load_hits s, load_misses s,
   store_hits s, store_misses s, total_cycles s).

(** A simulation from the constructor to the statistics. *)
Definition simulate (nsets blocks_per_set bytes_per_block : Z)
    (write_alloc write_thru lru : bool) (trace : list (ascii * Z)) :=
  s0 ← new_CacheSimulator nsets blocks_per_set bytes_per_block
         write_alloc write_thru lru;
  s ← run_trace s0 trace;
  Some (statistics s).

(** What a block and a cache hold: the [valid] and [dirty] flags and the
    [tag] of every block, set by set, in the order of the vectors. *)
Definition block_view (b : CacheBlock) : bool * bool * Z :=
  (valid b, dirty b, tag b).

Definition cache_view (s : CacheSimulator) : list (list (bool * bool * Z)) :=
  (fun set => block_view <$> blocks set) <$> sets s.

(** A simulation from the constructor to what can be seen of the cache: the
    statistics, the contents of every set, and for each of the given
    addresses what the scan of an access to it would find ([Some (Some i)]:
    its block is in slot [i]; [Some None]: it is not in the cache). *)
Definition observe (nsets blocks_per_set bytes_per_block : Z)
    (write_alloc write_thru lru : bool) (trace : list (ascii * Z))
    (addresses : list Z) :=
  s0 ← new_CacheSimulator nsets blocks_per_set bytes_per_block
         write_alloc write_thru lru;
  s ← run_trace s0 trace;
  Some (statistics s, cache_view s, probe s <$> addresses).

(** The slot [evictBlock] would choose, and the tags the set holds, after a
    trace on a cache of one set of two 4-byte blocks with [lru = false]
    (FIFO). *)
Definition fifo_victim_after (trace : list (ascii * Z)) : option nat :=
  s0 ← new_CacheSimulator 1 2 4 true true false;
  s ← run_trace s0 trace;
  set ← sets s !! 0%nat;
  select_victim s set.

Definition fifo_tags_after (trace : list (ascii * Z)) : option (list Z) :=
  s0 ← new_CacheSimulator 1 2 4 true true false;
  s ← run_trace s0 trace;
  set ← sets s !! 0%nat;
  Some (tag <$> blocks set).

(** * The program around the simulator *)

(** ** [main]: argument checks, replay of the trace, report

    [main] calls four library functions whose results the model takes as
    given, as parameters:
    - [atoi] is [std::atoi];
    - [not_integral n] is the test
      [std::floor(std::log2(n)) != std::log2(n)] on an [int] [n];
    - [stoul16 str] is [std::stoul(str, nullptr, 16)], [None] when it
      throws;
    - the extraction [std::cin >> operation >> address_str >> size] yields
      the records of [input], one per round of the loop, until it fails.
    [strcmp(a, b) != 0] is inequality of strings. *)

(** The eight exits with [return 1], in the order [main] tests them; each
    writes its message to [std::cerr]. *)
Inductive config_error : Type :=
| WrongArgumentCount     (* argc != 7 *)
| SetsNotPowerOfTwo      (* number of sets in cache must be a power of 2 *)
| BlocksNotPowerOfTwo    (* number of blocks in each set must a be power of 2 *)
| BadBlockSize           (* number of bytes in each block must be a positive power-of-2, at least 4 *)
| BadMissParameter       (* cache miss parameter must be write-allocate or no-write-allocate *)
| BadWriteParameter      (* store write parameter must be write-through or write-back *)
| BadEvictionParameter   (* eviction parameter must be lru of fifo *)
| InvalidCombination.    (* no-write-allocate and write-back is an invalid combination *)

(** How a run of [main] ends. *)
Inductive main_result : Type :=
| Rejected (e : config_error)
    (* a message on std::cerr and return 1 *)
| Finished (stats : Z * Z * Z * Z * Z * Z * Z)
    (* printStats() writes the seven numbers and main returns 0 *)
| Threw
    (* std::stoul throws and nothing catches it *)
| Undefined.
    (* the simulator leaves defined behaviour *)

(** The [while] loop of [main] followed by [cache.printStats()]. *)
Fixpoint replay (stoul16 : string -> option Z) (cache : CacheSimulator)
    (input : list (ascii * string * Z)) : main_result :=
  match input with
  | [] => Finished (statistics cache)
  | (operation, address_str, size) :: rest =>
      match stoul16 address_str with
      | None => Threw
      | Some a =>
          let address := uint a in
          match processAccess cache operation address with
          | None => Undefined
          | Some cache' => replay stoul16 cache' rest
          end
      end
  end.

(** [main]. [argv] holds [argc] strings, the program name first. *)
Definition main (atoi : string -> Z) (not_integral : Z -> bool)
    (stoul16 : string -> option Z)
    (argv : list string) (input : list (ascii * string * Z)) : main_result :=
  match argv with
  | [_; a1; a2; a3; a4; a5; a6] =>
      if not_integral (atoi a1) then Rejected SetsNotPowerOfTwo else
      if not_integral (atoi a2) then Rejected BlocksNotPowerOfTwo else
      if not_integral (atoi a3) || (atoi a3 <? 4) then Rejected BadBlockSize else
      if negb (String.eqb a4 "write-allocate")
         && negb (String.eqb a4 "no-write-allocate")
      then Rejected BadMissParameter else
      if negb (String.eqb a5 "write-through")
         && negb (String.eqb a5 "write-back")
      then Rejected BadWriteParameter else
      if negb (String.eqb a6 "lru") && negb (String.eqb a6 "fifo")
      then Rejected BadEvictionParameter else
      let num_sets := atoi a1 in
      let num_blocks := atoi a2 in
      let block_size := atoi a3 in
      let write_allocate := String.eqb a4 "write-allocate" in
      let write_through := String.eqb a5 "write-through" in
      let lru := String.eqb a6 "lru" in
      if negb write_allocate && negb write_through
      then Rejected InvalidCombination else
      match new_CacheSimulator num_sets num_blocks block_size
              write_allocate write_through lru with
      | None => Undefined
      | Some cache => replay stoul16 cache input
      end
  | _ => Rejected WrongArgumentCount
  end.

(** ** Vocabulary of the further properties *)

(** [s] with its eviction flag set to [lru]. *)
Definition set_policy (s : CacheSimulator) (lru : bool) : CacheSimulator :=
  mkCacheSimulator (num_sets s) (num_blocks_per_set s) (block_size s)
    (write_allocate s) (write_through s) lru
    (sets s) (global_counter s)
    (total_loads s) (total_stores s) (load_hits s) (load_misses s)
    (store_hits s) (store_misses s) (total_cycles s)
    (set_bits s) (block_bits s) (tag_bits s).

(** The number of loads in a trace. *)
Fixpoint count_loads (trace : list (ascii * Z)) : Z :=
  match trace with
  | [] => 0
  | (operation, _) :: rest =>
      (if is_load operation then 1 else 0) + count_loads rest
  end.

(** The number of input records whose operation is ['l']. *)
Fixpoint count_load_records (input : list (ascii * string * Z)) : Z :=
  match input with
  | [] => 0
  | (operation, _, _) :: rest =>
      (if is_load operation then 1 else 0) + count_load_records rest
  end.

(** Whether an access whose scan returned [r] stamps a block: every hit,
    every load miss, and the store misses that allocate. *)
Definition stamps (s : CacheSimulator) (load : bool) (r : option nat) : bool :=
  match r with
  | Some _ => true
  | None => load || write_allocate s
  end.

(** The number of misses that allocated a block: every load miss, and the
    store misses when the cache is write-allocate. *)
Definition allocations (s : CacheSimulator) : Z :=
  load_misses s + (if write_allocate s then store_misses s else 0).

(** The cycles that do not depend on the state of the blocks: one per
    access, one block transfer per allocation, and the 100 cycles of each
    store that writes to memory at once. *)
Definition fixed_cycles (s : CacheSimulator) : Z :=
  total_loads s + total_stores s + fill_cost s * allocations s +
  100 * (if write_through s then total_stores s
         else if write_allocate s then 0 else store_misses s).

(** Every block of [s] carries a stamp no greater than [bound]. *)
Definition stamps_below (s : CacheSimulator) (bound : Z) : Prop :=
  forall k set i b,
    sets s !! k = Some set -> blocks set !! i = Some b -> lru_count b <= bound.

(** Some access of [trace] went to set [k] with tag [t], under the
    geometry of [s]. *)
Definition accessed (s : CacheSimulator) (trace : list (ascii * Z))
    (k : nat) (t : Z) : Prop :=
  exists operation address,
    (operation, address) ∈ trace /\
    Z.to_nat (set_index_of address (set_bits s) (block_bits s)) = k /\
    tag_of address (set_bits s) (block_bits s) = t.

(** Stand-ins for the library functions, for examples: [atoi] on the
    argument strings the examples use (and 0 on the others, none of which
    is a number), the test [floor(log2(n)) != log2(n)], and [stoul] on one
    hexadecimal digit.  The test holds of a positive [n] that is not a power
    of two and of a negative [n] (a NaN differs from itself), and fails at 0
    (both sides are minus infinity). *)
Definition example_atoi (str : string) : Z :=
  if String.eqb str "1" then 1
  else if String.eqb str "2" then 2
  else if String.eqb str "3" then 3
  else if String.eqb str "4" then 4
  else if String.eqb str "16" then 16
  else 0.

Definition example_not_integral (n : Z) : bool :=
  if n <? 0 then true
  else if n =? 0 then false
  else negb (n =? 2 ^ Z.log2 n).

Definition example_stoul16 (str : string) : option Z :=
  if String.eqb str "0" then Some 0
  else if String.eqb str "4" then Some 4
  else if String.eqb str "8" then Some 8
  else None.

(** * Part III: reasoning about the embedding *)

(** ** Tactics *)

(** Splits a successful monadic computation into its successful steps. *)
Tactic Notation "unbind" hyp(H) :=
  let x := fresh "x" in
  let Hx := fresh "E" x in
  apply bind_Some in H; destruct H as (x & Hx & H).

Tactic Notation "unbind" hyp(H) "as" ident(x) ident(Hx) :=
  apply bind_Some in H; destruct H as (x & Hx & H).

Ltac some_inv :=
  repeat match goal with
  | H : Some _ = Some _ |- _ => inversion H; subst; clear H
  | H : None = Some _ |- _ => discriminate H
  end.

(** Reads of the configuration through a field assignment see the state
    before the assignment. *)
Ltac through f :=
  repeat match goal with
  | H : context [f (?w ?s ?v)] |- _ =>
      progress change (f (w s v)) with (f s) in H
  | |- context [f (?w ?s ?v)] =>
      progress change (f (w s v)) with (f s)
  end.

Ltac through_installed :=
  repeat match goal with
  | H : context [installed (?w ?s ?v) ?t] |- _ =>
      progress change (installed (w s v) t) with (installed s t) in H
  end.

Ltac settle :=
  through ways; through fill_cost; through config_of; through write_through;
  through write_allocate; through_installed.

(** ** Machine integers *)

Lemma int_of_Some z r : int_of z = Some r -> r = z /\ INT_MIN <= z <= INT_MAX.
Proof.
  unfold int_of, in_int. intros H.
  destruct (INT_MIN <=? z) eqn:E1; destruct (z <=? INT_MAX) eqn:E2;
    simpl in H; try discriminate.
  inversion H; subst. apply Z.leb_le in E1. apply Z.leb_le in E2. lia.
Qed.

Lemma int_of_in z : INT_MIN <= z <= INT_MAX -> int_of z = Some z.
Proof.
  intros [H1 H2]. unfold int_of, in_int.
  apply Z.leb_le in H1. apply Z.leb_le in H2. now rewrite H1, H2.
Qed.

Lemma int_add_Some x y r : int_add x y = Some r -> r = x + y.
Proof. intros H. apply int_of_Some in H. tauto. Qed.

Lemma uint_range z : 0 <= uint z < 2 ^ 32.
Proof. unfold uint. apply Z.mod_pos_bound. lia. Qed.

(** ** The scans *)

Lemma matches_true t b : matches t b = true <-> valid b = true /\ tag b = t.
Proof.
  unfold matches. rewrite andb_true_iff, Z.eqb_eq. tauto.
Qed.

Section Scans.
Implicit Types (bs : list CacheBlock) (t : Z) (i j n : nat).

Lemma find_tag_miss bs t n i :
  find_tag bs t i n = Some None ->
  forall j, (i <= j < i + n)%nat ->
    exists b, bs !! j = Some b /\ matches t b = false.
Proof.
  revert i. induction n as [|n IH]; intros i H j Hj; simpl in H; [lia|].
  unbind H. fold (matches t x) in H.
  destruct (matches t x) eqn:Em; [discriminate|].
  destruct (decide (j = i)) as [->|Hne]; [eauto|].
  apply (IH (S i) H). lia.
Qed.

Lemma find_tag_hit bs t n i j :
  find_tag bs t i n = Some (Some j) ->
  (i <= j < i + n)%nat /\
  (exists b, bs !! j = Some b /\ matches t b = true) /\
  (forall j', (i <= j' < j)%nat ->
     exists b', bs !! j' = Some b' /\ matches t b' = false).
Proof.
  revert i. induction n as [|n IH]; intros i H; simpl in H; [discriminate|].
  unbind H. fold (matches t x) in H.
  destruct (matches t x) eqn:Em.
  - some_inv. split; [lia|]. split; [eauto|]. intros; lia.
  - destruct (IH _ H) as (Hr & Hb & Hlt). split; [lia|]. split; [exact Hb|].
    intros j' Hj'. destruct (decide (j' = i)) as [->|Hne]; [eauto|].
    apply Hlt. lia.
Qed.

Lemma find_tag_defined bs t n i :
  (i + n <= length bs)%nat -> is_Some (find_tag bs t i n).
Proof.
  revert i. induction n as [|n IH]; intros i Hlen; simpl; [eauto|].
  destruct (lookup_lt_is_Some_2 bs i) as [b Hb]; [lia|].
  rewrite Hb. simpl. destruct (valid b && (tag b =? t)); [eauto|].
  apply IH. lia.
Qed.

(** A scan over a range that holds a matching block finds one. *)
Lemma find_tag_finds bs t n i j b :
  (i + n <= length bs)%nat -> (i <= j < i + n)%nat ->
  bs !! j = Some b -> matches t b = true ->
  exists j', find_tag bs t i n = Some (Some j').
Proof.
  intros Hlen Hj Hb Hm.
  destruct (find_tag_defined bs t n i Hlen) as [[j'|] Hr]; [eauto|].
  destruct (find_tag_miss _ _ _ _ Hr j Hj) as (b' & Hb' & Hm').
  congruence.
Qed.

Lemma find_invalid_full bs n i :
  find_invalid bs i n = Some None ->
  forall j, (i <= j < i + n)%nat ->
    exists b, bs !! j = Some b /\ valid b = true.
Proof.
  revert i. induction n as [|n IH]; intros i H j Hj; simpl in H; [lia|].
  unbind H. destruct (valid x) eqn:Ev; simpl in H; [|discriminate].
  destruct (decide (j = i)) as [->|Hne]; [eauto|].
  apply (IH (S i) H). lia.
Qed.

Lemma find_invalid_free bs n i j :
  find_invalid bs i n = Some (Some j) ->
  (i <= j < i + n)%nat /\
  exists b, bs !! j = Some b /\ valid b = false.
Proof.
  revert i. induction n as [|n IH]; intros i H; simpl in H; [discriminate|].
  unbind H. destruct (valid x) eqn:Ev; simpl in H.
  - destruct (IH _ H) as (Hr & Hb). split; [lia|exact Hb].
  - some_inv. split; [lia|eauto].
Qed.

Lemma find_invalid_defined bs n i :
  (i + n <= length bs)%nat -> is_Some (find_invalid bs i n).
Proof.
  revert i. induction n as [|n IH]; intros i Hlen; simpl; [eauto|].
  destruct (lookup_lt_is_Some_2 bs i) as [b Hb]; [lia|].
  rewrite Hb. simpl. destruct (negb (valid b)); [eauto|].
  apply IH. lia.
Qed.

(** The index [min_scan] returns is the one it was entered with or one
    it visited. *)
Lemma min_scan_range bs n i m e r :
  min_scan bs i n m e = Some r ->
  r = e \/ (i <= r < i + n)%nat.
Proof.
  revert i m e. induction n as [|n IH]; intros i m e H; simpl in H.
  - some_inv. now left.
  - unbind H. destruct (lru_count x <? m).
    + destruct (IH _ _ _ H) as [->|Hr]; right; lia.
    + destruct (IH _ _ _ H) as [->|Hr]; [now left|right; lia].
Qed.

Lemma min_scan_defined bs n i m e :
  (i + n <= length bs)%nat -> is_Some (min_scan bs i n m e).
Proof.
  revert i m e. induction n as [|n IH]; intros i m e Hlen; simpl; [eauto|].
  destruct (lookup_lt_is_Some_2 bs i) as [b Hb]; [lia|].
  rewrite Hb. simpl. destruct (lru_count b <? m); apply IH; lia.
Qed.
End Scans.

(** ** What an operation leaves alone *)

Lemma config_of_eq s s' :
  config_of s' = config_of s ->
  num_blocks_per_set s' = num_blocks_per_set s /\
  block_size s' = block_size s /\
  write_allocate s' = write_allocate s /\
  write_through s' = write_through s /\
  lru_eviction s' = lru_eviction s /\
  set_bits s' = set_bits s /\
  block_bits s' = block_bits s /\
  ways s' = ways s.
Proof.
  unfold config_of, ways. intros H. inversion H as [[H1 H2 H3 H4 H5 H6 H7 H8 H9]].
  rewrite H2. tauto.
Qed.

Lemma block_transfer_cycles_inv s c :
  block_transfer_cycles s = Some c -> c = fill_cost s.
Proof.
  unfold block_transfer_cycles, int_div, int_mul, fill_cost. simpl. intros H.
  unbind H. apply int_of_Some in Ex. apply int_of_Some in H.
  destruct Ex as [-> _]. tauto.
Qed.

Lemma add_cycles_inv s c s' :
  add_cycles s c = Some s' -> s' = with_total_cycles s (total_cycles s + c).
Proof.
  unfold add_cycles. intros H. unbind H. apply int_add_Some in Ex. some_inv.
  reflexivity.
Qed.

Lemma write_block_inv s k i b s' :
  write_block s k i b = Some s' ->
  exists set old, sets s !! k = Some set /\ blocks set !! i = Some old /\
    s' = with_sets s (put_block (sets s) k i set b).
Proof.
  unfold write_block. intros H. unbind H. unbind H. some_inv. eauto.
Qed.

Lemma install_block_inv s k i t s' :
  install_block s k i t = Some s' ->
  exists set old, sets s !! k = Some set /\ blocks set !! i = Some old /\
    s' = with_sets (with_global_counter s (uint (global_counter s + 1)))
           (put_block (sets s) k i set (installed s t)).
Proof.
  unfold install_block. intros H. apply write_block_inv in H.
  destruct H as (set & old & Hs & Hb & ->). simpl in *. eauto.
Qed.

Lemma touch_block_inv s k i s' :
  touch_block s k i = Some s' ->
  exists set b, sets s !! k = Some set /\ blocks set !! i = Some b /\
    s' = with_sets (with_global_counter s (uint (global_counter s + 1)))
           (put_block (sets s) k i set
              (set_lru_count b (uint (global_counter s + 1)))).
Proof.
  unfold touch_block. intros H. unbind H. unbind H.
  apply write_block_inv in H. destruct H as (set & old & Hs & Hb & ->).
  simpl in *. exists x, x0. split; [done|]. split; [done|]. congruence.
Qed.

(** ** Lists of sets *)

Lemma put_block_lookup_eq ss k i set b :
  (k < length ss)%nat ->
  put_block ss k i set b !! k = Some {| blocks := <[i := b]> (blocks set) |}.
Proof. intros H. unfold put_block. now apply list_lookup_insert_eq. Qed.

Lemma put_block_lookup_ne ss k k' i set b :
  k <> k' -> put_block ss k i set b !! k' = ss !! k'.
Proof. intros H. unfold put_block. now apply list_lookup_insert_ne. Qed.

Lemma put_block_twice ss k i set b b' :
  put_block (put_block ss k i set b) k i
    {| blocks := <[i := b]> (blocks set) |} b'
  = put_block ss k i set b'.
Proof.
  unfold put_block. simpl. rewrite list_insert_insert_eq.
  now rewrite list_insert_insert_eq.
Qed.

Lemma put_block_length ss k i set b :
  length (put_block ss k i set b) = length ss.
Proof. unfold put_block. apply length_insert. Qed.

(** ** Allocation, step by step *)

Lemma select_victim_range s set v :
  select_victim s set = Some v -> (0 < ways s)%nat -> (v < ways s)%nat.
Proof.
  unfold select_victim. intros H Hw.
  destruct (lru_eviction s); unbind H;
    apply min_scan_range in H; destruct H as [->|H]; lia.
Qed.

Lemma alloc_choice_range s set i wb :
  alloc_choice s set i wb -> (0 < ways s)%nat -> (i < ways s)%nat.
Proof.
  intros [j Hf|v victim Hf Hv Hb] Hw.
  - apply find_invalid_free in Hf. lia.
  - eauto using select_victim_range.
Qed.

(** The choice reads the configuration and the set, nothing else. *)
Lemma alloc_choice_config s1 s2 set i wb :
  config_of s1 = config_of s2 ->
  alloc_choice s1 set i wb -> alloc_choice s2 set i wb.
Proof.
  intros Hc H. pose proof (config_of_eq _ _ Hc) as (_ & Hbs & _ & Hwt & Hl & _ & _ & Hw).
  destruct H as [j Hf|v victim Hf Hv Hb].
  - constructor. now rewrite <- Hw.
  - replace (writeback_cost s1 victim) with (writeback_cost s2 victim)
      by (unfold writeback_cost, fill_cost; now rewrite Hwt, Hbs).
    econstructor; eauto.
    + now rewrite <- Hw.
    + unfold select_victim in *. now rewrite <- Hl, <- Hw.
Qed.

Lemma evictBlock_inv s k t s' :
  evictBlock s k t = Some s' ->
  exists set v victim,
    sets s !! k = Some set /\ select_victim s set = Some v /\
    blocks set !! v = Some victim /\
    config_of s' = config_of s /\ counts_of s' = counts_of s /\
    total_cycles s' = total_cycles s + writeback_cost s victim /\
    global_counter s' = uint (global_counter s + 1) /\
    sets s' = put_block (sets s) k v set (installed s t).
Proof.
  unfold evictBlock. intros H. unbind H. unbind H. unbind H. unbind H.
  apply install_block_inv in H. destruct H as (set & old & Hs & Hb & ->).
  exists x, x0, x1. unfold writeback_cost.
  destruct (dirty x1 && negb (write_through s)).
  - unbind Ex2. apply block_transfer_cycles_inv in Ex3.
    apply add_cycles_inv in Ex2. subst. simpl in *.
    assert (set = x) as -> by congruence.
    repeat split; done.
  - some_inv. simpl. assert (set = x) as -> by congruence.
    repeat split; try done. lia.
Qed.

Lemma allocateBlock_inv s k t s' :
  allocateBlock s k t = Some s' ->
  exists set i wb,
    sets s !! k = Some set /\ alloc_choice s set i wb /\
    is_Some (blocks set !! i) /\
    config_of s' = config_of s /\ counts_of s' = counts_of s /\
    total_cycles s' = total_cycles s + wb /\
    global_counter s' = uint (global_counter s + 1) /\
    sets s' = put_block (sets s) k i set (installed s t).
Proof.
  unfold allocateBlock. intros H. unbind H. unbind H.
  destruct x0 as [i|].
  - apply install_block_inv in H. destruct H as (set & old & Hs & Hb & ->).
    assert (set = x) as -> by congruence.
    exists x, i, 0. simpl. repeat split; try done; try lia; eauto.
    now constructor.
  - apply evictBlock_inv in H.
    destruct H as (set & v & victim & Hs & Hv & Hb & Hc & Hn & Ht & Hg & Hss).
    assert (set = x) as -> by congruence.
    exists x, v, (writeback_cost s victim). repeat split; try done; eauto.
    econstructor; eauto.
Qed.

(** ** The access paths, case by case *)

Lemma processLoad_inv s set_index t s' :
  processLoad s set_index t = Some s' ->
  config_of s' = config_of s /\
  global_counter s' = uint (global_counter s + 1) /\
  load_effect s (Z.to_nat set_index) t s'.
Proof.
  unfold processLoad. intros H.
  unbind H as tl Htl. apply int_add_Some in Htl.
  unbind H as s1 Hs1. apply add_cycles_inv in Hs1. subst. simpl in H.
  unbind H as set Hset. unbind H as r Hr. change (ways _) with (ways s) in Hr.
  destruct r as [i|].
  - unbind H as lh Hlh. apply int_add_Some in Hlh. subst.
    apply touch_block_inv in H. destruct H as (set' & b & Hs & Hb & ->).
    simpl in *. assert (set' = set) as -> by congruence.
    split; [done|]. split; [done|].
    eapply load_hit; eauto.
  - unbind H as lm Hlm. apply int_add_Some in Hlm.
    unbind H as c Hc. apply block_transfer_cycles_inv in Hc.
    unbind H as s2 Hs2. apply add_cycles_inv in Hs2. subst.
    apply allocateBlock_inv in H.
    destruct H as (set' & i & wb & Hs & Hch & Hb & Hcf & Hn & Ht & Hg & Hss).
    simpl in *. assert (set' = set) as -> by congruence.
    split; [done|]. split; [done|].
    eapply load_miss; eauto.
    eapply alloc_choice_config; [|exact Hch]. reflexivity.
Qed.

(** After a miss, the installed block is the first match of a new scan. *)
Lemma find_tag_after_install bs t n i b j :
  find_tag bs t 0 n = Some None ->
  find_tag (<[i := b]> bs) t 0 n = Some (Some j) ->
  j = i.
Proof.
  intros Hmiss Hhit. apply find_tag_hit in Hhit.
  destruct Hhit as (Hj & (b' & Hb' & Hm) & _).
  destruct (decide (j = i)) as [->|Hne]; [done|].
  rewrite list_lookup_insert_ne in Hb' by congruence.
  destruct (find_tag_miss _ _ _ _ Hmiss j) as (b0 & Hb0 & Hm0); [lia|].
  congruence.
Qed.

Lemma find_tag_install_found bs t n i b :
  (i < n)%nat -> is_Some (bs !! i) -> matches t b = true ->
  find_tag (<[i := b]> bs) t 0 n = Some None -> False.
Proof.
  intros Hi [old Hold] Hm Hmiss.
  destruct (find_tag_miss _ _ _ _ Hmiss i) as (b0 & Hb0 & Hm0); [lia|].
  apply lookup_lt_Some in Hold.
  rewrite list_lookup_insert_eq in Hb0 by done. congruence.
Qed.

Lemma processStore_inv s set_index t s' :
  processStore s set_index t = Some s' ->
  config_of s' = config_of s /\
  store_effect s (Z.to_nat set_index) t s'.
Proof.
  unfold processStore. intros H.
  unbind H as ts Hts. apply int_add_Some in Hts.
  unbind H as s1 Hs1. apply add_cycles_inv in Hs1. subst. simpl in H.
  unbind H as set Hset. unbind H as r Hr. change (ways _) with (ways s) in Hr.
  pose proof (lookup_lt_Some _ _ _ Hset) as Hk.
  destruct r as [i|].
  - unbind H as sh Hsh. apply int_add_Some in Hsh. subst.
    unbind H as s2 Hs2. apply touch_block_inv in Hs2.
    destruct Hs2 as (set' & b & Hs & Hb & ->).
    simpl in *. assert (set' = set) as -> by congruence.
    split.
    + destruct (write_through s); simpl in H.
      * apply add_cycles_inv in H. now subst.
      * unbind H as set2 Hset2. unbind H as b2 Hb2.
        apply write_block_inv in H. destruct H as (? & ? & _ & _ & ->). done.
    + eapply store_hit; eauto; unfold through_cost, store_hit_block;
        destruct (write_through s); simpl in H.
      all: try (apply add_cycles_inv in H; subst; simpl; done || lia).
      all: unbind H as set2 Hset2; unbind H as b2 Hb2;
        apply write_block_inv in H; destruct H as (set3 & b3 & Hs3 & Hb3 & ->);
        simpl in *; try done; try lia.
      rewrite put_block_lookup_eq in Hset2, Hs3 by done. some_inv.
      simpl in *. apply lookup_lt_Some in Hb.
      rewrite list_lookup_insert_eq in Hb2 by done. some_inv.
      apply put_block_twice.
  - unbind H as sm Hsm. apply int_add_Some in Hsm. subst. simpl in H.
    destruct (write_allocate s) eqn:Hwa.
    + unbind H as c Hc. apply block_transfer_cycles_inv in Hc.
      unbind H as s2 Hs2. apply add_cycles_inv in Hs2. subst.
      unbind H as s3 Hs3. apply allocateBlock_inv in Hs3.
      destruct Hs3 as (set' & i & wb & Hs & Hch & Hb & Hcf & Hn & Ht & Hg & Hss).
      simpl in *. assert (set' = set) as -> by congruence.
      apply (alloc_choice_config _ s) in Hch; [|reflexivity]. settle.
      pose proof (config_of_eq _ _ Hcf) as (_ & _ & _ & Hwt & _ & _ & _ & Hw).
      injection Hn as Hn1 Hn2 Hn3 Hn4 Hn5 Hn6.
      rewrite Hwt in H.
      assert (Hcount : forall s4, counts_of s4 = counts_of s3 ->
                counts_of s4 = (total_loads s, total_stores s + 1, load_hits s,
                    load_misses s, store_hits s, store_misses s + 1))
        by (intros s4 ->; unfold counts_of; congruence).
      destruct (write_through s) eqn:Ewt; simpl in H.
      * apply add_cycles_inv in H. subst s'. split; [done|].
        eapply (store_miss_allocate s _ t _ set i wb (installed s t)); eauto.
        -- left. unfold store_installed. now rewrite Ewt.
        -- unfold through_cost. rewrite Ewt. simpl. lia.
      * unbind H as set2 Hset2. unbind H as r2 Hr2.
        rewrite Hss, put_block_lookup_eq in Hset2 by done. some_inv.
        simpl in Hr2. rewrite Hw in Hr2.
        destruct r2 as [j|].
        -- pose proof (find_tag_after_install _ _ _ _ _ _ Hr Hr2) as ->.
           unbind H as b2 Hb2. apply write_block_inv in H.
           destruct H as (set3 & b3 & Hs3 & Hb3 & ->).
           rewrite Hss, put_block_lookup_eq in Hs3 by done. some_inv.
           simpl in Hb2. destruct Hb as [old Hold].
           pose proof (lookup_lt_Some _ _ _ Hold) as Hlt.
           rewrite list_lookup_insert_eq in Hb2 by done. some_inv.
           split; [done|].
           eapply (store_miss_allocate s _ t _ set i wb
                     (set_dirty (installed s t) true)); eauto.
           ++ left. unfold store_installed. now rewrite Ewt.
           ++ unfold through_cost. rewrite Ewt. simpl. lia.
           ++ simpl. rewrite Hss. apply put_block_twice.
        -- some_inv. split; [done|].
           eapply (store_miss_allocate s _ t _ set i wb (installed s t)); eauto.
           ++ right. split; [|reflexivity].
              destruct (Nat.eq_dec (ways s) 0%nat) as [Hz|Hnz]; [done|]. exfalso.
              eapply (find_tag_install_found (blocks set) t (ways s) i);
                [|exact Hb| |exact Hr2].
              ** eapply alloc_choice_range; eauto. lia.
              ** apply matches_true. done.
           ++ unfold through_cost. rewrite Ewt. lia.
    + apply add_cycles_inv in H. subst s'. simpl. split; [done|].
      eapply store_miss_around; eauto.
Qed.

(** ** One access, seen from outside *)

Lemma processAccess_inv s operation address s' :
  processAccess s operation address = Some s' ->
  shifts_defined (set_bits s) (block_bits s) = true /\
  let k := set_index_of address (set_bits s) (block_bits s) in
  let t := tag_of address (set_bits s) (block_bits s) in
  if is_load operation then processLoad s k t = Some s'
  else processStore s k t = Some s'.
Proof.
  unfold processAccess, is_load. intros H.
  destruct (shifts_defined _ _); [|discriminate]. split; [done|].
  simpl. now destruct (Ascii.eqb operation "l").
Qed.

Lemma miss_no_valid_tag bs t n :
  find_tag bs t 0 n = Some None ->
  forall j bj, (j < n)%nat -> bs !! j = Some bj -> valid bj = true ->
               tag bj <> t.
Proof.
  intros Hmiss j bj Hj Hb Hv Ht.
  destruct (find_tag_miss _ _ _ _ Hmiss j) as (b & Hb' & Hm); [lia|].
  assert (matches t bj = true) by (apply matches_true; done).
  congruence.
Qed.

Lemma hit_valid_tag bs t n i b :
  find_tag bs t 0 n = Some (Some i) -> bs !! i = Some b ->
  valid b = true /\ tag b = t /\ (i < n)%nat.
Proof.
  intros Hhit Hb. apply find_tag_hit in Hhit.
  destruct Hhit as (Hi & (b' & Hb' & Hm) & _).
  apply matches_true in Hm. assert (b' = b) as -> by congruence.
  split; [tauto|]. split; [tauto|lia].
Qed.

Lemma slot_step_hit s set b b' :
  valid b = true -> valid b' = valid b -> tag b' = tag b ->
  (dirty b' = true -> dirty b = true \/ write_through s = false) ->
  slot_step s set b b'.
Proof.
  intros Hv Hv' Ht Hd. split; [congruence|]. split; [done|]. now left.
Qed.

Lemma slot_step_miss s set t b b' :
  find_tag (blocks set) t 0 (ways s) = Some None ->
  valid b' = true -> tag b' = t ->
  (dirty b' = true -> write_through s = false) ->
  slot_step s set b b'.
Proof.
  intros Hf Hv Ht Hd. split; [done|]. split; [auto|]. right. rewrite Ht.
  eauto using miss_no_valid_tag.
Qed.

(** Every access leaves the cache store alone or rewrites one slot. *)
Lemma access_sets s operation address s' :
  processAccess s operation address = Some s' ->
  config_of s' = config_of s /\
  (sets s' = sets s \/
   exists k set i b b',
     sets s !! k = Some set /\ blocks set !! i = Some b /\
     sets s' = put_block (sets s) k i set b' /\
     slot_step s set b b').
Proof.
  intros H. apply processAccess_inv in H. destruct H as [_ H]. simpl in H.
  destruct (is_load operation).
  - apply processLoad_inv in H. destruct H as (Hc & _ & H). split; [done|].
    right.
    destruct H as [set i b Hs Hf Hb _ _ Hss|set i wb Hs Hf Hch [b Hb] _ _ Hss];
      eexists _, set, i, b, _;
      (split; [exact Hs|]); (split; [exact Hb|]); (split; [exact Hss|]).
    + destruct (hit_valid_tag _ _ _ _ _ Hf Hb) as (Hv & _).
      apply slot_step_hit; auto.
    + eapply slot_step_miss; eauto. discriminate.
  - apply processStore_inv in H. destruct H as (Hc & H). split; [done|].
    destruct H as [set i b Hs Hf Hb _ _ _ Hss
                  |set i wb b' Hwa Hs Hf Hch [b Hb] Hb' _ _ _ Hss
                  |set Hwa Hs Hf _ _ _ Hss]; [right|right|now left];
      eexists _, set, i, b, _;
      (split; [exact Hs|]); (split; [exact Hb|]); (split; [exact Hss|]).
    + destruct (hit_valid_tag _ _ _ _ _ Hf Hb) as (Hv & _).
      apply slot_step_hit; auto; unfold store_hit_block;
        destruct (write_through s); simpl; auto.
    + eapply slot_step_miss; eauto;
        destruct Hb' as [->|[_ ->]]; unfold store_installed;
        destruct (write_through s); simpl; auto; discriminate.
Qed.

(** ** Invariants of a run *)

(** An invariant of single accesses is an invariant of traces. *)
Lemma run_trace_invariant (P : CacheSimulator -> Prop) :
  (forall s operation address s',
     P s -> processAccess s operation address = Some s' -> P s') ->
  forall trace s s', P s -> run_trace s trace = Some s' -> P s'.
Proof.
  intros Hstep trace. induction trace as [|[operation address] rest IH];
    intros s s' HP H; simpl in H.
  - now some_inv.
  - unbind H as s1 Hs1. eauto.
Qed.

Lemma run_trace_app s t1 t2 :
  run_trace s (t1 ++ t2) = (s1 ← run_trace s t1; run_trace s1 t2).
Proof.
  revert s. induction t1 as [|[operation address] rest IH]; intros s; simpl.
  - reflexivity.
  - destruct (processAccess s operation address); simpl; [apply IH|done].
Qed.

Lemma count_valid_le_length bs : (count_valid bs <= length bs)%nat.
Proof.
  induction bs as [|b rest IH]; simpl; [lia|]. destruct (valid b); lia.
Qed.

Lemma count_valid_insert bs i b' :
  valid b' = true -> (count_valid bs <= count_valid (<[i := b']> bs))%nat.
Proof.
  intros Hv. revert i. induction bs as [|b rest IH]; intros i; simpl; [lia|].
  destruct i as [|i]; simpl.
  - rewrite Hv. destruct (valid b); lia.
  - specialize (IH i). destruct (valid b); lia.
Qed.

Section Constructor.
Variables (nsets blocks_per_set bytes_per_block : Z).
Variables (write_alloc write_thru lru : bool).
Variable s0 : CacheSimulator.
Hypothesis Hnew :
  new_CacheSimulator nsets blocks_per_set bytes_per_block
    write_alloc write_thru lru = Some s0.

Lemma new_CacheSimulator_inv :
  0 <= blocks_per_set /\ 0 < nsets /\ 0 < bytes_per_block /\
  config_of s0 =
    (nsets, blocks_per_set, bytes_per_block, write_alloc, write_thru, lru,
     Z.log2 nsets, Z.log2 bytes_per_block,
     32 - Z.log2 nsets - Z.log2 bytes_per_block) /\
  sets s0 = replicate (Z.to_nat nsets)
              {| blocks := replicate (Z.to_nat blocks_per_set) new_CacheBlock |} /\
  global_counter s0 = 0 /\
  counts_of s0 = (0, 0, 0, 0, 0, 0) /\ total_cycles s0 = 0.
Proof.
  revert Hnew. unfold new_CacheSimulator, new_CacheSet, log2_int. intros H.
  unbind H as proto Hproto.
  destruct (blocks_per_set <? 0) eqn:Eb; [discriminate|]. some_inv.
  destruct (nsets <? 0) eqn:En; [discriminate|].
  unbind H as sb Hsb. destruct (nsets <=? 0) eqn:En0; [discriminate|].
  unbind H as bb Hbb. destruct (bytes_per_block <=? 0) eqn:Eb0; [discriminate|].
  unbind H as t1 Ht1. unbind H as tb Htb.
  apply int_add_Some in Ht1. apply int_add_Some in Htb. some_inv.
  apply Z.ltb_ge in Eb. apply Z.leb_gt in En0. apply Z.leb_gt in Eb0.
  unfold config_of, counts_of. simpl.
  repeat split; try done; try lia.
Qed.

Lemma new_well_sized : well_sized s0.
Proof.
  destruct new_CacheSimulator_inv as (_ & _ & _ & Hc & Hs & _).
  intros k set Hk. rewrite Hs in Hk. apply lookup_replicate in Hk.
  destruct Hk as [-> _]. simpl. rewrite length_replicate.
  unfold ways. injection Hc as _ -> _. reflexivity.
Qed.

Lemma new_all_invalid k set i b :
  sets s0 !! k = Some set -> blocks set !! i = Some b -> b = new_CacheBlock.
Proof.
  destruct new_CacheSimulator_inv as (_ & _ & _ & _ & Hs & _).
  intros Hk Hb. rewrite Hs in Hk. apply lookup_replicate in Hk.
  destruct Hk as [-> _]. simpl in Hb. apply lookup_replicate in Hb. tauto.
Qed.

Lemma new_all_clean : all_clean s0.
Proof.
  intros k set i b Hk Hb. now rewrite (new_all_invalid _ _ _ _ Hk Hb).
Qed.

Lemma new_distinct_tags : distinct_tags s0.
Proof.
  intros k set i j bi bj Hk Hi Hj Hvi.
  now rewrite (new_all_invalid _ _ _ _ Hk Hi) in Hvi.
Qed.
End Constructor.

(** ** Preservation by one access *)

Lemma put_block_lookup ss k i set b k' set' :
  ss !! k = Some set ->
  put_block ss k i set b !! k' = Some set' ->
  (k' = k /\ set' = {| blocks := <[i := b]> (blocks set) |}) \/
  (k' <> k /\ ss !! k' = Some set').
Proof.
  intros Hk H. unfold put_block in H.
  apply list_lookup_insert_Some in H. destruct H as [(-> & <- & _)|[Hne H]].
  - now left.
  - right. split; [congruence|done].
Qed.

Lemma step_config s operation address s' :
  processAccess s operation address = Some s' -> config_of s' = config_of s.
Proof. intros H. now apply access_sets in H. Qed.

Lemma step_well_sized s operation address s' :
  well_sized s -> processAccess s operation address = Some s' -> well_sized s'.
Proof.
  intros Hws H. apply access_sets in H. destruct H as (Hc & H).
  apply config_of_eq in Hc. destruct Hc as (_ & _ & _ & _ & _ & _ & _ & Hw).
  intros k' set' Hk'. rewrite Hw.
  destruct H as [Hss|(k & set & i & b & b' & Hk & Hb & Hss & _)];
    rewrite Hss in Hk'; [eauto|].
  destruct (put_block_lookup _ _ _ _ _ _ _ Hk Hk') as [(-> & ->)|(_ & Hold)];
    [|eauto].
  simpl. rewrite length_insert. eauto.
Qed.

Lemma step_all_clean s operation address s' :
  write_through s = true -> all_clean s ->
  processAccess s operation address = Some s' -> all_clean s'.
Proof.
  intros Hwt Hcl H. apply access_sets in H. destruct H as (_ & H).
  intros k' set' j bj Hk' Hj.
  destruct H as [Hss|(k & set & i & b & b' & Hk & Hb & Hss & Hstep)];
    rewrite Hss in Hk'; [eauto|].
  destruct (put_block_lookup _ _ _ _ _ _ _ Hk Hk') as [(-> & ->)|(_ & Hold)];
    [|eauto].
  simpl in Hj. apply list_lookup_insert_Some in Hj.
  destruct Hj as [(-> & <- & _)|[_ Hj]]; [|eauto].
  destruct Hstep as (_ & Hd & _). destruct (dirty b') eqn:Ed; [|done].
  destruct (Hd eq_refl) as [Hdb|Hf]; [|congruence].
  rewrite (Hcl _ _ _ _ Hk Hb) in Hdb. discriminate.
Qed.

Lemma step_distinct_tags s operation address s' :
  well_sized s -> distinct_tags s ->
  processAccess s operation address = Some s' -> distinct_tags s'.
Proof.
  intros Hws Hdt H. apply access_sets in H. destruct H as (_ & H).
  intros k' set' i1 i2 b1 b2 Hk' H1 H2 Hv1 Hv2 Ht.
  destruct H as [Hss|(k & set & i & b & b' & Hk & Hb & Hss & Hstep)];
    rewrite Hss in Hk'; [eauto|].
  destruct (put_block_lookup _ _ _ _ _ _ _ Hk Hk') as [(-> & ->)|(_ & Hold)];
    [|eauto].
  simpl in H1, H2. destruct Hstep as (_ & _ & Htag).
  assert (Hfresh : forall j bj, j <> i -> blocks set !! j = Some bj ->
            valid bj = true -> tag bj <> tag b').
  { intros j bj Hne Hj Hvj. destruct Htag as [[Hvb Htb]|Hno].
    - rewrite Htb. intros Heq. apply Hne. eapply Hdt; eauto.
    - apply (Hno j bj); [|done|done].
      rewrite <- (Hws _ _ Hk). eauto using lookup_lt_Some. }
  apply list_lookup_insert_Some in H1. apply list_lookup_insert_Some in H2.
  destruct H1 as [(-> & <- & _)|[Hn1 H1]], H2 as [(-> & <- & _)|[Hn2 H2]].
  - reflexivity.
  - exfalso. eapply (Hfresh i2 b2); eauto.
  - exfalso. eapply (Hfresh i1 b1); eauto.
  - eapply Hdt; eauto.
Qed.

Lemma valid_kept_refl ss : valid_kept ss ss.
Proof. intros k set Hk. exists set. eauto. Qed.

Lemma valid_kept_trans ss1 ss2 ss3 :
  valid_kept ss1 ss2 -> valid_kept ss2 ss3 -> valid_kept ss1 ss3.
Proof.
  intros H12 H23 k set1 Hk1.
  destruct (H12 _ _ Hk1) as (set2 & Hk2 & Hv12 & Hc12).
  destruct (H23 _ _ Hk2) as (set3 & Hk3 & Hv23 & Hc23).
  exists set3. split; [done|]. split; [|lia].
  intros i b Hb Hv. destruct (Hv12 _ _ Hb Hv) as (b2 & Hb2 & Hv2). eauto.
Qed.

Lemma step_valid_kept s operation address s' :
  processAccess s operation address = Some s' ->
  valid_kept (sets s) (sets s').
Proof.
  intros H. apply access_sets in H. destruct H as (_ & H).
  destruct H as [->|(k & set & i & b & b' & Hk & Hb & -> & Hv' & _)];
    [apply valid_kept_refl|].
  intros k' set' Hk'. destruct (decide (k' = k)) as [->|Hne].
  - assert (set' = set) as -> by congruence.
    eexists. split.
    { apply put_block_lookup_eq. eauto using lookup_lt_Some. }
    simpl. split; [|now apply count_valid_insert].
    intros j bj Hj Hvj. destruct (decide (j = i)) as [->|Hji].
    + exists b'. split; [|done].
      apply list_lookup_insert_eq. eauto using lookup_lt_Some.
    + exists bj. split; [|done]. now rewrite list_lookup_insert_ne.
  - exists set'. rewrite put_block_lookup_ne by done. eauto.
Qed.

(** ** Counters and cycles of one access *)

Lemma alloc_choice_cost s set i wb :
  alloc_choice s set i wb ->
  wb = 0 \/ (write_through s = false /\ wb = fill_cost s).
Proof.
  intros [j Hf|v victim Hf Hv Hb]; [now left|].
  unfold writeback_cost.
  destruct (dirty victim); simpl; [|now left].
  destruct (write_through s); simpl; [now left|now right].
Qed.

Lemma step_stats s operation address s' :
  processAccess s operation address = Some s' ->
  exists r wb,
    probe s address = Some r /\
    counts_of s' = counts_after s (is_load operation) r /\
    total_cycles s' = total_cycles s + base_cost s (is_load operation) r + wb /\
    (wb = 0 \/ (write_through s = false /\ wb = fill_cost s /\ r = None)).
Proof.
  intros H. apply processAccess_inv in H. destruct H as [_ H]. simpl in H.
  unfold probe, counts_after, base_cost. destruct (is_load operation).
  - apply processLoad_inv in H. destruct H as (_ & _ & H).
    destruct H as [set i b Hs Hf Hb Hn Ht _|set i wb Hs Hf Hch _ Hn Ht _];
      rewrite Hs; simpl; rewrite Hf.
    + exists (Some i), 0. simpl. rewrite !Z.add_0_r.
      repeat split; try done; try lia; auto.
    + exists None, wb. simpl. rewrite !Z.add_0_r.
      destruct (alloc_choice_cost _ _ _ _ Hch) as [->|[? ->]];
        repeat split; try done; try lia; auto.
  - apply processStore_inv in H. destruct H as (_ & H).
    destruct H as [set i b Hs Hf Hb Hn Ht _ _
                  |set i wb b' Hwa Hs Hf Hch _ _ Hn Ht _ _
                  |set Hwa Hs Hf Hn Ht _ _];
      rewrite Hs; simpl; rewrite Hf.
    + exists (Some i), 0. simpl. rewrite !Z.add_0_r.
      repeat split; try done; try lia; auto.
    + exists None, wb. simpl. rewrite Hwa, !Z.add_0_r.
      destruct (alloc_choice_cost _ _ _ _ Hch) as [->|[? ->]];
        repeat split; try done; try lia; auto.
    + exists None, 0. simpl. rewrite Hwa, !Z.add_0_r.
      repeat split; try done; try lia; auto.
Qed.

(** ** Arithmetic of masks and costs *)

Lemma set_mask_ones sbits :
  0 <= sbits <= 32 -> uint (Z.shiftl 1 sbits - 1) = Z.ones sbits.
Proof.
  intros Hs. rewrite Z.shiftl_1_l, Z.ones_equiv. unfold uint, Z.pred.
  apply Z.mod_small.
  assert (0 < 2 ^ sbits) by (apply Z.pow_pos_nonneg; lia).
  assert (2 ^ sbits <= 2 ^ 32) by (apply Z.pow_le_mono_r; lia).
  lia.
Qed.

Lemma fill_cost_nonneg s : 0 <= block_size s -> 0 <= fill_cost s.
Proof.
  intros H. unfold fill_cost.
  assert (0 <= Z.quot (block_size s) 4) by (apply Z.quot_pos; lia). lia.
Qed.

Lemma through_cost_nonneg s : 0 <= through_cost s.
Proof. unfold through_cost. destruct (write_through s); lia. Qed.

(** ** When an access is defined *)

Lemma int_add_in x y :
  INT_MIN <= x + y <= INT_MAX -> int_add x y = Some (x + y).
Proof. apply int_of_in. Qed.

Lemma set_index_of_range address sbits bbits :
  0 <= sbits <= 32 -> 0 <= set_index_of address sbits bbits < 2 ^ sbits.
Proof.
  intros Hs. unfold set_index_of. rewrite set_mask_ones by done.
  rewrite Z.land_ones by lia. apply Z.mod_pos_bound.
  apply Z.pow_pos_nonneg; lia.
Qed.

Lemma add_cycles_defined s c :
  INT_MIN <= total_cycles s + c <= INT_MAX ->
  add_cycles s c = Some (with_total_cycles s (total_cycles s + c)).
Proof. intros H. unfold add_cycles. now rewrite int_add_in. Qed.

Lemma block_transfer_cycles_defined s :
  0 <= block_size s <= INT_MAX -> fill_cost s <= INT_MAX ->
  block_transfer_cycles s = Some (fill_cost s).
Proof.
  intros Hbs Hf. unfold block_transfer_cycles, int_div, int_mul. simpl.
  pose proof (fill_cost_nonneg s (proj1 Hbs)) as Hnn. unfold fill_cost in *.
  assert (0 <= Z.quot (block_size s) 4 <= block_size s).
  { split; [apply Z.quot_pos; lia|]. apply Z.quot_le_upper_bound; lia. }
  rewrite int_of_in by (unfold INT_MIN, INT_MAX in *; lia). simpl.
  apply int_of_in. unfold INT_MIN, INT_MAX in *. lia.
Qed.

Lemma write_block_defined s k i b set :
  sets s !! k = Some set -> is_Some (blocks set !! i) ->
  write_block s k i b = Some (with_sets s (put_block (sets s) k i set b)).
Proof.
  intros Hk [old Hold]. unfold write_block. rewrite Hk. simpl.
  now rewrite Hold.
Qed.

Lemma install_block_defined s k i t set :
  sets s !! k = Some set -> is_Some (blocks set !! i) ->
  is_Some (install_block s k i t).
Proof.
  intros Hk Hi. unfold install_block.
  erewrite write_block_defined; eauto.
Qed.

Lemma touch_block_defined s k i set :
  sets s !! k = Some set -> is_Some (blocks set !! i) ->
  is_Some (touch_block s k i).
Proof.
  intros Hk [b Hb]. unfold touch_block. rewrite Hk. simpl. rewrite Hb. simpl.
  erewrite write_block_defined; eauto.
Qed.

Lemma select_victim_defined s set :
  length (blocks set) = ways s -> (0 < ways s)%nat ->
  exists v, select_victim s set = Some v /\ (v < ways s)%nat.
Proof.
  intros Hlen Hw.
  assert (Hsel : is_Some (select_victim s set)).
  { unfold select_victim.
    destruct (lookup_lt_is_Some_2 (blocks set) 0) as [b0 Hb0]; [lia|].
    destruct (lru_eviction s); rewrite Hb0; simpl;
      apply min_scan_defined; lia. }
  destruct Hsel as [v Hv]. exists v. split; [done|].
  eauto using select_victim_range.
Qed.

(** The room the [int] counters need for one more access. *)
Lemma room_facts s :
  room s ->
  0 <= fill_cost s /\ block_transfer_cycles s = Some (fill_cost s).
Proof.
  intros (Hbs & Hf & _). split; [apply fill_cost_nonneg; lia|].
  now apply block_transfer_cycles_defined.
Qed.

Lemma allocateBlock_defined s k t set :
  sets s !! k = Some set -> length (blocks set) = ways s -> (0 < ways s)%nat ->
  0 <= block_size s <= INT_MAX -> fill_cost s <= INT_MAX ->
  INT_MIN <= total_cycles s -> total_cycles s + fill_cost s <= INT_MAX ->
  is_Some (allocateBlock s k t).
Proof.
  intros Hk Hlen Hw Hbs Hf Hlo Hhi. unfold allocateBlock. rewrite Hk. simpl.
  destruct (find_invalid_defined (blocks set) (ways s) 0) as [r Hr]; [lia|].
  rewrite Hr. simpl. destruct r as [i|].
  - apply find_invalid_free in Hr. destruct Hr as (_ & b & Hb & _).
    eapply install_block_defined; eauto.
  - unfold evictBlock. rewrite Hk. simpl.
    destruct (select_victim_defined s set Hlen Hw) as (v & Hv & Hvw).
    rewrite Hv. simpl.
    destruct (lookup_lt_is_Some_2 (blocks set) v) as [victim Hvic]; [lia|].
    rewrite Hvic. simpl.
    pose proof (fill_cost_nonneg s (proj1 Hbs)) as Hnn.
    destruct (dirty victim && negb (write_through s)).
    + rewrite block_transfer_cycles_defined by done. simpl.
      rewrite add_cycles_defined by lia. simpl.
      eapply install_block_defined; [exact Hk|eauto].
    + simpl. eapply install_block_defined; eauto.
Qed.

Lemma processLoad_defined s set_index t set :
  sets s !! Z.to_nat set_index = Some set ->
  length (blocks set) = ways s -> (0 < ways s)%nat -> room s ->
  is_Some (processLoad s set_index t).
Proof.
  intros Hk Hlen Hw Hroom.
  destruct (room_facts s Hroom) as (Hnn & Hbt).
  destruct Hroom as (Hbs & Hf & Htl & _ & Hlh & Hlm & _ & _ & Hlo & Hhi).
  unfold processLoad. rewrite int_add_in by lia. simpl.
  rewrite add_cycles_defined by (settle; simpl; lia). simpl. rewrite Hk. simpl.
  settle.
  destruct (find_tag_defined (blocks set) t (ways s) 0) as [r Hr]; [lia|].
  rewrite Hr. simpl. destruct r as [i|].
  - rewrite int_add_in by lia. simpl.
    apply find_tag_hit in Hr. destruct Hr as (_ & (b & Hb & _) & _).
    eapply touch_block_defined; eauto.
  - rewrite int_add_in by lia. simpl.
    through block_transfer_cycles.
    rewrite Hbt. simpl. rewrite add_cycles_defined by (settle; simpl; lia). simpl.
    eapply allocateBlock_defined; eauto; settle; simpl; lia.
Qed.

Lemma processStore_defined s set_index t set :
  sets s !! Z.to_nat set_index = Some set ->
  length (blocks set) = ways s -> (0 < ways s)%nat -> room s ->
  is_Some (processStore s set_index t).
Proof.
  intros Hk Hlen Hw Hroom.
  destruct (room_facts s Hroom) as (Hnn & Hbt).
  destruct Hroom as (Hbs & Hf & _ & Hts & _ & _ & Hsh & Hsm & Hlo & Hhi).
  pose proof (lookup_lt_Some _ _ _ Hk) as Hklt.
  unfold processStore. rewrite int_add_in by lia. simpl.
  rewrite add_cycles_defined by (settle; simpl; lia). simpl. rewrite Hk. simpl.
  settle.
  destruct (find_tag_defined (blocks set) t (ways s) 0) as [r Hr]; [lia|].
  rewrite Hr. simpl. destruct r as [i|].
  - rewrite int_add_in by lia. simpl.
    apply find_tag_hit in Hr. destruct Hr as (Hi & (b & Hb & _) & _).
    destruct (touch_block_defined
                (with_store_hits
                   (with_total_cycles (with_total_stores s (total_stores s + 1))
                      (total_cycles s + 1)) (store_hits s + 1))
                (Z.to_nat set_index) i set Hk (ex_intro _ b Hb)) as [s2 Hs2].
    rewrite Hs2. simpl. apply touch_block_inv in Hs2.
    destruct Hs2 as (set' & b' & Hk' & Hb' & ->). simpl in *.
    destruct (write_through s); simpl.
    + rewrite add_cycles_defined by (settle; simpl; lia). eauto.
    + rewrite put_block_lookup_eq by done. simpl.
      rewrite list_lookup_insert_eq by eauto using lookup_lt_Some. simpl.
      erewrite write_block_defined; [eauto| |].
      * simpl. now apply put_block_lookup_eq.
      * simpl. rewrite list_lookup_insert_eq by eauto using lookup_lt_Some.
        eauto.
  - rewrite int_add_in by lia. simpl.
    destruct (write_allocate s) eqn:Hwa.
    + through block_transfer_cycles.
      rewrite Hbt. simpl. rewrite add_cycles_defined by (settle; simpl; lia). simpl.
      match goal with |- context [allocateBlock ?s1 ?k ?t] =>
        destruct (allocateBlock_defined s1 k t set) as [s3 Hs3];
          [done|done|done|simpl; lia|done|simpl; lia|settle; simpl; lia|]
      end.
      rewrite Hs3. simpl. apply allocateBlock_inv in Hs3.
      destruct Hs3 as (set' & i & wb & Hk' & Hch & [old Hold] & Hc & _ & Ht & _ & Hss).
      simpl in Hk'. assert (set' = set) as -> by congruence.
      apply alloc_choice_cost in Hch. settle.
      apply config_of_eq in Hc. destruct Hc as (_ & _ & _ & Hwt & _ & _ & _ & Hw3).
      rewrite Hwt. simpl in Hss, Ht.
      destruct (write_through s); simpl.
      * rewrite add_cycles_defined; [eauto|].
        rewrite Ht. destruct Hch as [->|(_ & ->)]; lia.
      * rewrite Hss, put_block_lookup_eq by done. simpl. rewrite Hw3.
        destruct (find_tag_defined
                    (<[i := installed s t]> (blocks set)) t (ways s) 0)
          as [r2 Hr2]; [rewrite length_insert; lia|].
        rewrite Hr2. simpl. destruct r2 as [j|]; [|eauto].
        apply find_tag_hit in Hr2. destruct Hr2 as (_ & (b2 & Hb2 & _) & _).
        rewrite Hb2. simpl.
        erewrite write_block_defined; [eauto| |].
        -- rewrite Hss. now apply put_block_lookup_eq.
        -- simpl. eauto.
    + rewrite add_cycles_defined by (settle; simpl; lia). eauto.
Qed.

(** An access has a next state whenever the shifts are defined, the set
    index is inside [sets], every set has its [num_blocks_per_set >= 1]
    blocks, and the [int] counters have room. *)
Theorem processAccess_defined s operation address :
  shifts_defined (set_bits s) (block_bits s) = true ->
  2 ^ set_bits s <= Z.of_nat (length (sets s)) ->
  well_sized s -> (0 < ways s)%nat -> room s ->
  is_Some (processAccess s operation address).
Proof.
  intros Hsh Hlen Hws Hw Hroom. unfold processAccess. rewrite Hsh.
  unfold shifts_defined in Hsh.
  apply andb_true_iff in Hsh. destruct Hsh as [Hsh _].
  apply andb_true_iff in Hsh. destruct Hsh as [Hsh Hs31].
  apply andb_true_iff in Hsh. destruct Hsh as [_ Hs0].
  apply Z.leb_le in Hs0. apply Z.ltb_lt in Hs31.
  pose proof (set_index_of_range address (set_bits s) (block_bits s)) as Hr.
  destruct (lookup_lt_is_Some_2 (sets s)
              (Z.to_nat (set_index_of address (set_bits s) (block_bits s))))
    as [set Hset]; [lia|].
  destruct (Ascii.eqb operation "l").
  - eapply processLoad_defined; eauto.
  - eapply processStore_defined; eauto.
Qed.

(** The victim does not depend on the eviction policy: the two branches of
    [evictBlock] run the same scan. *)
Lemma select_victim_policy_blind s set :
  select_victim (mkCacheSimulator (num_sets s) (num_blocks_per_set s)
                   (block_size s) (write_allocate s) (write_through s)
                   (negb (lru_eviction s)) (sets s) (global_counter s)
                   (total_loads s) (total_stores s) (load_hits s)
                   (load_misses s) (store_hits s) (store_misses s)
                   (total_cycles s) (set_bits s) (block_bits s) (tag_bits s))
    set
  = select_victim s set.
Proof. unfold select_victim, ways. simpl. now destruct (lru_eviction s). Qed.

(** X17. From a constructor call with at least one block per set, on a
    geometry whose shifts are defined, every state a trace reaches has a
    next state for every access, as long as the [int] counters have room:
    no index leaves its vector and no [int] overflows. *)
Theorem reachable_access_defined
    nsets blocks_per_set bytes_per_block write_alloc write_thru lru
    s0 trace s operation address :
  new_CacheSimulator nsets blocks_per_set bytes_per_block
    write_alloc write_thru lru = Some s0 ->
  1 <= blocks_per_set ->
  shifts_defined (Z.log2 nsets) (Z.log2 bytes_per_block) = true ->
  run_trace s0 trace = Some s ->
  room s ->
  is_Some (processAccess s operation address).
Proof.
  intros Hnew Hbps Hsh Hrun Hroom.
  destruct (new_CacheSimulator_inv _ _ _ _ _ _ _ Hnew)
    as (_ & Hns & _ & Hc & Hs0 & _).
  assert (Hinv : well_sized s /\ config_of s = config_of s0 /\
                 length (sets s) = length (sets s0)).
  { apply (run_trace_invariant
             (fun s => well_sized s /\ config_of s = config_of s0 /\
                       length (sets s) = length (sets s0)))
      with (trace := trace) (s := s0); [| |done].
    - intros s1 op a s2 (Hws & Hc1 & Hl1) H12.
      split; [eauto using step_well_sized|].
      apply access_sets in H12. destruct H12 as (Hc2 & H12).
      split; [congruence|]. rewrite <- Hl1.
      destruct H12 as [->|(k & set & i & b & b' & _ & _ & -> & _)];
        [done|apply put_block_length].
    - split; [eauto using new_well_sized|]. split; reflexivity. }
  destruct Hinv as (Hws & Hcs & Hlen).
  rewrite Hc in Hcs. injection Hcs as _ Hbp _ _ _ _ Hsb Hbb _.
  apply processAccess_defined; try done.
  - now rewrite Hsb, Hbb.
  - rewrite Hsb, Hlen, Hs0, length_replicate, Z2Nat.id by lia.
    apply Z.log2_spec. lia.
  - unfold ways. rewrite Hbp. lia.
Qed.

(** * Properties of the simulator *)

(** ** Address decomposition *)

(** C5. For every 32-bit address and every geometry with
    [sbits + bbits <= 32], the tag and the set index that [processAccess]
    computes, together with the block offset [address & (2^bbits - 1)],
    reassemble to the address:
    [(tag << (sbits+bbits)) | (set_index << bbits) | offset = address]. *)
Theorem decompose_reassemble address sbits bbits :
  0 <= address < 2 ^ 32 -> 0 <= sbits -> 0 <= bbits -> sbits + bbits <= 32 ->
  Z.lor (Z.lor (Z.shiftl (tag_of address sbits bbits) (sbits + bbits))
               (Z.shiftl (set_index_of address sbits bbits) bbits))
        (Z.land address (2 ^ bbits - 1))
  = address.
Proof.
  intros Ha Hs Hb Hsb. unfold tag_of, set_index_of.
  rewrite set_mask_ones by lia.
  replace (2 ^ bbits - 1) with (Z.ones bbits) by (rewrite Z.ones_equiv; lia).
  apply Z.bits_inj'. intros n Hn.
  rewrite !Z.lor_spec, !Z.shiftl_spec, !Z.land_spec by lia.
  rewrite (Z.testbit_ones_nonneg bbits n) by lia.
  destruct (Z.ltb_spec n bbits) as [Hlt|Hge].
  - rewrite (Z.testbit_neg_r _ (n - (sbits + bbits))) by lia.
    rewrite (Z.testbit_neg_r _ (n - bbits)) by lia.
    simpl. now rewrite andb_true_r.
  - rewrite andb_false_r, orb_false_r.
    rewrite (Z.shiftr_spec address bbits) by lia.
    rewrite (Z.testbit_ones_nonneg sbits (n - bbits)) by lia.
    replace (n - bbits + bbits) with n by lia.
    destruct (Z.ltb_spec (n - bbits) sbits) as [Hlt2|Hge2].
    + rewrite (Z.testbit_neg_r _ (n - (sbits + bbits))) by lia.
      simpl. now rewrite andb_true_r.
    + rewrite andb_false_r, orb_false_r.
      rewrite Z.shiftr_spec by lia. f_equal. lia.
Qed.

(** At the geometry of the end-to-end scenario (4 sets, 16-byte blocks),
    address 0x12345678 splits into tag 0x48d159, set index 3 and offset 8,
    and reassembles. *)
Lemma decompose_reassemble_witness :
  (0 <= 305419896 < 2 ^ 32 /\ 0 <= 2 /\ 0 <= 4 /\ 2 + 4 <= 32) /\
  (tag_of 305419896 2 4 = 4772185 /\ set_index_of 305419896 2 4 = 3) /\
  Z.lor (Z.lor (Z.shiftl (tag_of 305419896 2 4) (2 + 4))
               (Z.shiftl (set_index_of 305419896 2 4) 4))
        (Z.land 305419896 (2 ^ 4 - 1))
  = 305419896.
Proof.
  split; [lia|]. split; [split; reflexivity|].
  apply (decompose_reassemble 305419896 2 4); lia.
Defined.

(** ** The end-to-end scenario *)

(** C3. With 4 sets, 1 block per set and 16-byte blocks, whatever the write
    and eviction policies, the trace load 0x00, load 0x40, load 0x00 from
    the empty cache gives 3 loads, 0 load hits, 3 load misses and 1203
    cycles; both addresses fall in set 0, with tags 0 and 1.  The two
    addresses evict each other: the cache starts with no valid block; the
    first load (a miss, 401 cycles) installs 0x00, so that set 0 holds the
    valid clean tag 0 and a scan finds 0x00 but not 0x40; the second load (a
    miss, 401 cycles) replaces it by 0x40, so that set 0 holds tag 1 and a
    scan finds 0x40 but no longer 0x00; the third load (again a miss, 401
    cycles) brings 0x00 back and 0x40 is gone.  Sets 1 to 3 stay empty. *)
Theorem scenario_mutual_eviction (write_alloc write_thru lru : bool) :
  simulate 4 1 16 write_alloc write_thru lru [load 0; load 64; load 0]
    = Some (3, 0, 0, 3, 0, 0, 1203) /\
  set_index_of 0 2 4 = 0 /\ set_index_of 64 2 4 = 0 /\
  tag_of 0 2 4 = 0 /\ tag_of 64 2 4 = 1 /\
  observe 4 1 16 write_alloc write_thru lru [] [0; 64]
    = Some ((0, 0, 0, 0, 0, 0, 0),
            [[(false, false, 0)]; [(false, false, 0)];
             [(false, false, 0)]; [(false, false, 0)]],
            [Some None; Some None]) /\
  observe 4 1 16 write_alloc write_thru lru [load 0] [0; 64]
    = Some ((1, 0, 0, 1, 0, 0, 401),
            [[(true, false, 0)]; [(false, false, 0)];
             [(false, false, 0)]; [(false, false, 0)]],
            [Some (Some 0%nat); Some None]) /\
  observe 4 1 16 write_alloc write_thru lru [load 0; load 64] [0; 64]
    = Some ((2, 0, 0, 2, 0, 0, 802),
            [[(true, false, 1)]; [(false, false, 0)];
             [(false, false, 0)]; [(false, false, 0)]],
            [Some None; Some (Some 0%nat)]) /\
  observe 4 1 16 write_alloc write_thru lru [load 0; load 64; load 0] [0; 64]
    = Some ((3, 0, 0, 3, 0, 0, 1203),
            [[(true, false, 0)]; [(false, false, 0)];
             [(false, false, 0)]; [(false, false, 0)]],
            [Some (Some 0%nat); Some None]).
Proof.
  destruct write_alloc, write_thru, lru; vm_compute; repeat split; reflexivity.
Qed.

(** ** Victim selection under FIFO *)

(** C1. Under FIFO the code selects by the stamp that hits refresh.  After
    loads of 0x0 then 0x4 fill the two slots (tags 0 and 1), the victim is
    slot 0, the block installed first.  A hit on 0x0 moves the victim to
    slot 1, and a following load of 0x8 evicts tag 1, the block installed
    last, keeping tag 0. *)
Theorem fifo_victim_moves_on_hit :
  fifo_victim_after [load 0; load 4] = Some 0%nat /\
  simulate 1 2 4 true true false [load 0; load 4; load 0]
    = Some (3, 0, 1, 2, 0, 0, 203) /\
  fifo_victim_after [load 0; load 4; load 0] = Some 1%nat /\
  fifo_tags_after [load 0; load 4; load 0] = Some [0; 1] /\
  fifo_tags_after [load 0; load 4; load 0; load 8] = Some [0; 2].
Proof. vm_compute. repeat split; reflexivity. Qed.

(** ** Store miss without write-allocate *)

(** C6. Under [write_allocate = false], a store that misses costs exactly
    101 cycles and changes nothing but [total_stores], [store_misses] and
    [total_cycles]: the cache store (every block of every set), the global
    counter, the configuration and the other counters are as before. *)
Theorem store_miss_write_around s operation address s' :
  write_allocate s = false ->
  is_load operation = false ->
  probe s address = Some None ->
  processAccess s operation address = Some s' ->
  sets s' = sets s /\
  global_counter s' = global_counter s /\
  config_of s' = config_of s /\
  total_cycles s' = total_cycles s + 101 /\
  total_stores s' = total_stores s + 1 /\
  store_misses s' = store_misses s + 1 /\
  total_loads s' = total_loads s /\ load_hits s' = load_hits s /\
  load_misses s' = load_misses s /\ store_hits s' = store_hits s.
Proof.
  intros Hwa Hop Hmiss H. apply processAccess_inv in H.
  destruct H as [_ H]. simpl in H. rewrite Hop in H.
  apply processStore_inv in H. destruct H as (Hc & H).
  unfold probe in Hmiss.
  destruct H as [set i b Hs Hf _ _ _ _ _
                |set i wb b' Hwa' _ _ _ _ _ _ _ _ _
                |set _ Hs Hf Hn Ht Hg Hss].
  - rewrite Hs in Hmiss. simpl in Hmiss. congruence.
  - congruence.
  - injection Hn as Hn1 Hn2 Hn3 Hn4 Hn5 Hn6.
    repeat split; try done. lia.
Qed.

(** On the empty cache of the scenario geometry, write-through and
    no-write-allocate, a store to 0x40 is such a miss. *)
Lemma store_miss_write_around_witness :
  exists s s',
    new_CacheSimulator 4 1 16 false true true = Some s /\
    (write_allocate s = false /\ is_load "s" = false /\
     probe s 64 = Some None /\ processAccess s "s" 64 = Some s') /\
    sets s' = sets s /\ total_cycles s' = total_cycles s + 101.
Proof.
  destruct (new_CacheSimulator 4 1 16 false true true) as [s|] eqn:Es;
    [|discriminate].
  destruct (processAccess s "s" 64) as [s'|] eqn:Es';
    [|vm_compute in Es; injection Es as <-; vm_compute in Es'; discriminate Es'].
  exists s, s'. split; [reflexivity|].
  assert (Hwa : write_allocate s = false)
    by (vm_compute in Es; some_inv; reflexivity).
  assert (Hp : probe s 64 = Some None)
    by (vm_compute in Es; some_inv; reflexivity).
  split; [repeat split; done|].
  pose proof (store_miss_write_around s "s" 64 s' Hwa eq_refl Hp Es') as H.
  split; [apply H|]. apply H.
Defined.

(** ** Statistics *)

Lemma step_stats_consistent s operation address s' :
  stats_consistent s -> processAccess s operation address = Some s' ->
  stats_consistent s'.
Proof.
  intros [Hl Hs] H. apply step_stats in H.
  destruct H as (r & wb & _ & Hn & _). unfold counts_after in Hn.
  unfold stats_consistent.
  destruct (is_load operation), r; injection Hn as -> -> -> -> -> ->;
    simpl; lia.
Qed.

Lemma step_stats_le s operation address s' :
  0 <= block_size s -> processAccess s operation address = Some s' ->
  stats_le s s'.
Proof.
  intros Hbs H. apply step_stats in H.
  destruct H as (r & wb & _ & Hn & Ht & Hwb).
  pose proof (fill_cost_nonneg s Hbs). pose proof (through_cost_nonneg s).
  assert (0 <= wb) by (destruct Hwb as [->|(_ & -> & _)]; lia).
  assert (0 <= base_cost s (is_load operation) r).
  { unfold base_cost.
    destruct r, (is_load operation), (write_allocate s); lia. }
  unfold counts_after in Hn. unfold stats_le.
  destruct (is_load operation), r; injection Hn as -> -> -> -> -> ->;
    simpl; lia.
Qed.

(** C4. In every state a trace reaches from the constructor, and after
    every further access, [total_loads = load_hits + load_misses] and
    [total_stores = store_hits + store_misses]; and no access lowers any
    of the seven counters. *)
Theorem statistics_invariant
    nsets blocks_per_set bytes_per_block write_alloc write_thru lru
    s0 trace s operation address s' :
  new_CacheSimulator nsets blocks_per_set bytes_per_block
    write_alloc write_thru lru = Some s0 ->
  run_trace s0 trace = Some s ->
  processAccess s operation address = Some s' ->
  stats_consistent s /\ stats_consistent s' /\ stats_le s s'.
Proof.
  intros Hnew Hrun Hstep.
  destruct (new_CacheSimulator_inv _ _ _ _ _ _ _ Hnew)
    as (_ & _ & Hbs & Hc & _ & _ & Hn & _).
  assert (Hinv : stats_consistent s /\ 0 <= block_size s).
  { apply (run_trace_invariant
             (fun s => stats_consistent s /\ 0 <= block_size s))
      with (trace := trace) (s := s0); [|split|done].
    - intros s1 op a s2 [Hcons Hpos] H12. split.
      + eauto using step_stats_consistent.
      + apply step_config, config_of_eq in H12.
        destruct H12 as (_ & -> & _). done.
    - injection Hn as Hn1 Hn2 Hn3 Hn4 Hn5 Hn6. unfold stats_consistent. lia.
    - injection Hc as _ _ -> _. lia. }
  destruct Hinv as [Hcons Hpos].
  eauto using step_stats_consistent, step_stats_le.
Qed.

(** A store then a load on the scenario cache. *)
Lemma statistics_invariant_witness :
  exists s0 s s',
    (new_CacheSimulator 4 1 16 true false true = Some s0 /\
     run_trace s0 [store 0] = Some s /\
     processAccess s "l" 64 = Some s') /\
    stats_consistent s /\ stats_consistent s' /\ stats_le s s'.
Proof.
  destruct (new_CacheSimulator 4 1 16 true false true) as [s0|] eqn:E0;
    [|discriminate].
  destruct (run_trace s0 [store 0]) as [s|] eqn:E1;
    [|vm_compute in E0; injection E0 as <-; vm_compute in E1; discriminate E1].
  destruct (processAccess s "l" 64) as [s'|] eqn:E2;
    [|vm_compute in E0; injection E0 as <-; vm_compute in E1; injection E1 as <-;
      vm_compute in E2; discriminate E2].
  exists s0, s, s'. split; [repeat split; done|].
  exact (statistics_invariant _ _ _ _ _ _ s0 [store 0] s "l" 64 s' E0 E1 E2).
Defined.

(** ** Allocation into a full set *)

(** C7. When every block of the set is valid, [allocateBlock] picks one
    victim slot [v] (the choice of [select_victim]), charges
    [100 * (block_size / 4)] cycles exactly when the victim is dirty and
    the cache is write-back, and leaves in slot [v] a valid, clean block
    with the new tag whose stamp is the incremented global counter; the
    other slots of the set and the other sets are untouched. *)
Theorem allocate_full_set s k t set s' :
  sets s !! k = Some set ->
  (forall i b, blocks set !! i = Some b -> valid b = true) ->
  allocateBlock s k t = Some s' ->
  exists v victim,
    select_victim s set = Some v /\ blocks set !! v = Some victim /\
    total_cycles s' = total_cycles s +
      (if dirty victim && negb (write_through s)
       then 100 * Z.quot (block_size s) 4 else 0) /\
    global_counter s' = uint (global_counter s + 1) /\
    (exists set',
       sets s' !! k = Some set' /\
       blocks set' !! v = Some {| valid := true; dirty := false; tag := t;
                                  lru_count := global_counter s' |} /\
       forall j, j <> v -> blocks set' !! j = blocks set !! j) /\
    (forall k', k' <> k -> sets s' !! k' = sets s !! k').
Proof.
  intros Hk Hfull H. apply allocateBlock_inv in H.
  destruct H as (set0 & i & wb & Hk0 & Hch & _ & _ & _ & Ht & Hg & Hss).
  assert (set0 = set) as -> by congruence.
  destruct Hch as [j Hf|v victim Hf Hv Hb].
  - apply find_invalid_free in Hf. destruct Hf as (_ & b & Hb & Hinv).
    rewrite (Hfull _ _ Hb) in Hinv. discriminate.
  - exists v, victim. split; [done|]. split; [done|]. split; [exact Ht|].
    split; [done|]. split.
    + eexists. split.
      { rewrite Hss. apply put_block_lookup_eq. eauto using lookup_lt_Some. }
      simpl. split.
      * rewrite Hg. apply list_lookup_insert_eq. eauto using lookup_lt_Some.
      * intros j Hj. now apply list_lookup_insert_ne.
    + intros k' Hk'. rewrite Hss. now apply put_block_lookup_ne.
Qed.

(** A one-way write-back cache whose only block was dirtied by a store:
    allocating another tag evicts it and pays the write-back. *)
Lemma allocate_full_set_witness :
  exists s set s',
    (s0 ← new_CacheSimulator 1 1 4 true false true; run_trace s0 [store 0])
      = Some s /\
    (sets s !! 0%nat = Some set /\
     (forall i b, blocks set !! i = Some b -> valid b = true) /\
     allocateBlock s 0 1 = Some s') /\
    exists v victim,
      select_victim s set = Some v /\ blocks set !! v = Some victim /\
      total_cycles s' = total_cycles s +
        (if dirty victim && negb (write_through s)
         then 100 * Z.quot (block_size s) 4 else 0) /\
      global_counter s' = uint (global_counter s + 1) /\
      (exists set',
         sets s' !! 0%nat = Some set' /\
         blocks set' !! v = Some {| valid := true; dirty := false; tag := 1;
                                    lru_count := global_counter s' |} /\
         forall j, j <> v -> blocks set' !! j = blocks set !! j) /\
      (forall k', k' <> 0%nat -> sets s' !! k' = sets s !! k').
Proof.
  destruct (s0 ← new_CacheSimulator 1 1 4 true false true;
            run_trace s0 [store 0]) as [s|] eqn:Es; [|discriminate].
  destruct (sets s !! 0%nat) as [set|] eqn:Eset;
    [|vm_compute in Es; injection Es as <-; vm_compute in Eset;
      discriminate Eset].
  destruct (allocateBlock s 0 1) as [s'|] eqn:Es';
    [|vm_compute in Es; injection Es as <-; vm_compute in Es';
      discriminate Es'].
  exists s, set, s'. split; [reflexivity|].
  assert (Hfull : forall i b, blocks set !! i = Some b -> valid b = true).
  { vm_compute in Es. injection Es as <-.
    vm_compute in Eset. injection Eset as <-.
    intros [|i] b Hb; simpl in Hb; [now some_inv|discriminate]. }
  split; [repeat split; done|].
  exact (allocate_full_set _ 0%nat 1 set s' Eset Hfull Es').
Defined.

(** ** A miss followed by the same address *)

(** C2 as first stated (any miss is followed by a hit) fails for stores
    under no-write-allocate, which install nothing: on the empty
    write-through cache of the scenario geometry, two stores to 0x0 in a
    row are two misses. *)
Lemma repeated_store_misses_write_around :
  (s0 ← new_CacheSimulator 4 1 16 false true true;
   s1 ← processAccess s0 "s" 0;
   s2 ← processAccess s1 "s" 0;
   Some (probe s0 0, statistics s1, probe s1 0, statistics s2))
  = Some (Some None, (0, 1, 0, 0, 0, 1, 101),
          Some None, (0, 2, 0, 0, 0, 2, 202)).
Proof. vm_compute. reflexivity. Qed.

(** After a miss that allocates, a scan for the same address hits. *)
Lemma probe_after_allocation s address s1 k i set b' :
  well_sized s ->
  config_of s1 = config_of s ->
  k = Z.to_nat (set_index_of address (set_bits s) (block_bits s)) ->
  sets s !! k = Some set ->
  is_Some (blocks set !! i) ->
  matches (tag_of address (set_bits s) (block_bits s)) b' = true ->
  sets s1 = put_block (sets s) k i set b' ->
  exists j, probe s1 address = Some (Some j).
Proof.
  intros Hws Hc -> Hk [old Hold] Hm Hss. unfold probe.
  apply config_of_eq in Hc. destruct Hc as (_ & _ & _ & _ & _ & -> & -> & ->).
  rewrite Hss, put_block_lookup_eq by eauto using lookup_lt_Some. simpl.
  pose proof (lookup_lt_Some _ _ _ Hold) as Hi.
  pose proof (Hws _ _ Hk) as Hlen.
  eapply (find_tag_finds _ _ _ _ i b'); [| |apply list_lookup_insert_eq|];
    rewrite ?length_insert; try done; lia.
Qed.

(** C2, amended. If a load misses, or a store misses under write-allocate,
    then the scan for the same address in the next state hits, and any
    access to that address made next counts one hit and no miss. *)
Theorem miss_then_hit s operation address s1 :
  well_sized s ->
  probe s address = Some None ->
  is_load operation = true \/ write_allocate s = true ->
  processAccess s operation address = Some s1 ->
  (exists i, probe s1 address = Some (Some i)) /\
  forall operation2 s2,
    processAccess s1 operation2 address = Some s2 ->
    load_hits s2 + store_hits s2 = load_hits s1 + store_hits s1 + 1 /\
    load_misses s2 = load_misses s1 /\ store_misses s2 = store_misses s1.
Proof.
  intros Hws Hmiss Hpol H.
  assert (Hhit : exists i, probe s1 address = Some (Some i)).
  { apply processAccess_inv in H. destruct H as [_ H]. simpl in H.
    unfold probe in Hmiss.
    destruct (is_load operation) eqn:Eop.
    - apply processLoad_inv in H. destruct H as (Hc & _ & H).
      destruct H as [set i b Hs Hf _ _ _ _|set i wb Hs Hf Hch Hb _ _ Hss].
      + rewrite Hs in Hmiss. simpl in Hmiss. congruence.
      + eapply probe_after_allocation; eauto. now apply matches_true.
    - destruct Hpol as [?|Hwa]; [discriminate|].
      apply processStore_inv in H. destruct H as (Hc & H).
      destruct H as [set i b Hs Hf _ _ _ _ _
                    |set i wb b' _ Hs Hf Hch Hb Hb' _ _ _ Hss
                    |set Hwa' _ _ _ _ _ _].
      + rewrite Hs in Hmiss. simpl in Hmiss. congruence.
      + eapply probe_after_allocation; eauto. apply matches_true.
        destruct Hb' as [->|[_ ->]]; unfold store_installed;
          destruct (write_through s); done.
      + congruence. }
  split; [exact Hhit|]. destruct Hhit as [i Hi].
  intros operation2 s2 H2. apply step_stats in H2.
  destruct H2 as (r & wb & Hr & Hn & _). rewrite Hi in Hr. some_inv.
  unfold counts_after in Hn.
  destruct (is_load operation2); injection Hn as _ _ Hlh Hlm Hsh Hsm;
    simpl in *; lia.
Qed.

(** A load of 0x40 on the empty scenario cache misses; the next load of
    0x40 hits. *)
Lemma miss_then_hit_witness :
  exists s s1,
    new_CacheSimulator 4 1 16 true false true = Some s /\
    (well_sized s /\ probe s 64 = Some None /\
     (is_load "l" = true \/ write_allocate s = true) /\
     processAccess s "l" 64 = Some s1) /\
    (exists i, probe s1 64 = Some (Some i)) /\
    forall operation2 s2,
      processAccess s1 operation2 64 = Some s2 ->
      load_hits s2 + store_hits s2 = load_hits s1 + store_hits s1 + 1 /\
      load_misses s2 = load_misses s1 /\ store_misses s2 = store_misses s1.
Proof.
  destruct (new_CacheSimulator 4 1 16 true false true) as [s|] eqn:Es;
    [|discriminate].
  destruct (processAccess s "l" 64) as [s1|] eqn:Es1;
    [|vm_compute in Es; injection Es as <-; vm_compute in Es1;
      discriminate Es1].
  exists s, s1. split; [reflexivity|].
  assert (Hws : well_sized s) by (eapply new_well_sized; eauto).
  assert (Hp : probe s 64 = Some None)
    by (vm_compute in Es; injection Es as <-; reflexivity).
  split; [repeat split; auto|].
  exact (miss_then_hit s "l" 64 s1 Hws Hp (or_introl eq_refl) Es1).
Defined.

(** ** Invariants of the cache store *)

(** C8. In every state a trace reaches from the constructor, each set
    holds at most [num_blocks_per_set] valid blocks, and two valid blocks
    of one set with the same tag are the same slot. *)
Theorem sets_invariant
    nsets blocks_per_set bytes_per_block write_alloc write_thru lru
    s0 trace s :
  new_CacheSimulator nsets blocks_per_set bytes_per_block
    write_alloc write_thru lru = Some s0 ->
  run_trace s0 trace = Some s ->
  forall k set, sets s !! k = Some set ->
    Z.of_nat (count_valid (blocks set)) <= num_blocks_per_set s /\
    forall i j bi bj,
      blocks set !! i = Some bi -> blocks set !! j = Some bj ->
      valid bi = true -> valid bj = true -> tag bi = tag bj -> i = j.
Proof.
  intros Hnew Hrun.
  destruct (new_CacheSimulator_inv _ _ _ _ _ _ _ Hnew)
    as (Hpos & _ & _ & Hc & _).
  assert (Hinv : well_sized s /\ distinct_tags s /\
                 0 <= num_blocks_per_set s).
  { apply (run_trace_invariant
             (fun s => well_sized s /\ distinct_tags s /\
                       0 <= num_blocks_per_set s))
      with (trace := trace) (s := s0); [| |done].
    - intros s1 op a s2 (Hws & Hdt & Hn) H12.
      split; [eauto using step_well_sized|].
      split; [eauto using step_distinct_tags|].
      apply step_config, config_of_eq in H12. destruct H12 as (-> & _). done.
    - split; [eauto using new_well_sized|].
      split; [eauto using new_distinct_tags|].
      injection Hc as _ -> _. done. }
  destruct Hinv as (Hws & Hdt & Hn). intros k set Hk. split.
  - pose proof (count_valid_le_length (blocks set)) as Hle.
    rewrite (Hws _ _ Hk) in Hle. unfold ways in Hle. lia.
  - intros i j bi bj. eapply Hdt; eauto.
Qed.

(** Two loads that share set 0 of a two-way cache. *)
Lemma sets_invariant_witness :
  exists s0 s,
    (new_CacheSimulator 4 2 16 true false true = Some s0 /\
     run_trace s0 [load 0; load 64; store 0] = Some s) /\
    forall k set, sets s !! k = Some set ->
      Z.of_nat (count_valid (blocks set)) <= num_blocks_per_set s /\
      forall i j bi bj,
        blocks set !! i = Some bi -> blocks set !! j = Some bj ->
        valid bi = true -> valid bj = true -> tag bi = tag bj -> i = j.
Proof.
  destruct (new_CacheSimulator 4 2 16 true false true) as [s0|] eqn:E0;
    [|discriminate].
  destruct (run_trace s0 [load 0; load 64; store 0]) as [s|] eqn:E1;
    [|vm_compute in E0; injection E0 as <-; vm_compute in E1; discriminate E1].
  exists s0, s. split; [split; done|].
  exact (sets_invariant _ _ _ _ _ _ s0 _ s E0 E1).
Defined.

(** C9. Under write-through, in every state a trace reaches from the
    constructor no block is dirty, and every further access costs its base
    cycles only: nothing is charged for writing a victim back. *)
Theorem write_through_never_dirty
    nsets blocks_per_set bytes_per_block write_alloc lru s0 trace s :
  new_CacheSimulator nsets blocks_per_set bytes_per_block
    write_alloc true lru = Some s0 ->
  run_trace s0 trace = Some s ->
  (forall k set i b,
     sets s !! k = Some set -> blocks set !! i = Some b -> dirty b = false) /\
  (forall operation address s',
     processAccess s operation address = Some s' ->
     exists r, probe s address = Some r /\
       total_cycles s' = total_cycles s + base_cost s (is_load operation) r).
Proof.
  intros Hnew Hrun.
  destruct (new_CacheSimulator_inv _ _ _ _ _ _ _ Hnew) as (_ & _ & _ & Hc & _).
  assert (Hinv : write_through s = true /\ all_clean s).
  { apply (run_trace_invariant
             (fun s => write_through s = true /\ all_clean s))
      with (trace := trace) (s := s0); [| |done].
    - intros s1 op a s2 (Hwt & Hcl) H12.
      split; [|eauto using step_all_clean].
      apply step_config, config_of_eq in H12.
      destruct H12 as (_ & _ & _ & -> & _). done.
    - split; [|eauto using new_all_clean]. injection Hc as _ _ _ _ -> _.
      reflexivity. }
  destruct Hinv as (Hwt & Hcl). split; [exact Hcl|].
  intros operation address s' H. apply step_stats in H.
  destruct H as (r & wb & Hr & _ & Ht & Hwb). exists r. split; [done|].
  destruct Hwb as [->|(Hf & _)]; [lia|congruence].
Qed.

(** Stores under write-through and write-allocate on a one-way cache. *)
Lemma write_through_never_dirty_witness :
  exists s0 s,
    (new_CacheSimulator 1 1 4 true true true = Some s0 /\
     run_trace s0 [store 0; store 4; store 4] = Some s) /\
    (forall k set i b,
       sets s !! k = Some set -> blocks set !! i = Some b ->
       dirty b = false) /\
    (forall operation address s',
       processAccess s operation address = Some s' ->
       exists r, probe s address = Some r /\
         total_cycles s' = total_cycles s + base_cost s (is_load operation) r).
Proof.
  destruct (new_CacheSimulator 1 1 4 true true true) as [s0|] eqn:E0;
    [|discriminate].
  destruct (run_trace s0 [store 0; store 4; store 4]) as [s|] eqn:E1;
    [|vm_compute in E0; injection E0 as <-; vm_compute in E1; discriminate E1].
  exists s0, s. split; [split; done|].
  exact (write_through_never_dirty _ _ _ _ _ s0 _ s E0 E1).
Defined.

(** C10. Along any trace, a slot that is valid stays valid, so the number
    of valid blocks of each set never decreases. *)
Theorem valid_blocks_persist s trace s' :
  run_trace s trace = Some s' ->
  forall k set, sets s !! k = Some set ->
    exists set', sets s' !! k = Some set' /\
      (forall i b, blocks set !! i = Some b -> valid b = true ->
         exists b', blocks set' !! i = Some b' /\ valid b' = true) /\
      (count_valid (blocks set) <= count_valid (blocks set'))%nat.
Proof.
  revert s. induction trace as [|[operation address] rest IH];
    intros s H; simpl in H.
  - some_inv. apply valid_kept_refl.
  - unbind H as s1 Hs1.
    apply (valid_kept_trans _ (sets s1)); [|exact (IH _ H)].
    eauto using step_valid_kept.
Qed.

(** A conflict in a one-way cache: the slot is overwritten in place. *)
Lemma valid_blocks_persist_witness :
  exists s s',
    (s0 ← new_CacheSimulator 1 1 4 true false true; run_trace s0 [load 0])
      = Some s /\
    run_trace s [load 4; store 8] = Some s' /\
    forall k set, sets s !! k = Some set ->
      exists set', sets s' !! k = Some set' /\
        (forall i b, blocks set !! i = Some b -> valid b = true ->
           exists b', blocks set' !! i = Some b' /\ valid b' = true) /\
        (count_valid (blocks set) <= count_valid (blocks set'))%nat.
Proof.
  destruct (s0 ← new_CacheSimulator 1 1 4 true false true;
            run_trace s0 [load 0]) as [s|] eqn:E0; [|discriminate].
  destruct (run_trace s [load 4; store 8]) as [s'|] eqn:E1;
    [|vm_compute in E0; injection E0 as <-; vm_compute in E1; discriminate E1].
  exists s, s'. split; [reflexivity|]. split; [exact E1|].
  exact (valid_blocks_persist s _ s' E1).
Defined.

(** * Further properties of the simulator and of [main] *)

(** ** More about one access *)

(** One access in full: which set, which slot, which block. *)
Lemma access_at s operation address s' :
  processAccess s operation address = Some s' ->
  let k := Z.to_nat (set_index_of address (set_bits s) (block_bits s)) in
  let t := tag_of address (set_bits s) (block_bits s) in
  config_of s' = config_of s /\
  ((sets s' = sets s /\ global_counter s' = global_counter s /\
    probe s address = Some None /\ write_allocate s = false /\
    is_load operation = false) \/
   exists set i b b',
     sets s !! k = Some set /\ blocks set !! i = Some b /\
     sets s' = put_block (sets s) k i set b' /\
     global_counter s' = uint (global_counter s + 1) /\
     valid b' = true /\ tag b' = t /\
     lru_count b' = uint (global_counter s + 1) /\
     (find_tag (blocks set) t 0 (ways s) = Some (Some i) \/
      (find_tag (blocks set) t 0 (ways s) = Some None /\
       (is_load operation = true \/ write_allocate s = true) /\
       exists wb, alloc_choice s set i wb))).
Proof.
  intros H. apply processAccess_inv in H. destruct H as [_ H]. simpl in H.
  simpl. unfold probe. destruct (is_load operation) eqn:Eop.
  - apply processLoad_inv in H. destruct H as (Hc & Hg & H). split; [done|].
    right.
    destruct H as [set i b Hs Hf Hb _ _ Hss|set i wb Hs Hf Hch [b Hb] _ _ Hss];
      eexists set, i, b, _;
      (split; [exact Hs|]); (split; [exact Hb|]); (split; [exact Hss|]);
      (split; [exact Hg|]).
    + destruct (hit_valid_tag _ _ _ _ _ Hf Hb) as (Hv & Ht & _).
      simpl. repeat split; auto.
    + simpl. split; [done|]. split; [done|]. split; [done|]. right.
      split; [done|]. split; [now left|eauto].
  - apply processStore_inv in H. destruct H as (Hc & H). split; [done|].
    destruct H as [set i b Hs Hf Hb _ _ Hg Hss
                  |set i wb b' Hwa Hs Hf Hch [b Hb] Hb' _ _ Hg Hss
                  |set Hwa Hs Hf _ _ Hg Hss].
    + right. eexists set, i, b, _.
      (split; [exact Hs|]); (split; [exact Hb|]); (split; [exact Hss|]);
      (split; [exact Hg|]).
      destruct (hit_valid_tag _ _ _ _ _ Hf Hb) as (Hv & Ht & _).
      unfold store_hit_block. destruct (write_through s); simpl;
        repeat split; auto.
    + right. eexists set, i, b, b'.
      (split; [exact Hs|]); (split; [exact Hb|]); (split; [exact Hss|]);
      (split; [exact Hg|]).
      assert (valid b' = true /\
              tag b' = tag_of address (set_bits s) (block_bits s) /\
              lru_count b' = uint (global_counter s + 1)) as (Hv & Ht & Hl).
      { destruct Hb' as [->|[_ ->]]; unfold store_installed;
          destruct (write_through s); simpl; auto. }
      split; [done|]. split; [done|]. split; [done|]. right.
      split; [done|]. split; [now right|eauto].
    + left. rewrite Hs. simpl. repeat split; auto.
Qed.

(** Sets other than the one put into are as before. *)
Lemma put_block_blocks_length ss k i set b k' set' :
  ss !! k = Some set ->
  put_block ss k i set b !! k' = Some set' ->
  exists set0, ss !! k' = Some set0 /\
               length (blocks set') = length (blocks set0).
Proof.
  intros Hk Hk'.
  destruct (put_block_lookup _ _ _ _ _ _ _ Hk Hk') as [(-> & ->)|(_ & Hold)].
  - exists set. split; [done|]. simpl. apply length_insert.
  - eauto.
Qed.

(** ** The scans, continued *)

Lemma find_invalid_first bs n i j :
  find_invalid bs i n = Some (Some j) ->
  forall j', (i <= j' < j)%nat ->
    exists b', bs !! j' = Some b' /\ valid b' = true.
Proof.
  revert i. induction n as [|n IH]; intros i H j' Hj'; simpl in H;
    [discriminate|].
  unbind H as b Hb. destruct (valid b) eqn:Ev; simpl in H.
  - destruct (decide (j' = i)) as [->|Hne]; [eauto|].
    apply (IH (S i) H). lia.
  - some_inv. lia.
Qed.

(** [min_scan] keeps in [evict_index] the first slot whose stamp is the
    least seen so far. *)
Lemma min_scan_least bs n i m e r be :
  min_scan bs i n m e = Some r ->
  (e < i)%nat -> bs !! e = Some be -> lru_count be = m ->
  (forall j bj, (j < i)%nat -> bs !! j = Some bj -> m <= lru_count bj) ->
  (forall j bj, (j < e)%nat -> bs !! j = Some bj -> m < lru_count bj) ->
  exists br, bs !! r = Some br /\ (r < i + n)%nat /\
    (forall j bj, (j < i + n)%nat -> bs !! j = Some bj ->
                  lru_count br <= lru_count bj) /\
    (forall j bj, (j < r)%nat -> bs !! j = Some bj ->
                  lru_count br < lru_count bj).
Proof.
  revert i m e be. induction n as [|n IH]; intros i m e be H He Hbe Hm Hle Hlt;
    simpl in H.
  - injection H as <-. exists be. rewrite Nat.add_0_r, Hm.
    repeat split; auto.
  - unbind H as b Hb. destruct (Z.ltb_spec (lru_count b) m) as [Hlt'|Hge].
    + assert (Hle' : forall j bj, (j < S i)%nat -> bs !! j = Some bj ->
                lru_count b <= lru_count bj).
      { intros j bj Hj Hbj. destruct (decide (j = i)) as [->|Hne].
        - assert (bj = b) as -> by congruence. lia.
        - assert (m <= lru_count bj) by (apply (Hle j); [lia|done]). lia. }
      assert (Hlt'' : forall j bj, (j < i)%nat -> bs !! j = Some bj ->
                lru_count b < lru_count bj).
      { intros j bj Hj Hbj.
        assert (m <= lru_count bj) by (apply (Hle j); [lia|done]). lia. }
      destruct (IH (S i) (lru_count b) i b H (Nat.lt_succ_diag_r i) Hb
                  eq_refl Hle' Hlt'') as (br & Hr & Hri & Hmin & Hfirst).
      exists br. repeat split; auto; try lia.
      intros j bj Hj. apply Hmin. lia.
    + assert (Hle' : forall j bj, (j < S i)%nat -> bs !! j = Some bj ->
                m <= lru_count bj).
      { intros j bj Hj Hbj. destruct (decide (j = i)) as [->|Hne].
        - assert (bj = b) as -> by congruence. lia.
        - apply (Hle j); [lia|done]. }
      assert (He' : (e < S i)%nat) by lia.
      destruct (IH (S i) m e be H He' Hbe Hm Hle' Hlt)
        as (br & Hr & Hri & Hmin & Hfirst).
      exists br. repeat split; auto; try lia.
      intros j bj Hj. apply Hmin. lia.
Qed.

(** The victim is the first slot, among the ways, with the least stamp. *)
Lemma select_victim_least s set v :
  select_victim s set = Some v ->
  exists bv, blocks set !! v = Some bv /\
    (forall j bj, (j < ways s)%nat -> blocks set !! j = Some bj ->
                  lru_count bv <= lru_count bj) /\
    (forall j bj, (j < v)%nat -> blocks set !! j = Some bj ->
                  lru_count bv < lru_count bj).
Proof.
  unfold select_victim. intros H.
  assert (Hscan : exists b0, blocks set !! 0%nat = Some b0 /\
            min_scan (blocks set) 1 (ways s - 1) (lru_count b0) 0 = Some v).
  { destruct (lru_eviction s); unbind H as b0 Hb0; eauto. }
  destruct Hscan as (b0 & Hb0 & Hscan).
  destruct (min_scan_least _ _ _ _ _ _ b0 Hscan) as (bv & Hv & _ & Hmin & Hfirst);
    [lia|done|done| |intros; lia|].
  - intros j bj Hj Hbj. assert (j = 0%nat) as -> by lia.
    assert (bj = b0) as -> by congruence. lia.
  - exists bv. split; [done|]. split; [|done].
    intros j bj Hj. apply Hmin. lia.
Qed.

(** ** Counters, cycles and the global counter of one access *)

Lemma step_account s operation address s' :
  processAccess s operation address = Some s' ->
  exists r wb,
    probe s address = Some r /\
    config_of s' = config_of s /\
    counts_of s' = counts_after s (is_load operation) r /\
    total_cycles s' = total_cycles s + base_cost s (is_load operation) r + wb /\
    (wb = 0 \/
     (write_through s = false /\ wb = fill_cost s /\
      r = None /\ stamps s (is_load operation) r = true)) /\
    global_counter s' =
      (if stamps s (is_load operation) r then uint (global_counter s + 1)
       else global_counter s).
Proof.
  intros H. apply processAccess_inv in H. destruct H as [_ H]. simpl in H.
  unfold probe, counts_after, base_cost, stamps.
  destruct (is_load operation).
  - apply processLoad_inv in H. destruct H as (Hc & Hg & H).
    destruct H as [set i b Hs Hf Hb Hn Ht _|set i wb Hs Hf Hch _ Hn Ht _];
      rewrite Hs; simpl; rewrite Hf.
    + exists (Some i), 0. simpl. rewrite !Z.add_0_r.
      repeat split; try done; try lia; auto.
    + exists None, wb. simpl. rewrite !Z.add_0_r.
      destruct (alloc_choice_cost _ _ _ _ Hch) as [->|[? ->]];
        repeat split; try done; try lia; auto.
  - apply processStore_inv in H. destruct H as (Hc & H).
    destruct H as [set i b Hs Hf Hb Hn Ht Hg _
                  |set i wb b' Hwa Hs Hf Hch _ _ Hn Ht Hg _
                  |set Hwa Hs Hf Hn Ht Hg _];
      rewrite Hs; simpl; rewrite Hf.
    + exists (Some i), 0. simpl. rewrite !Z.add_0_r.
      repeat split; try done; try lia; auto.
    + exists None, wb. simpl. rewrite Hwa, !Z.add_0_r.
      destruct (alloc_choice_cost _ _ _ _ Hch) as [->|[? ->]];
        repeat split; try done; try lia; auto.
    + exists None, 0. simpl. rewrite Hwa, !Z.add_0_r.
      repeat split; try done; try lia; auto.
Qed.

(** ** The eviction flag *)

Section Policy.
Variable p : bool.

Local Abbreviation P := (fun s : CacheSimulator => set_policy s p).

Lemma add_cycles_policy s c :
  add_cycles (set_policy s p) c = P <$> add_cycles s c.
Proof.
  unfold add_cycles, set_policy. simpl.
  destruct (int_add (total_cycles s) c); reflexivity.
Qed.

Lemma write_block_policy s k i b :
  write_block (set_policy s p) k i b = P <$> write_block s k i b.
Proof.
  unfold write_block, set_policy. simpl.
  destruct (sets s !! k) as [set|]; simpl; [|done].
  destruct (blocks set !! i); reflexivity.
Qed.

Lemma install_block_policy s k i t :
  install_block (set_policy s p) k i t = P <$> install_block s k i t.
Proof.
  unfold install_block.
  change (with_global_counter (set_policy s p) ?gc)
    with (set_policy (with_global_counter s gc) p).
  apply write_block_policy.
Qed.

Lemma touch_block_policy s k i :
  touch_block (set_policy s p) k i = P <$> touch_block s k i.
Proof.
  unfold touch_block. simpl.
  destruct (sets s !! k) as [set|]; simpl; [|done].
  destruct (blocks set !! i) as [b|]; simpl; [|done].
  change (with_global_counter (set_policy s p) ?gc)
    with (set_policy (with_global_counter s gc) p).
  apply write_block_policy.
Qed.

Lemma select_victim_policy s set :
  select_victim (set_policy s p) set = select_victim s set.
Proof.
  unfold select_victim, ways, set_policy. simpl.
  destruct p, (lru_eviction s); reflexivity.
Qed.

Lemma evictBlock_policy s k t :
  evictBlock (set_policy s p) k t = P <$> evictBlock s k t.
Proof.
  unfold evictBlock. simpl.
  destruct (sets s !! k) as [set|]; simpl; [|done].
  rewrite select_victim_policy.
  destruct (select_victim s set) as [v|]; simpl; [|done].
  destruct (blocks set !! v) as [victim|]; simpl; [|done].
  destruct (dirty victim && negb (write_through s)); simpl.
  - change (block_transfer_cycles (set_policy s p))
      with (block_transfer_cycles s).
    destruct (block_transfer_cycles s) as [c|]; simpl; [|done].
    rewrite add_cycles_policy.
    destruct (add_cycles s c) as [s1|]; simpl; [|done].
    apply install_block_policy.
  - apply install_block_policy.
Qed.

Lemma allocateBlock_policy s k t :
  allocateBlock (set_policy s p) k t = P <$> allocateBlock s k t.
Proof.
  unfold allocateBlock. simpl.
  destruct (sets s !! k) as [set|]; simpl; [|done].
  change (ways (set_policy s p)) with (ways s).
  destruct (find_invalid (blocks set) 0 (ways s)) as [[i|]|]; simpl; [| |done].
  - apply install_block_policy.
  - apply evictBlock_policy.
Qed.

Ltac policy_out :=
  repeat match goal with
  | |- context [?w (set_policy ?s p) ?v] =>
      progress change (w (set_policy s p) v) with (set_policy (w s v) p)
  | |- context [ways (set_policy ?s p)] =>
      progress change (ways (set_policy s p)) with (ways s)
  | |- context [block_transfer_cycles (set_policy ?s p)] =>
      progress change (block_transfer_cycles (set_policy s p))
        with (block_transfer_cycles s)
  end.

Lemma processLoad_policy s set_index t :
  processLoad (set_policy s p) set_index t = P <$> processLoad s set_index t.
Proof.
  unfold processLoad. simpl.
  destruct (int_add (total_loads s) 1) as [tl|]; simpl; [|done].
  policy_out. rewrite add_cycles_policy.
  destruct (add_cycles (with_total_loads s tl) 1) as [s1|]; simpl; [|done].
  destruct (sets s1 !! Z.to_nat set_index) as [set|]; simpl; [|done].
  policy_out.
  destruct (find_tag (blocks set) t 0 (ways s1)) as [[i|]|]; simpl; [| |done].
  - destruct (int_add (load_hits s1) 1) as [lh|]; simpl; [|done].
    policy_out. apply touch_block_policy.
  - destruct (int_add (load_misses s1) 1) as [lm|]; simpl; [|done].
    policy_out.
    destruct (block_transfer_cycles s1) as [c|]; simpl; [|done].
    policy_out. rewrite add_cycles_policy.
    destruct (add_cycles (with_load_misses s1 lm) c) as [s2|]; simpl; [|done].
    apply allocateBlock_policy.
Qed.

Lemma processStore_policy s set_index t :
  processStore (set_policy s p) set_index t = P <$> processStore s set_index t.
Proof.
  unfold processStore. simpl.
  destruct (int_add (total_stores s) 1) as [ts|]; simpl; [|done].
  policy_out. rewrite add_cycles_policy.
  destruct (add_cycles (with_total_stores s ts) 1) as [s1|]; simpl; [|done].
  destruct (sets s1 !! Z.to_nat set_index) as [set|]; simpl; [|done].
  policy_out.
  destruct (find_tag (blocks set) t 0 (ways s1)) as [[i|]|]; simpl; [| |done].
  - destruct (int_add (store_hits s1) 1) as [sh|]; simpl; [|done].
    policy_out. rewrite touch_block_policy.
    destruct (touch_block (with_store_hits s1 sh) (Z.to_nat set_index) i)
      as [s2|]; simpl; [|done].
    destruct (write_through s2); simpl.
    + apply add_cycles_policy.
    + destruct (sets s2 !! Z.to_nat set_index) as [set2|]; simpl; [|done].
      destruct (blocks set2 !! i) as [b|]; simpl; [|done].
      apply write_block_policy.
  - destruct (int_add (store_misses s1) 1) as [sm|]; simpl; [|done].
    destruct (write_allocate s1); simpl.
    + policy_out.
      destruct (block_transfer_cycles (with_store_misses s1 sm)) as [c|];
        simpl; [|done].
      policy_out. rewrite add_cycles_policy.
      destruct (add_cycles (with_store_misses s1 sm) c) as [s2|]; simpl;
        [|done].
      rewrite allocateBlock_policy.
      destruct (allocateBlock s2 (Z.to_nat set_index) t) as [s3|]; simpl;
        [|done].
      destruct (write_through s3); simpl.
      * apply add_cycles_policy.
      * destruct (sets s3 !! Z.to_nat set_index) as [set3|]; simpl; [|done].
        policy_out.
        destruct (find_tag (blocks set3) t 0 (ways s3)) as [[j|]|]; simpl;
          [| |done].
        -- destruct (blocks set3 !! j) as [b|]; simpl; [|done].
           apply write_block_policy.
        -- reflexivity.
    + policy_out. apply add_cycles_policy.
Qed.

Lemma processAccess_policy s operation address :
  processAccess (set_policy s p) operation address
  = P <$> processAccess s operation address.
Proof.
  unfold processAccess. simpl.
  destruct (shifts_defined (set_bits s) (block_bits s)); [|done].
  destruct (Ascii.eqb operation "l");
    [apply processLoad_policy|apply processStore_policy].
Qed.

Lemma run_trace_policy trace s :
  run_trace (set_policy s p) trace = P <$> run_trace s trace.
Proof.
  revert s. induction trace as [|[operation address] rest IH]; intros s;
    simpl; [done|].
  rewrite processAccess_policy.
  destruct (processAccess s operation address) as [s1|]; simpl; [|done].
  apply IH.
Qed.

Lemma new_CacheSimulator_policy nsets blocks_per_set bytes_per_block wa wt lru :
  new_CacheSimulator nsets blocks_per_set bytes_per_block wa wt p
  = P <$> new_CacheSimulator nsets blocks_per_set bytes_per_block wa wt lru.
Proof.
  unfold new_CacheSimulator.
  destruct (new_CacheSet blocks_per_set); simpl; [|done].
  destruct (nsets <? 0); [done|].
  destruct (log2_int nsets) as [sb|]; simpl; [|done].
  destruct (log2_int bytes_per_block) as [bb|]; simpl; [|done].
  destruct (int_add 32 (- sb)) as [t1|]; simpl; [|done].
  destruct (int_add t1 (- bb)); reflexivity.
Qed.

Lemma replay_policy stoul16 input s :
  replay stoul16 (set_policy s p) input = replay stoul16 s input.
Proof.
  revert s. induction input as [|[[operation address_str] size] rest IH];
    intros s; simpl; [done|].
  destruct (stoul16 address_str) as [a|]; [|done].
  rewrite processAccess_policy.
  destruct (processAccess s operation (uint a)) as [s1|]; simpl; [|done].
  apply IH.
Qed.

End Policy.

(** ** Invariants along a trace, continued *)

Lemma run_trace_config trace s s' :
  run_trace s trace = Some s' -> config_of s' = config_of s.
Proof.
  intros H.
  apply (run_trace_invariant (fun x => config_of x = config_of s))
    with (trace := trace) (s := s); [|done|done].
  intros s1 op a s2 H1 H12. apply step_config in H12. congruence.
Qed.

Lemma run_trace_well_sized trace s s' :
  well_sized s -> run_trace s trace = Some s' -> well_sized s'.
Proof.
  intros Hws H. apply (run_trace_invariant well_sized)
    with (trace := trace) (s := s); [|done|done].
  intros s1 op a s2. apply step_well_sized.
Qed.

Lemma step_sets_length s operation address s' :
  processAccess s operation address = Some s' ->
  length (sets s') = length (sets s).
Proof.
  intros H. apply access_sets in H. destruct H as (_ & H).
  destruct H as [->|(k & set & i & b & b' & _ & _ & -> & _)];
    [done|apply put_block_length].
Qed.

(** The loads and stores counted are the loads and stores replayed. *)
Lemma run_trace_counts trace s s' :
  run_trace s trace = Some s' ->
  total_loads s' = total_loads s + count_loads trace /\
  total_stores s' =
    total_stores s + (Z.of_nat (length trace) - count_loads trace).
Proof.
  revert s. induction trace as [|[operation address] rest IH]; intros s H;
    simpl in H.
  - some_inv. simpl. lia.
  - unbind H as s1 Hs1. destruct (IH _ H) as [Hl Hs].
    apply step_account in Hs1.
    destruct Hs1 as (r & wb & _ & _ & Hn & _). unfold counts_after in Hn.
    cbn [count_loads length].
    destruct (is_load operation); injection Hn as Hn1 Hn2 _ _ _ _; lia.
Qed.

Lemma uint_succ n : uint (uint n + 1) = uint (n + 1).
Proof. unfold uint. now rewrite Z.add_mod_idemp_l by lia. Qed.

(** The global counter counts the hits and the allocations. *)
Lemma step_stamp_count s operation address s' :
  global_counter s = uint (load_hits s + store_hits s + allocations s) ->
  processAccess s operation address = Some s' ->
  global_counter s' = uint (load_hits s' + store_hits s' + allocations s').
Proof.
  intros Hg H. apply step_account in H.
  destruct H as (r & wb & _ & Hc & Hn & _ & _ & Hg').
  apply config_of_eq in Hc. destruct Hc as (_ & _ & Hwa & _).
  unfold allocations in *. rewrite Hwa. rewrite Hg', Hg.
  unfold counts_after, stamps in *.
  destruct (is_load operation), r as [i|];
    injection Hn as _ _ Hn3 Hn4 Hn5 Hn6;
    rewrite ?Hn3, ?Hn4, ?Hn5, ?Hn6; simpl;
    try destruct (write_allocate s); simpl; rewrite ?uint_succ;
    f_equal; lia.
Qed.

(** The cycles stay between the fixed cycles and the fixed cycles plus one
    block transfer per allocation. *)
Lemma step_cycle_bounds s operation address s' :
  0 <= fill_cost s ->
  fixed_cycles s <= total_cycles s <=
    fixed_cycles s +
    (if write_through s then 0 else fill_cost s * allocations s) ->
  processAccess s operation address = Some s' ->
  fixed_cycles s' <= total_cycles s' <=
    fixed_cycles s' +
    (if write_through s' then 0 else fill_cost s' * allocations s').
Proof.
  intros Hf Hb H. apply step_account in H.
  destruct H as (r & wb & _ & Hc & Hn & Ht & Hwb & _).
  apply config_of_eq in Hc.
  destruct Hc as (_ & Hbs & Hwa & Hwt & _).
  assert (Hfc : fill_cost s' = fill_cost s) by (unfold fill_cost; congruence).
  unfold fixed_cycles, allocations in *. rewrite Hfc, Hwa, Hwt, Ht.
  unfold counts_after, base_cost, through_cost, stamps in *.
  set (F := fill_cost s) in *.
  destruct (is_load operation), r as [i|];
    injection Hn as Hn1 Hn2 Hn3 Hn4 Hn5 Hn6;
    rewrite ?Hn1, ?Hn2, ?Hn3, ?Hn4, ?Hn5, ?Hn6;
    destruct (write_allocate s), (write_through s);
    destruct Hwb as [->|(Hwt' & -> & Hr & Hst)];
    try discriminate; simpl in *; nia.
Qed.

(** While the global counter has not wrapped, it bounds every stamp. *)
Lemma step_stamps_below s operation address s' n :
  0 <= global_counter s <= n -> n + 1 < 2 ^ 32 ->
  stamps_below s (global_counter s) ->
  processAccess s operation address = Some s' ->
  global_counter s <= global_counter s' <= n + 1 /\
  stamps_below s' (global_counter s').
Proof.
  intros Hg Hn Hst H. apply access_at in H. simpl in H.
  destruct H as (_ & [(Hss & Hg' & _)|(set & i & b & b' & Hk & Hb & Hss & Hg' & _ & _ & Hl & _)]).
  - rewrite Hg'. split; [lia|]. intros k set i b Hk Hb.
    rewrite Hss in Hk. eauto.
  - assert (Hu : uint (global_counter s + 1) = global_counter s + 1)
      by (unfold uint; apply Z.mod_small; lia).
    rewrite Hu in *. rewrite Hg'. split; [lia|].
    intros k' set' j bj Hk' Hj. rewrite Hss in Hk'.
    destruct (put_block_lookup _ _ _ _ _ _ _ Hk Hk') as [(-> & ->)|(_ & Hold)].
    + simpl in Hj. apply list_lookup_insert_Some in Hj.
      destruct Hj as [(-> & <- & _)|[_ Hj]]; [lia|].
      specialize (Hst _ _ _ _ Hk Hj). lia.
    + specialize (Hst _ _ _ _ Hold Hj). lia.
Qed.

Lemma run_trace_stamps_below trace s s' n :
  0 <= global_counter s <= n -> n + Z.of_nat (length trace) < 2 ^ 32 ->
  stamps_below s (global_counter s) ->
  run_trace s trace = Some s' ->
  0 <= global_counter s' <= n + Z.of_nat (length trace) /\
  stamps_below s' (global_counter s').
Proof.
  revert s n. induction trace as [|[operation address] rest IH];
    intros s n Hg Hn Hst H; simpl in H.
  - some_inv. simpl. split; [lia|done].
  - unbind H as s1 Hs1. cbn [length] in *.
    destruct (step_stamps_below _ _ _ _ n Hg ltac:(lia) Hst Hs1) as [Hg1 Hst1].
    destruct (IH s1 (n + 1) ltac:(lia) ltac:(lia) Hst1 H) as [Hg' Hst'].
    split; [lia|done].
Qed.

(** Valid blocks carry tags of accesses made. *)
Lemma accessed_config s s' trace k t :
  config_of s' = config_of s -> accessed s trace k t -> accessed s' trace k t.
Proof.
  intros Hc (op & a & Hin & Hk & Ht). apply config_of_eq in Hc.
  destruct Hc as (_ & _ & _ & _ & _ & Hsb & Hbb & _).
  exists op, a. rewrite Hsb, Hbb. auto.
Qed.

Lemma accessed_app_l s seen more k t :
  accessed s seen k t -> accessed s (seen ++ more) k t.
Proof.
  intros (op & a & Hin & H). exists op, a. split; [|done].
  apply elem_of_app. now left.
Qed.

Lemma accessed_app_r s seen more k t :
  accessed s more k t -> accessed s (seen ++ more) k t.
Proof.
  intros (op & a & Hin & H). exists op, a. split; [|done].
  apply elem_of_app. now right.
Qed.

Lemma step_resident_accessed s seen operation address s' :
  (forall k set i b, sets s !! k = Some set -> blocks set !! i = Some b ->
     valid b = true -> accessed s seen k (tag b)) ->
  processAccess s operation address = Some s' ->
  forall k set i b, sets s' !! k = Some set -> blocks set !! i = Some b ->
    valid b = true -> accessed s' (seen ++ [(operation, address)]) k (tag b).
Proof.
  intros Hinv H. pose proof (step_config _ _ _ _ H) as Hc.
  apply access_at in H. simpl in H.
  intros k' set' j bj Hk' Hj Hv. apply (accessed_config s); [done|].
  destruct H as (_ & [(Hss & _)|(set & i & b & b' & Hk & Hb & Hss & _ & _ & Ht & _)]).
  - rewrite Hss in Hk'. apply accessed_app_l. eauto.
  - rewrite Hss in Hk'.
    destruct (put_block_lookup _ _ _ _ _ _ _ Hk Hk') as [(-> & ->)|(_ & Hold)].
    + simpl in Hj. apply list_lookup_insert_Some in Hj.
      destruct Hj as [(-> & <- & _)|[_ Hj]].
      * apply accessed_app_r. exists operation, address.
        split; [apply list_elem_of_singleton; done|]. auto.
      * apply accessed_app_l. eauto.
    + apply accessed_app_l. eauto.
Qed.

Lemma run_trace_resident_accessed trace s seen s' :
  (forall k set i b, sets s !! k = Some set -> blocks set !! i = Some b ->
     valid b = true -> accessed s seen k (tag b)) ->
  run_trace s trace = Some s' ->
  forall k set i b, sets s' !! k = Some set -> blocks set !! i = Some b ->
    valid b = true -> accessed s' (seen ++ trace) k (tag b).
Proof.
  revert s seen. induction trace as [|[operation address] rest IH];
    intros s seen Hinv H; simpl in H.
  - some_inv. rewrite app_nil_r. done.
  - unbind H as s1 Hs1.
    replace (seen ++ (operation, address) :: rest)
      with ((seen ++ [(operation, address)]) ++ rest)
      by (rewrite <- app_assoc; reflexivity).
    eapply IH; [|exact H]. eauto using step_resident_accessed.
Qed.

Lemma count_valid_install bs i b b' :
  bs !! i = Some b -> valid b = false -> valid b' = true ->
  count_valid (<[i := b']> bs) = S (count_valid bs).
Proof.
  revert i. induction bs as [|b0 rest IH]; intros i Hb Hv Hv'; [done|].
  destruct i as [|i]; simpl in *.
  - some_inv. now rewrite Hv, Hv'.
  - rewrite (IH i Hb Hv Hv'). destruct (valid b0); lia.
Qed.

(** ** Hits *)

(** X1. A load that hits costs one cycle, counts one load and one load
    hit, and rewrites one field: the stamp of the block it hit becomes the
    incremented global counter.  The block keeps its valid bit, dirty bit
    and tag, and every other block is as before. *)
Theorem load_hit_effect s operation address s' i :
  is_load operation = true ->
  probe s address = Some (Some i) ->
  processAccess s operation address = Some s' ->
  let k := Z.to_nat (set_index_of address (set_bits s) (block_bits s)) in
  exists set b,
    sets s !! k = Some set /\ blocks set !! i = Some b /\
    valid b = true /\ tag b = tag_of address (set_bits s) (block_bits s) /\
    sets s' =
      <[k := {| blocks :=
                  <[i := {| valid := valid b; dirty := dirty b; tag := tag b;
                            lru_count := uint (global_counter s + 1) |}]>
                    (blocks set) |}]> (sets s) /\
    global_counter s' = uint (global_counter s + 1) /\
    total_cycles s' = total_cycles s + 1 /\
    counts_of s' = (total_loads s + 1, total_stores s, load_hits s + 1,
                    load_misses s, store_hits s, store_misses s) /\
    config_of s' = config_of s.
Proof.
  intros Hop Hp H. apply processAccess_inv in H. destruct H as [_ H].
  simpl in H. rewrite Hop in H. apply processLoad_inv in H.
  destruct H as (Hc & Hg & H). unfold probe in Hp. simpl.
  destruct H as [set j b Hs Hf Hb Hn Ht Hss|set j wb Hs Hf _ _ _ _ _];
    rewrite Hs in Hp; simpl in Hp; [|congruence].
  assert (j = i) as -> by congruence.
  destruct (hit_valid_tag _ _ _ _ _ Hf Hb) as (Hv & Htag & _).
  exists set, b. repeat split; auto.
Qed.

Lemma load_hit_effect_witness :
  exists s s',
    (s0 ← new_CacheSimulator 4 1 16 true false true; run_trace s0 [load 64])
      = Some s /\
    (is_load "l" = true /\ probe s 72 = Some (Some 0%nat) /\
     processAccess s "l" 72 = Some s') /\
    total_cycles s' = total_cycles s + 1 /\
    global_counter s' = uint (global_counter s + 1).
Proof.
  destruct (s0 ← new_CacheSimulator 4 1 16 true false true;
            run_trace s0 [load 64]) as [s|] eqn:E0; [|discriminate].
  destruct (processAccess s "l" 72) as [s'|] eqn:E1;
    [|vm_compute in E0; injection E0 as <-; vm_compute in E1; discriminate E1].
  exists s, s'. split; [reflexivity|].
  assert (Hp : probe s 72 = Some (Some 0%nat))
    by (vm_compute in E0; injection E0 as <-; reflexivity).
  split; [repeat split; done|].
  destruct (load_hit_effect s "l" 72 s' 0%nat eq_refl Hp E1)
    as (set & b & _ & _ & _ & _ & _ & Hg & Ht & _).
  split; done.
Defined.

(** X2. A store that hits counts one store and one store hit and restamps
    the block it hit.  Under write-back it sets the block's dirty bit and
    costs one cycle; under write-through it leaves the dirty bit alone and
    costs 101 cycles.  Valid bit and tag are kept, and every other block is
    as before. *)
Theorem store_hit_effect s operation address s' i :
  is_load operation = false ->
  probe s address = Some (Some i) ->
  processAccess s operation address = Some s' ->
  let k := Z.to_nat (set_index_of address (set_bits s) (block_bits s)) in
  exists set b,
    sets s !! k = Some set /\ blocks set !! i = Some b /\
    valid b = true /\ tag b = tag_of address (set_bits s) (block_bits s) /\
    sets s' =
      <[k := {| blocks :=
                  <[i := {| valid := valid b;
                            dirty := if write_through s then dirty b else true;
                            tag := tag b;
                            lru_count := uint (global_counter s + 1) |}]>
                    (blocks set) |}]> (sets s) /\
    global_counter s' = uint (global_counter s + 1) /\
    total_cycles s' =
      total_cycles s + 1 + (if write_through s then 100 else 0) /\
    counts_of s' = (total_loads s, total_stores s + 1, load_hits s,
                    load_misses s, store_hits s + 1, store_misses s) /\
    config_of s' = config_of s.
Proof.
  intros Hop Hp H. apply processAccess_inv in H. destruct H as [_ H].
  simpl in H. rewrite Hop in H. apply processStore_inv in H.
  destruct H as (Hc & H). unfold probe in Hp. simpl.
  destruct H as [set j b Hs Hf Hb Hn Ht Hg Hss
                |set j wb b' _ Hs Hf _ _ _ _ _ _ _
                |set _ Hs Hf _ _ _ _];
    rewrite Hs in Hp; simpl in Hp; [|congruence|congruence].
  assert (j = i) as -> by congruence.
  destruct (hit_valid_tag _ _ _ _ _ Hf Hb) as (Hv & Htag & _).
  exists set, b. repeat split; auto.
  rewrite Hss. unfold put_block, store_hit_block.
  destruct (write_through s); reflexivity.
Qed.

Lemma store_hit_effect_witness :
  exists s s',
    (s0 ← new_CacheSimulator 4 1 16 true false true; run_trace s0 [load 64])
      = Some s /\
    (is_load "s" = false /\ probe s 64 = Some (Some 0%nat) /\
     processAccess s "s" 64 = Some s') /\
    total_cycles s' = total_cycles s + 1 /\
    (dirty <$> (sets s' ≫= blocks)) = [true; false; false; false].
Proof.
  destruct (s0 ← new_CacheSimulator 4 1 16 true false true;
            run_trace s0 [load 64]) as [s|] eqn:E0; [|discriminate].
  destruct (processAccess s "s" 64) as [s'|] eqn:E1;
    [|vm_compute in E0; injection E0 as <-; vm_compute in E1; discriminate E1].
  exists s, s'. split; [reflexivity|].
  assert (Hp : probe s 64 = Some (Some 0%nat))
    by (vm_compute in E0; injection E0 as <-; reflexivity).
  split; [repeat split; done|].
  destruct (store_hit_effect s "s" 64 s' 0%nat eq_refl Hp E1)
    as (set & b & Hs & Hb & _ & _ & Hss & _ & Ht & _).
  split.
  - rewrite Ht. vm_compute in E0. injection E0 as <-. reflexivity.
  - rewrite Hss. vm_compute in E0. injection E0 as <-.
    vm_compute in Hs. injection Hs as <-.
    vm_compute in Hb. injection Hb as <-. reflexivity.
Defined.

(** ** Misses that allocate *)

(** X3. Under write-allocate, a store that misses installs the block: one
    slot of the addressed set becomes valid with the tag of the address and
    the incremented global counter as stamp, dirty exactly when the cache
    is write-back.  It costs one cycle, one block transfer, 100 cycles
    more under write-through, and one more block transfer only under
    write-back (when a dirty victim is written back). *)
Theorem store_miss_allocate_effect s operation address s' :
  is_load operation = false ->
  write_allocate s = true ->
  (0 < ways s)%nat ->
  probe s address = Some None ->
  processAccess s operation address = Some s' ->
  let k := Z.to_nat (set_index_of address (set_bits s) (block_bits s)) in
  exists set i wb,
    sets s !! k = Some set /\ is_Some (blocks set !! i) /\
    sets s' =
      <[k := {| blocks :=
                  <[i := {| valid := true; dirty := negb (write_through s);
                            tag := tag_of address (set_bits s) (block_bits s);
                            lru_count := uint (global_counter s + 1) |}]>
                    (blocks set) |}]> (sets s) /\
    global_counter s' = uint (global_counter s + 1) /\
    (wb = 0 \/ (write_through s = false /\ wb = 100 * Z.quot (block_size s) 4)) /\
    total_cycles s' =
      total_cycles s + 1 + 100 * Z.quot (block_size s) 4 + wb +
      (if write_through s then 100 else 0) /\
    counts_of s' = (total_loads s, total_stores s + 1, load_hits s,
                    load_misses s, store_hits s, store_misses s + 1).
Proof.
  intros Hop Hwa Hw Hp H. apply processAccess_inv in H. destruct H as [_ H].
  simpl in H. rewrite Hop in H. apply processStore_inv in H.
  destruct H as (Hc & H). unfold probe in Hp. simpl.
  destruct H as [set j b Hs Hf _ _ _ _ _
                |set j wb b' _ Hs Hf Hch Hb Hb' Hn Ht Hg Hss
                |set Hwa' _ _ _ _ _ _].
  - rewrite Hs in Hp. simpl in Hp. congruence.
  - exists set, j, wb. split; [done|]. split; [done|].
    destruct Hb' as [->|[Hz _]]; [|lia].
    split; [|split; [done|split; [|split; [exact Ht|done]]]].
    + rewrite Hss. unfold put_block, store_installed.
      destruct (write_through s); reflexivity.
    + apply alloc_choice_cost in Hch. exact Hch.
  - congruence.
Qed.

Lemma store_miss_allocate_effect_witness :
  exists s s',
    new_CacheSimulator 4 1 16 true false true = Some s /\
    (is_load "s" = false /\ write_allocate s = true /\ (0 < ways s)%nat /\
     probe s 64 = Some None /\ processAccess s "s" 64 = Some s') /\
    total_cycles s' = 401 /\
    (dirty <$> (sets s' ≫= blocks)) = [true; false; false; false].
Proof.
  destruct (new_CacheSimulator 4 1 16 true false true) as [s|] eqn:E0;
    [|discriminate].
  destruct (processAccess s "s" 64) as [s'|] eqn:E1;
    [|vm_compute in E0; injection E0 as <-; vm_compute in E1; discriminate E1].
  exists s, s'. split; [reflexivity|].
  assert (Hwa : write_allocate s = true)
    by (vm_compute in E0; injection E0 as <-; reflexivity).
  assert (Hw : (0 < ways s)%nat)
    by (vm_compute in E0; injection E0 as <-; vm_compute; lia).
  assert (Hp : probe s 64 = Some None)
    by (vm_compute in E0; injection E0 as <-; reflexivity).
  split; [repeat split; done|].
  destruct (store_miss_allocate_effect s "s" 64 s' eq_refl Hwa Hw Hp E1)
    as (set & i & wb & _ & _ & _ & _ & _ & _ & _).
  vm_compute in E0. injection E0 as <-.
  vm_compute in E1. injection E1 as <-. split; reflexivity.
Defined.

(** X4. When some way of the set is invalid, [allocateBlock] evicts
    nothing: it fills the lowest invalid slot, charges no cycles, and the
    set gains one valid block. *)
Theorem allocate_fills_first_free_slot s k t set s' j bj :
  sets s !! k = Some set ->
  (j < ways s)%nat -> blocks set !! j = Some bj -> valid bj = false ->
  allocateBlock s k t = Some s' ->
  exists i set',
    (i <= j)%nat /\
    (forall i' b', (i' < i)%nat -> blocks set !! i' = Some b' ->
                   valid b' = true) /\
    sets s' = <[k := set']> (sets s) /\
    blocks set' =
      <[i := {| valid := true; dirty := false; tag := t;
                lru_count := uint (global_counter s + 1) |}]> (blocks set) /\
    count_valid (blocks set') = S (count_valid (blocks set)) /\
    total_cycles s' = total_cycles s /\
    global_counter s' = uint (global_counter s + 1).
Proof.
  intros Hk Hj Hbj Hvj H. apply allocateBlock_inv in H.
  destruct H as (set0 & i & wb & Hk0 & Hch & _ & _ & _ & Ht & Hg & Hss).
  assert (set0 = set) as -> by congruence.
  destruct Hch as [i Hf|v victim Hf _ _].
  - pose proof (find_invalid_first _ _ _ _ Hf) as Hfirst.
    apply find_invalid_free in Hf. destruct Hf as (_ & b & Hb & Hv).
    exists i, {| blocks := <[i := installed s t]> (blocks set) |}.
    split.
    { destruct (le_lt_dec i j) as [|Hlt]; [done|].
      destruct (Hfirst j) as (b' & Hb' & Hv'); [lia|]. congruence. }
    split.
    { intros i' b' Hi' Hb'. destruct (Hfirst i') as (b'' & Hb'' & Hv'');
        [lia|]. congruence. }
    split; [exact Hss|]. split; [reflexivity|]. simpl.
    split; [eapply count_valid_install; eauto|]. split; [lia|done].
  - destruct (find_invalid_full _ _ _ Hf j) as (b & Hb & Hv); [lia|].
    congruence.
Qed.

Lemma allocate_fills_first_free_slot_witness :
  exists s set s',
    (s0 ← new_CacheSimulator 1 2 4 true false true; run_trace s0 [load 0])
      = Some s /\
    (sets s !! 0%nat = Some set /\ (1 < ways s)%nat /\
     blocks set !! 1%nat = Some new_CacheBlock /\
     valid new_CacheBlock = false /\
     allocateBlock s 0 7 = Some s') /\
    (tag <$> (sets s' ≫= blocks)) = [0; 7] /\
    total_cycles s' = total_cycles s.
Proof.
  destruct (s0 ← new_CacheSimulator 1 2 4 true false true;
            run_trace s0 [load 0]) as [s|] eqn:E0; [|discriminate].
  destruct (sets s !! 0%nat) as [set|] eqn:Eset;
    [|vm_compute in E0; injection E0 as <-; vm_compute in Eset;
      discriminate Eset].
  destruct (allocateBlock s 0 7) as [s'|] eqn:E1;
    [|vm_compute in E0; injection E0 as <-; vm_compute in E1; discriminate E1].
  exists s, set, s'. split; [reflexivity|].
  assert (Hw : (1 < ways s)%nat)
    by (vm_compute in E0; injection E0 as <-; vm_compute; lia).
  assert (Hb : blocks set !! 1%nat = Some new_CacheBlock).
  { vm_compute in E0. injection E0 as <-.
    vm_compute in Eset. injection Eset as <-. reflexivity. }
  split; [repeat split; done|].
  destruct (allocate_fills_first_free_slot s 0%nat 7 set s' 1%nat
              new_CacheBlock Eset Hw Hb eq_refl E1)
    as (i & set' & _ & _ & _ & _ & _ & Ht & _).
  split; [|exact Ht].
  vm_compute in E0. injection E0 as <-.
  vm_compute in E1. injection E1 as <-. reflexivity.
Defined.

(** ** The victim *)

(** X5. When [evictBlock] runs, the slot it overwrites holds the least
    stamp among the ways of the set, and is the lowest such slot: every
    earlier slot has a strictly greater stamp. *)
Theorem victim_has_least_stamp s k t set s' :
  sets s !! k = Some set ->
  evictBlock s k t = Some s' ->
  exists v bv set',
    blocks set !! v = Some bv /\
    (forall j bj, (j < ways s)%nat -> blocks set !! j = Some bj ->
                  lru_count bv <= lru_count bj) /\
    (forall j bj, (j < v)%nat -> blocks set !! j = Some bj ->
                  lru_count bv < lru_count bj) /\
    sets s' = <[k := set']> (sets s) /\
    blocks set' =
      <[v := {| valid := true; dirty := false; tag := t;
                lru_count := uint (global_counter s + 1) |}]> (blocks set).
Proof.
  intros Hk H. apply evictBlock_inv in H.
  destruct H as (set0 & v & victim & Hk0 & Hv & Hb & _ & _ & _ & _ & Hss).
  assert (set0 = set) as -> by congruence.
  destruct (select_victim_least _ _ _ Hv) as (bv & Hbv & Hmin & Hfirst).
  exists v, bv, {| blocks := <[v := installed s t]> (blocks set) |}.
  repeat split; auto.
Qed.

Lemma victim_has_least_stamp_witness :
  exists s set s',
    (s0 ← new_CacheSimulator 1 2 4 true false true;
     run_trace s0 [load 0; load 4; load 0]) = Some s /\
    (sets s !! 0%nat = Some set /\ evictBlock s 0 2 = Some s') /\
    (lru_count <$> blocks set) = [3; 2] /\
    (tag <$> (sets s' ≫= blocks)) = [0; 2].
Proof.
  destruct (s0 ← new_CacheSimulator 1 2 4 true false true;
            run_trace s0 [load 0; load 4; load 0]) as [s|] eqn:E0;
    [|discriminate].
  destruct (sets s !! 0%nat) as [set|] eqn:Eset;
    [|vm_compute in E0; injection E0 as <-; vm_compute in Eset;
      discriminate Eset].
  destruct (evictBlock s 0 2) as [s'|] eqn:E1;
    [|vm_compute in E0; injection E0 as <-; vm_compute in E1; discriminate E1].
  exists s, set, s'. split; [reflexivity|]. split; [split; done|].
  destruct (victim_has_least_stamp s 0%nat 2 set s' Eset E1)
    as (v & bv & set' & _).
  vm_compute in E0. injection E0 as <-.
  vm_compute in Eset. injection Eset as <-.
  vm_compute in E1. injection E1 as <-. split; reflexivity.
Defined.

(** X6. The eviction flag changes nothing: for every configuration and
    every trace, the simulation with [lru = true] and the simulation with
    [lru = false] (FIFO) end with the same seven statistics, or are both
    undefined. *)
Theorem eviction_flag_has_no_effect
    nsets blocks_per_set bytes_per_block write_alloc write_thru trace :
  simulate nsets blocks_per_set bytes_per_block write_alloc write_thru true
    trace
  = simulate nsets blocks_per_set bytes_per_block write_alloc write_thru false
      trace.
Proof.
  unfold simulate.
  rewrite (new_CacheSimulator_policy true nsets blocks_per_set bytes_per_block
             write_alloc write_thru false).
  destruct (new_CacheSimulator nsets blocks_per_set bytes_per_block
              write_alloc write_thru false) as [s0|]; simpl; [|done].
  rewrite run_trace_policy.
  destruct (run_trace s0 trace); reflexivity.
Qed.

(** ** Which parts of the cache an access can change *)

(** X7. An access changes no set but the one its address selects, keeps
    the number of sets and the number of blocks of every set, and keeps
    the configuration. *)
Theorem access_touches_one_set s operation address s' :
  processAccess s operation address = Some s' ->
  (forall k', k' <> Z.to_nat (set_index_of address (set_bits s) (block_bits s)) ->
     sets s' !! k' = sets s !! k') /\
  length (sets s') = length (sets s) /\
  (forall k' set', sets s' !! k' = Some set' ->
     exists set, sets s !! k' = Some set /\
                 length (blocks set') = length (blocks set)) /\
  config_of s' = config_of s.
Proof.
  intros H. pose proof (step_sets_length _ _ _ _ H) as Hlen.
  apply access_at in H. simpl in H. destruct H as (Hc & H).
  destruct H as [(Hss & _)|(set & i & b & b' & Hk & Hb & Hss & _)];
    rewrite Hss.
  - repeat split; auto. intros k' set' Hk'. eauto.
  - repeat split; auto.
    + intros k' Hne. now apply put_block_lookup_ne.
    + now rewrite <- Hss.
    + intros k' set'. apply put_block_blocks_length. done.
Qed.

Lemma access_touches_one_set_witness :
  exists s s',
    new_CacheSimulator 4 1 16 true false true = Some s /\
    processAccess s "s" 16 = Some s' /\
    (valid <$> (sets s' ≫= blocks)) = [false; true; false; false] /\
    (forall k', k' <> Z.to_nat (set_index_of 16 (set_bits s) (block_bits s)) ->
       sets s' !! k' = sets s !! k').
Proof.
  destruct (new_CacheSimulator 4 1 16 true false true) as [s|] eqn:E0;
    [|discriminate].
  destruct (processAccess s "s" 16) as [s'|] eqn:E1;
    [|vm_compute in E0; injection E0 as <-; vm_compute in E1; discriminate E1].
  exists s, s'. split; [reflexivity|]. split; [exact E1|].
  split; [|apply (access_touches_one_set s "s" 16 s' E1)].
  vm_compute in E0. injection E0 as <-.
  vm_compute in E1. injection E1 as <-. reflexivity.
Defined.

(** X8. The constructor has a defined result only for at least one set:
    with a number of sets of 0 or less it returns no cache (the vector of
    sets cannot have a negative size, and [std::log2] of 0 is not a number
    an [int] can hold).  For every number of sets from 1 to [INT_MAX] for
    which it returns a cache, a power of two or not, in every state a trace
    reaches the cache still has that many sets of [blocks_per_set] blocks
    each, and the set index of every address is inside the vector of
    sets. *)
Theorem geometry_is_kept
    nsets blocks_per_set bytes_per_block write_alloc write_thru lru :
  (nsets <= 0 ->
   new_CacheSimulator nsets blocks_per_set bytes_per_block
     write_alloc write_thru lru = None) /\
  (forall s0 trace s,
     new_CacheSimulator nsets blocks_per_set bytes_per_block
       write_alloc write_thru lru = Some s0 ->
     nsets <= INT_MAX ->
     run_trace s0 trace = Some s ->
     1 <= nsets /\
     length (sets s) = Z.to_nat nsets /\
     (0 < length (sets s))%nat /\
     (forall k set, sets s !! k = Some set ->
        length (blocks set) = Z.to_nat blocks_per_set) /\
     (forall address,
        (Z.to_nat (set_index_of address (set_bits s) (block_bits s))
         < length (sets s))%nat)).
Proof.
  split.
  { intros Hle. unfold new_CacheSimulator.
    destruct (new_CacheSet blocks_per_set) as [proto|]; [|reflexivity].
    cbn. destruct (nsets <? 0) eqn:Hneg; [reflexivity|].
    unfold log2_int. destruct (nsets <=? 0) eqn:Hz; [reflexivity|lia]. }
  intros s0 trace s Hnew Hint Hrun.
  destruct (new_CacheSimulator_inv _ _ _ _ _ _ _ Hnew)
    as (_ & Hns & _ & Hc & Hs0 & _).
  pose proof (run_trace_config _ _ _ Hrun) as Hcs.
  pose proof (run_trace_well_sized _ _ _ (new_well_sized _ _ _ _ _ _ _ Hnew) Hrun)
    as Hws.
  assert (Hlen : length (sets s) = length (sets s0)).
  { apply (run_trace_invariant
             (fun x => length (sets x) = length (sets s0)))
      with (trace := trace) (s := s0); [|done|done].
    intros s1 op a s2 H1 H12. apply step_sets_length in H12. congruence. }
  rewrite Hc in Hcs. injection Hcs as _ Hbp _ _ _ _ Hsb _ _.
  rewrite Hs0, length_replicate in Hlen.
  split; [lia|]. split; [done|]. split; [lia|]. split.
  - intros k set Hk. rewrite (Hws _ _ Hk). unfold ways. now rewrite Hbp.
  - intros address. rewrite Hlen, Hsb.
    assert (Hlog : 0 <= Z.log2 nsets < 31).
    { split; [apply Z.log2_nonneg|].
      apply Z.log2_lt_pow2; [lia|]. unfold INT_MAX in Hint. lia. }
    pose proof (set_index_of_range address (Z.log2 nsets)
                  (block_bits s) ltac:(lia)) as Hr.
    pose proof (Z.log2_spec nsets Hns) as [Hlo _]. lia.
Qed.

Lemma geometry_is_kept_witness :
  (0 <= 0 /\ new_CacheSimulator 0 2 16 true false true = None) /\
  exists s0 s,
    (new_CacheSimulator 6 2 16 true false true = Some s0 /\
     6 <= INT_MAX /\ run_trace s0 [load 0; store 4096] = Some s) /\
    length (sets s) = 6%nat /\ set_bits s = 2 /\
    (forall address,
       (Z.to_nat (set_index_of address (set_bits s) (block_bits s))
        < length (sets s))%nat).
Proof.
  split.
  { split; [lia|].
    apply (proj1 (geometry_is_kept 0 2 16 true false true)). lia. }
  destruct (new_CacheSimulator 6 2 16 true false true) as [s0|] eqn:E0;
    [|discriminate].
  destruct (run_trace s0 [load 0; store 4096]) as [s|] eqn:E1;
    [|vm_compute in E0; injection E0 as <-; vm_compute in E1; discriminate E1].
  exists s0, s.
  assert (Hint : 6 <= INT_MAX) by (unfold INT_MAX; lia).
  split; [repeat split; done|].
  destruct (proj2 (geometry_is_kept 6 2 16 true false true)
              s0 _ s E0 Hint E1)
    as (_ & Hlen & _ & _ & Hidx).
  split; [exact Hlen|]. split; [|exact Hidx].
  vm_compute in E0. injection E0 as <-.
  vm_compute in E1. injection E1 as <-. reflexivity.
Defined.

(** ** Addresses and blocks *)

(** X9. Two addresses get the same set index and the same tag exactly when
    they lie in the same block, that is when they agree after the shift by
    [bbits]: the pair (set index, tag) names the block and nothing else. *)
Theorem block_number_decides_slot a a' sbits bbits :
  0 <= sbits <= 32 -> 0 <= bbits ->
  (Z.shiftr a bbits = Z.shiftr a' bbits <->
   set_index_of a sbits bbits = set_index_of a' sbits bbits /\
   tag_of a sbits bbits = tag_of a' sbits bbits).
Proof.
  intros Hs Hb. unfold set_index_of, tag_of.
  rewrite set_mask_ones by done.
  rewrite !Z.land_ones by lia.
  rewrite (Z.add_comm sbits bbits), <- !Z.shiftr_shiftr by lia.
  rewrite !(Z.shiftr_div_pow2 (Z.shiftr _ bbits) sbits) by lia.
  set (n := Z.shiftr a bbits). set (n' := Z.shiftr a' bbits).
  split.
  - intros ->. split; reflexivity.
  - intros [Hm Hd].
    assert (Hp : 0 < 2 ^ sbits) by (apply Z.pow_pos_nonneg; lia).
    rewrite (Z.div_mod n (2 ^ sbits)), (Z.div_mod n' (2 ^ sbits)) by lia.
    now rewrite Hm, Hd.
Qed.

Lemma block_number_decides_slot_witness :
  (0 <= 2 <= 32 /\ 0 <= 4) /\
  (Z.shiftr 64 4 = Z.shiftr 79 4 <->
   set_index_of 64 2 4 = set_index_of 79 2 4 /\
   tag_of 64 2 4 = tag_of 79 2 4).
Proof.
  split; [lia|]. apply (block_number_decides_slot 64 79 2 4); lia.
Defined.

(** ** What the counters count *)

(** X10. After a trace replayed from the constructor, [total_loads] is the
    number of records whose operation is ['l'] and [total_stores] is the
    number of all other records: every record is counted once, as a store
    unless it is a load. *)
Theorem counters_count_accesses
    nsets blocks_per_set bytes_per_block write_alloc write_thru lru
    s0 trace s :
  new_CacheSimulator nsets blocks_per_set bytes_per_block
    write_alloc write_thru lru = Some s0 ->
  run_trace s0 trace = Some s ->
  total_loads s = count_loads trace /\
  total_stores s = Z.of_nat (length trace) - count_loads trace.
Proof.
  intros Hnew Hrun.
  destruct (new_CacheSimulator_inv _ _ _ _ _ _ _ Hnew)
    as (_ & _ & _ & _ & _ & _ & Hn & _).
  injection Hn as Hl Hs _ _ _ _.
  destruct (run_trace_counts _ _ _ Hrun) as [Hl' Hs']. lia.
Qed.

Lemma counters_count_accesses_witness :
  exists s0 s,
    (new_CacheSimulator 4 1 16 true false true = Some s0 /\
     run_trace s0 [load 0; store 64; ("x"%char, 0); load 0] = Some s) /\
    total_loads s = 2 /\ total_stores s = 2.
Proof.
  destruct (new_CacheSimulator 4 1 16 true false true) as [s0|] eqn:E0;
    [|discriminate].
  destruct (run_trace s0 [load 0; store 64; ("x"%char, 0); load 0])
    as [s|] eqn:E1;
    [|vm_compute in E0; injection E0 as <-; vm_compute in E1; discriminate E1].
  exists s0, s. split; [split; done|].
  exact (counters_count_accesses 4 1 16 true false true s0 _ s E0 E1).
Defined.

(** X11. The global counter counts the stamps given out: in every state a
    trace reaches from the constructor it equals, modulo 2^32, the number
    of hits plus the number of allocations (the load misses, and the store
    misses under write-allocate).  A store miss under no-write-allocate
    does not advance it. *)
Theorem global_counter_counts_stamps
    nsets blocks_per_set bytes_per_block write_alloc write_thru lru
    s0 trace s :
  new_CacheSimulator nsets blocks_per_set bytes_per_block
    write_alloc write_thru lru = Some s0 ->
  run_trace s0 trace = Some s ->
  global_counter s =
    uint (load_hits s + store_hits s + load_misses s +
          (if write_alloc then store_misses s else 0)).
Proof.
  intros Hnew Hrun.
  destruct (new_CacheSimulator_inv _ _ _ _ _ _ _ Hnew)
    as (_ & _ & _ & Hc & _ & Hg & Hn & _).
  assert (Hinv : global_counter s
                 = uint (load_hits s + store_hits s + allocations s)).
  { apply (run_trace_invariant
             (fun x => global_counter x
                       = uint (load_hits x + store_hits x + allocations x)))
      with (trace := trace) (s := s0); [|..|done].
    - intros s1 op a s2. apply step_stamp_count.
    - injection Hn as _ _ Hlh Hlm Hsh Hsm. unfold allocations.
      rewrite Hg, Hlh, Hlm, Hsh, Hsm. now destruct (write_allocate s0). }
  rewrite Hinv. unfold allocations.
  pose proof (run_trace_config _ _ _ Hrun) as Hcs. rewrite Hc in Hcs.
  injection Hcs as _ _ _ -> _. f_equal. lia.
Qed.

Lemma global_counter_counts_stamps_witness :
  exists s0 s,
    (new_CacheSimulator 4 1 16 false true true = Some s0 /\
     run_trace s0 [store 0; load 0; load 0; store 64] = Some s) /\
    global_counter s = 2 /\
    global_counter s =
      uint (load_hits s + store_hits s + load_misses s +
            (if false then store_misses s else 0)).
Proof.
  destruct (new_CacheSimulator 4 1 16 false true true) as [s0|] eqn:E0;
    [|discriminate].
  destruct (run_trace s0 [store 0; load 0; load 0; store 64])
    as [s|] eqn:E1;
    [|vm_compute in E0; injection E0 as <-; vm_compute in E1; discriminate E1].
  exists s0, s. split; [split; done|].
  split; [|exact (global_counter_counts_stamps 4 1 16 false true true
                    s0 _ s E0 E1)].
  vm_compute in E0. injection E0 as <-.
  vm_compute in E1. injection E1 as <-. reflexivity.
Defined.

(** The bounds of [step_cycle_bounds] hold in every state reached from the
    constructor. *)
Lemma reachable_cycle_bounds
    nsets blocks_per_set bytes_per_block write_alloc write_thru lru
    s0 trace s :
  new_CacheSimulator nsets blocks_per_set bytes_per_block
    write_alloc write_thru lru = Some s0 ->
  run_trace s0 trace = Some s ->
  0 <= fill_cost s /\
  fixed_cycles s <= total_cycles s <=
    fixed_cycles s +
    (if write_through s then 0 else fill_cost s * allocations s).
Proof.
  intros Hnew Hrun.
  destruct (new_CacheSimulator_inv _ _ _ _ _ _ _ Hnew)
    as (_ & _ & Hbs & Hc & _ & _ & Hn & Ht).
  assert (Hbs0 : block_size s0 = bytes_per_block)
    by (injection Hc as _ _ -> _; reflexivity).
  apply (run_trace_invariant
           (fun x => 0 <= fill_cost x /\
              fixed_cycles x <= total_cycles x <=
                fixed_cycles x +
                (if write_through x then 0
                 else fill_cost x * allocations x)))
    with (trace := trace) (s := s0); [|..|done].
  - intros s1 op a s2 [Hf Hb] H12. split.
    + apply step_config, config_of_eq in H12.
      destruct H12 as (_ & Hbs12 & _). unfold fill_cost in *. now rewrite Hbs12.
    + eauto using step_cycle_bounds.
  - split; [apply fill_cost_nonneg; lia|].
    injection Hn as Hn1 Hn2 Hn3 Hn4 Hn5 Hn6.
    unfold fixed_cycles, allocations.
    rewrite Ht, Hn1, Hn2, Hn4, Hn6.
    destruct (write_allocate s0), (write_through s0); lia.
Qed.

(** X12. The cycle count is fixed by the counters up to the write-backs.
    In every state a trace reaches from the constructor, [total_cycles] is
    at least one cycle per access, plus one block transfer per allocation,
    plus 100 cycles per store that writes to memory at once (every store
    under write-through; the store misses under no-write-allocate).  Under
    write-through it is exactly that; under write-back it exceeds it by at
    most one more block transfer per allocation. *)
Theorem cycles_follow_counters
    nsets blocks_per_set bytes_per_block write_alloc write_thru lru
    s0 trace s :
  new_CacheSimulator nsets blocks_per_set bytes_per_block
    write_alloc write_thru lru = Some s0 ->
  run_trace s0 trace = Some s ->
  let transfers := load_misses s + (if write_alloc then store_misses s else 0) in
  let fixed :=
    total_loads s + total_stores s +
    100 * Z.quot bytes_per_block 4 * transfers +
    100 * (if write_thru then total_stores s
           else if write_alloc then 0 else store_misses s) in
  fixed <= total_cycles s <=
    fixed + (if write_thru then 0
             else 100 * Z.quot bytes_per_block 4 * transfers).
Proof.
  intros Hnew Hrun.
  destruct (reachable_cycle_bounds _ _ _ _ _ _ _ _ _ Hnew Hrun) as [_ Hinv].
  destruct (new_CacheSimulator_inv _ _ _ _ _ _ _ Hnew) as (_ & _ & _ & Hc & _).
  unfold fixed_cycles, allocations, fill_cost in Hinv.
  pose proof (run_trace_config _ _ _ Hrun) as Hcs. rewrite Hc in Hcs.
  injection Hcs as _ _ Hb Hwa Hwt _ _ _ _.
  rewrite Hb, Hwa, Hwt in Hinv. simpl. exact Hinv.
Qed.

Lemma cycles_follow_counters_witness :
  exists s0 s,
    (new_CacheSimulator 1 1 4 true false true = Some s0 /\
     run_trace s0 [store 0; load 4; load 0] = Some s) /\
    statistics s = (2, 1, 0, 2, 0, 1, 403) /\
    2 + 1 + 100 * Z.quot 4 4 * (2 + 1) + 100 * 0 <= total_cycles s <=
      2 + 1 + 100 * Z.quot 4 4 * (2 + 1) + 100 * 0
      + 100 * Z.quot 4 4 * (2 + 1).
Proof.
  destruct (new_CacheSimulator 1 1 4 true false true) as [s0|] eqn:E0;
    [|discriminate].
  destruct (run_trace s0 [store 0; load 4; load 0]) as [s|] eqn:E1;
    [|vm_compute in E0; injection E0 as <-; vm_compute in E1; discriminate E1].
  exists s0, s. split; [split; done|].
  pose proof (cycles_follow_counters 1 1 4 true false true s0 _ s E0 E1) as H.
  assert (Hst : statistics s = (2, 1, 0, 2, 0, 1, 403)).
  { vm_compute in E0. injection E0 as <-.
    vm_compute in E1. injection E1 as <-. reflexivity. }
  split; [exact Hst|].
  injection Hst as Hl Hs _ Hlm _ Hsm _. simpl in H.
  rewrite Hl, Hs, Hlm, Hsm in H. exact H.
Defined.

(** X13. The cache holds only what was accessed.  In every state a trace
    reaches from the constructor, each valid block of set [k] carries the
    tag of some access of the trace that went to set [k]; so an access
    whose set and tag no earlier access of the trace had is a miss. *)
Theorem resident_blocks_were_accessed
    nsets blocks_per_set bytes_per_block write_alloc write_thru lru
    s0 trace s :
  new_CacheSimulator nsets blocks_per_set bytes_per_block
    write_alloc write_thru lru = Some s0 ->
  run_trace s0 trace = Some s ->
  (forall k set i b,
     sets s !! k = Some set -> blocks set !! i = Some b -> valid b = true ->
     accessed s trace k (tag b)) /\
  (forall operation address s',
     ~ accessed s trace
         (Z.to_nat (set_index_of address (set_bits s) (block_bits s)))
         (tag_of address (set_bits s) (block_bits s)) ->
     processAccess s operation address = Some s' ->
     probe s address = Some None).
Proof.
  intros Hnew Hrun.
  assert (Hinv : forall k set i b,
            sets s !! k = Some set -> blocks set !! i = Some b ->
            valid b = true -> accessed s trace k (tag b)).
  { apply (run_trace_resident_accessed trace s0 []); [|done].
    intros k set i b Hk Hb Hv.
    rewrite (new_all_invalid _ _ _ _ _ _ _ Hnew _ _ _ _ Hk Hb) in Hv.
    discriminate. }
  split; [exact Hinv|].
  intros operation address s' Hfresh H. apply step_account in H.
  destruct H as (r & wb & Hr & _). rewrite Hr. destruct r as [i|]; [|done].
  exfalso. apply Hfresh. unfold probe in Hr.
  destruct (sets s !! _) as [set|] eqn:Hk; [|discriminate]. simpl in Hr.
  apply find_tag_hit in Hr. destruct Hr as (_ & (b & Hb & Hm) & _).
  apply matches_true in Hm. destruct Hm as [Hv <-]. eauto.
Qed.

Lemma resident_blocks_were_accessed_witness :
  exists s0 s,
    (new_CacheSimulator 4 1 16 true false true = Some s0 /\
     run_trace s0 [load 0; store 16] = Some s) /\
    (valid <$> (sets s ≫= blocks)) = [true; true; false; false] /\
    (forall k set i b,
       sets s !! k = Some set -> blocks set !! i = Some b -> valid b = true ->
       accessed s [load 0; store 16] k (tag b)).
Proof.
  destruct (new_CacheSimulator 4 1 16 true false true) as [s0|] eqn:E0;
    [|discriminate].
  destruct (run_trace s0 [load 0; store 16]) as [s|] eqn:E1;
    [|vm_compute in E0; injection E0 as <-; vm_compute in E1; discriminate E1].
  exists s0, s. split; [split; done|].
  split; [|apply (resident_blocks_were_accessed 4 1 16 true false true
                    s0 _ s E0 E1)].
  vm_compute in E0. injection E0 as <-.
  vm_compute in E1. injection E1 as <-. reflexivity.
Defined.

(** ** Recency *)

(** A valid block whose stamp exceeds every other stamp of its set is
    still there after one more access, when the set has two ways or more. *)
Lemma step_keeps_newest s1 operation address s2 k1 i1 set1 b1 :
  well_sized s1 -> (2 <= ways s1)%nat ->
  sets s1 !! k1 = Some set1 -> blocks set1 !! i1 = Some b1 ->
  valid b1 = true ->
  (forall j bj, j <> i1 -> blocks set1 !! j = Some bj ->
                lru_count bj < lru_count b1) ->
  processAccess s1 operation address = Some s2 ->
  exists set2 b2,
    sets s2 !! k1 = Some set2 /\ blocks set2 !! i1 = Some b2 /\
    valid b2 = true /\ tag b2 = tag b1.
Proof.
  intros Hws Hw Hk1 Hb1 Hv1 Hnew H. apply access_at in H. simpl in H.
  destruct H as (_ & [(Hss & _)|(set & i & b & b' & Hk & Hb & Hss & _ & Hv' & Ht' & _ & Hcase)]).
  - rewrite Hss. exists set1, b1. auto.
  - rewrite Hss.
    set (k := Z.to_nat (set_index_of address (set_bits s1) (block_bits s1))) in *.
    destruct (decide (k1 = k)) as [->|Hne];
      [|rewrite put_block_lookup_ne by done; exists set1, b1; auto].
    assert (set = set1) as -> by congruence.
    rewrite put_block_lookup_eq by eauto using lookup_lt_Some.
    destruct (decide (i1 = i)) as [->|Hni].
    2:{ exists {| blocks := <[i := b']> (blocks set1) |}, b1.
        split; [reflexivity|]. simpl.
        rewrite list_lookup_insert_ne by done. auto. }
    exists {| blocks := <[i := b']> (blocks set1) |}, b'.
    split; [reflexivity|]. simpl.
    rewrite list_lookup_insert_eq by eauto using lookup_lt_Some.
    split; [reflexivity|]. split; [done|].
    assert (b = b1) as -> by congruence.
    destruct Hcase as [Hhit|(Hmiss & _ & wb & Hch)].
    + destruct (hit_valid_tag _ _ _ _ _ Hhit Hb1) as (_ & Htag & _).
      congruence.
    + exfalso. inversion Hch as [j Hf|v victim Hf Hv Hvic]; subst.
      * apply find_invalid_free in Hf. destruct Hf as (_ & b0 & Hb0 & Hinv).
        congruence.
      * destruct (select_victim_least _ _ _ Hv) as (bv & Hbv & Hmin & _).
        assert (bv = b1) as -> by congruence.
        pose proof (Hws _ _ Hk1) as Hlen.
        set (j := if decide (i = 0%nat) then 1%nat else 0%nat).
        assert (Hj : j <> i /\ (j < ways s1)%nat)
          by (unfold j; destruct (decide (i = 0%nat)); lia).
        destruct (lookup_lt_is_Some_2 (blocks set1) j) as [bj Hbj]; [lia|].
        specialize (Hmin j bj (proj2 Hj) Hbj).
        specialize (Hnew j bj (proj1 Hj) Hbj). lia.
Qed.

(** X14. The block just used outlives the next access.  In a cache with
    two blocks per set or more, built by the constructor and replayed for
    fewer than 2^32 - 1 accesses (so the global counter has not wrapped):
    if an address is resident after an access to it, it is still resident
    after any one further access, whatever that access is. *)
Theorem recently_used_block_survives
    nsets blocks_per_set bytes_per_block write_alloc write_thru lru
    s0 trace s operation1 address1 s1 i operation2 address2 s2 :
  new_CacheSimulator nsets blocks_per_set bytes_per_block
    write_alloc write_thru lru = Some s0 ->
  2 <= blocks_per_set ->
  Z.of_nat (length trace) + 1 < 2 ^ 32 ->
  run_trace s0 trace = Some s ->
  processAccess s operation1 address1 = Some s1 ->
  probe s1 address1 = Some (Some i) ->
  processAccess s1 operation2 address2 = Some s2 ->
  exists j, probe s2 address1 = Some (Some j).
Proof.
  intros Hnew Hbps Hlen Hrun H1 Hres H2.
  destruct (new_CacheSimulator_inv _ _ _ _ _ _ _ Hnew)
    as (_ & _ & _ & Hc & _ & Hg0 & _).
  pose proof (new_well_sized _ _ _ _ _ _ _ Hnew) as Hws0.
  pose proof (run_trace_well_sized _ _ _ Hws0 Hrun) as Hws.
  pose proof (step_well_sized _ _ _ _ Hws H1) as Hws1.
  pose proof (step_well_sized _ _ _ _ Hws1 H2) as Hws2.
  pose proof (run_trace_config _ _ _ Hrun) as Hcs.
  pose proof (step_config _ _ _ _ H1) as Hc1.
  pose proof (step_config _ _ _ _ H2) as Hc2.
  assert (Hst : 0 <= global_counter s <= Z.of_nat (length trace) /\
                stamps_below s (global_counter s)).
  { destruct (run_trace_stamps_below trace s0 s 0) as [Hg Hst];
      [lia|lia| |done|split; [lia|done]].
    intros k set j b Hk Hb.
    rewrite (new_all_invalid _ _ _ _ _ _ _ Hnew _ _ _ _ Hk Hb). simpl. lia. }
  destruct Hst as [Hg Hst].
  assert (Hw1 : (2 <= ways s1)%nat).
  { apply config_of_eq in Hc1. destruct Hc1 as (_ & _ & _ & _ & _ & _ & _ & ->).
    rewrite Hc in Hcs. injection Hcs as _ Hbp _. unfold ways. rewrite Hbp. lia. }
  pose proof H1 as H1'. apply access_at in H1'. simpl in H1'.
  destruct H1' as (_ & [(Hss & _ & Hp & _)|(set & i1 & b & b' & Hk & Hb & Hss & _ & Hv' & Ht' & Hl' & _)]).
  { exfalso. apply config_of_eq in Hc1.
    destruct Hc1 as (_ & _ & _ & _ & _ & Hsb & Hbb & Hw).
    unfold probe in Hres, Hp. rewrite Hss, Hsb, Hbb, Hw in Hres. congruence. }
  set (k := Z.to_nat (set_index_of address1 (set_bits s) (block_bits s))) in *.
  set (t := tag_of address1 (set_bits s) (block_bits s)) in *.
  assert (Hu : uint (global_counter s + 1) = global_counter s + 1)
    by (unfold uint; apply Z.mod_small; lia).
  assert (Hk1 : sets s1 !! k = Some {| blocks := <[i1 := b']> (blocks set) |}).
  { rewrite Hss. apply put_block_lookup_eq. eauto using lookup_lt_Some. }
  pose proof (lookup_lt_Some _ _ _ Hb) as Hi1.
  destruct (step_keeps_newest s1 operation2 address2 s2 k i1 _ b' Hws1 Hw1 Hk1)
    as (set2 & b2 & Hk2 & Hb2 & Hv2 & Ht2); [| | |exact H2|].
  - simpl. now apply list_lookup_insert_eq.
  - done.
  - simpl. intros j bj Hne Hbj.
    rewrite list_lookup_insert_ne in Hbj by done.
    specialize (Hst _ _ _ _ Hk Hbj). lia.
  - assert (Hsb : set_bits s2 = set_bits s /\ block_bits s2 = block_bits s /\
                  ways s2 = ways s).
    { apply config_of_eq in Hc1, Hc2.
      destruct Hc1 as (_ & _ & _ & _ & _ & Hsb1 & Hbb1 & Hw1').
      destruct Hc2 as (_ & _ & _ & _ & _ & Hsb2 & Hbb2 & Hw2').
      repeat split; congruence. }
    destruct Hsb as (Hsb & Hbb & Hw).
    unfold probe. rewrite Hsb, Hbb. fold k. fold t. rewrite Hk2. simpl.
    pose proof (Hws2 _ _ Hk2) as Hlen2.
    pose proof (lookup_lt_Some _ _ _ Hb2) as Hi2.
    eapply (find_tag_finds _ _ _ _ i1 b2); [lia|lia|done|].
    apply matches_true. split; [done|congruence].
Qed.

Lemma recently_used_block_survives_witness :
  exists s0 s s1 s2,
    (new_CacheSimulator 1 2 4 true false true = Some s0 /\
     2 <= 2 /\ Z.of_nat (length [load 0; load 4]) + 1 < 2 ^ 32 /\
     run_trace s0 [load 0; load 4] = Some s /\
     processAccess s "l" 0 = Some s1 /\
     probe s1 0 = Some (Some 0%nat) /\
     processAccess s1 "l" 8 = Some s2) /\
    (tag <$> (sets s2 ≫= blocks)) = [0; 2] /\
    exists j, probe s2 0 = Some (Some j).
Proof.
  destruct (new_CacheSimulator 1 2 4 true false true) as [s0|] eqn:E0;
    [|discriminate].
  destruct (run_trace s0 [load 0; load 4]) as [s|] eqn:E1;
    [|vm_compute in E0; injection E0 as <-; vm_compute in E1; discriminate E1].
  destruct (processAccess s "l" 0) as [s1|] eqn:E2;
    [|vm_compute in E0; injection E0 as <-; vm_compute in E1;
      injection E1 as <-; vm_compute in E2; discriminate E2].
  destruct (processAccess s1 "l" 8) as [s2|] eqn:E3;
    [|vm_compute in E0; injection E0 as <-; vm_compute in E1;
      injection E1 as <-; vm_compute in E2; injection E2 as <-;
      vm_compute in E3; discriminate E3].
  exists s0, s, s1, s2.
  assert (Hlen : Z.of_nat (length [load 0; load 4]) + 1 < 2 ^ 32)
    by (simpl; lia).
  assert (Hp : probe s1 0 = Some (Some 0%nat)).
  { vm_compute in E0. injection E0 as <-. vm_compute in E1.
    injection E1 as <-. vm_compute in E2. injection E2 as <-. reflexivity. }
  split; [repeat split; try done; lia|].
  split; [|exact (recently_used_block_survives 1 2 4 true false true
                    s0 _ s "l" 0 s1 0%nat "l" 8 s2
                    E0 ltac:(lia) Hlen E1 E2 Hp E3)].
  vm_compute in E0. injection E0 as <-. vm_compute in E1.
  injection E1 as <-. vm_compute in E2. injection E2 as <-.
  vm_compute in E3. injection E3 as <-. reflexivity.
Defined.

(** ** Direct-mapped caches *)

(** The scan of a one-block set. *)
Lemma find_tag_one b t :
  find_tag [b] t 0 1 = Some (if matches t b then Some 0%nat else None).
Proof. unfold matches. simpl. now destruct (valid b && (tag b =? t)). Qed.

Lemma one_block bs (b : CacheBlock) :
  length bs = 1%nat -> bs !! 0%nat = Some b -> bs = [b].
Proof.
  destruct bs as [|b0 [|b1 rest]]; simpl; intros Hlen Hb; try discriminate.
  now some_inv.
Qed.

(** In a direct-mapped cache an access that hits or allocates leaves its
    block alone in the set. *)
Lemma direct_mapped_after_access s operation address s' :
  well_sized s -> ways s = 1%nat ->
  processAccess s operation address = Some s' ->
  (sets s' = sets s /\ write_allocate s = false /\ is_load operation = false) \/
  exists b',
    sets s' !!
      Z.to_nat (set_index_of address (set_bits s) (block_bits s))
      = Some {| blocks := [b'] |} /\
    valid b' = true /\
    tag b' = tag_of address (set_bits s) (block_bits s).
Proof.
  intros Hws Hw H. apply access_at in H. simpl in H.
  destruct H as (_ & [(Hss & _ & _ & Hwa & Hop)|(set & i & b & b' & Hk & Hb & Hss & _ & Hv' & Ht' & _)]).
  - left. auto.
  - right. exists b'. rewrite Hss.
    rewrite put_block_lookup_eq by eauto using lookup_lt_Some.
    pose proof (Hws _ _ Hk) as Hlen. rewrite Hw in Hlen.
    pose proof (lookup_lt_Some _ _ _ Hb) as Hi.
    assert (i = 0%nat) as -> by lia.
    rewrite (one_block _ _ Hlen Hb). auto.
Qed.

(** X15. In a direct-mapped cache (one block per set) two addresses of the
    same set with different tags are never resident together: after a
    load, or a store under write-allocate, the address accessed is
    resident and every conflicting address is not. *)
Theorem direct_mapped_conflict s operation address s' other :
  well_sized s -> num_blocks_per_set s = 1 ->
  is_load operation = true \/ write_allocate s = true ->
  processAccess s operation address = Some s' ->
  set_index_of other (set_bits s) (block_bits s)
    = set_index_of address (set_bits s) (block_bits s) ->
  tag_of other (set_bits s) (block_bits s)
    <> tag_of address (set_bits s) (block_bits s) ->
  probe s' address = Some (Some 0%nat) /\ probe s' other = Some None.
Proof.
  intros Hws Hn Hpol H Hsame Hdiff.
  assert (Hw : ways s = 1%nat) by (unfold ways; rewrite Hn; reflexivity).
  pose proof (step_config _ _ _ _ H) as Hc. apply config_of_eq in Hc.
  destruct Hc as (_ & _ & _ & _ & _ & Hsb & Hbb & Hw').
  destruct (direct_mapped_after_access _ _ _ _ Hws Hw H)
    as [(_ & Hwa & Hop)|(b' & Hk & Hv & Ht)].
  { destruct Hpol; congruence. }
  unfold probe. rewrite Hsb, Hbb, Hw', Hw, Hsame, Hk. simpl.
  rewrite Hv, Ht. simpl. rewrite Z.eqb_refl. split; [reflexivity|].
  destruct (Z.eqb_spec (tag_of address (set_bits s) (block_bits s))
              (tag_of other (set_bits s) (block_bits s))); [congruence|done].
Qed.

Lemma direct_mapped_conflict_witness :
  exists s s',
    (s0 ← new_CacheSimulator 4 1 16 true false true; run_trace s0 [load 0])
      = Some s /\
    (well_sized s /\ num_blocks_per_set s = 1 /\
     (is_load "l" = true \/ write_allocate s = true) /\
     processAccess s "l" 64 = Some s' /\
     set_index_of 0 (set_bits s) (block_bits s)
       = set_index_of 64 (set_bits s) (block_bits s) /\
     tag_of 0 (set_bits s) (block_bits s)
       <> tag_of 64 (set_bits s) (block_bits s)) /\
    probe s 0 = Some (Some 0%nat) /\
    probe s' 64 = Some (Some 0%nat) /\ probe s' 0 = Some None.
Proof.
  destruct (new_CacheSimulator 4 1 16 true false true) as [s0|] eqn:E0;
    [|discriminate].
  simpl.
  destruct (run_trace s0 [load 0]) as [s|] eqn:E1;
    [|vm_compute in E0; injection E0 as <-; vm_compute in E1; discriminate E1].
  destruct (processAccess s "l" 64) as [s'|] eqn:E2;
    [|vm_compute in E0; injection E0 as <-; vm_compute in E1;
      injection E1 as <-; vm_compute in E2; discriminate E2].
  exists s, s'. split; [exact E1|].
  assert (Hws : well_sized s).
  { eapply run_trace_well_sized; [|exact E1]. eapply new_well_sized; eauto. }
  assert (Hfacts : num_blocks_per_set s = 1 /\
            set_index_of 0 (set_bits s) (block_bits s)
              = set_index_of 64 (set_bits s) (block_bits s) /\
            tag_of 0 (set_bits s) (block_bits s)
              <> tag_of 64 (set_bits s) (block_bits s) /\
            probe s 0 = Some (Some 0%nat)).
  { vm_compute in E0. injection E0 as <-. vm_compute in E1.
    injection E1 as <-. repeat split; try reflexivity. discriminate. }
  destruct Hfacts as (Hn & Hsame & Hdiff & Hp).
  split; [repeat split; auto|]. split; [exact Hp|].
  exact (direct_mapped_conflict s "l" 64 s' 0 Hws Hn (or_introl eq_refl)
           E2 Hsame Hdiff).
Defined.

(** X16. A dirty block is paid for when it is displaced.  In a
    direct-mapped write-back, write-allocate cache, after a store to an
    address, the next access to a conflicting address (same set, other
    tag) costs one cycle and two block transfers: one to write the dirty
    block back, one to fill the new block. *)
Theorem dirty_conflict_pays_write_back
    s operation1 address1 s1 operation2 address2 s2 :
  well_sized s -> num_blocks_per_set s = 1 ->
  write_allocate s = true -> write_through s = false ->
  is_load operation1 = false ->
  processAccess s operation1 address1 = Some s1 ->
  set_index_of address2 (set_bits s) (block_bits s)
    = set_index_of address1 (set_bits s) (block_bits s) ->
  tag_of address2 (set_bits s) (block_bits s)
    <> tag_of address1 (set_bits s) (block_bits s) ->
  processAccess s1 operation2 address2 = Some s2 ->
  total_cycles s2 = total_cycles s1 + 1 + 2 * (100 * Z.quot (block_size s) 4).
Proof.
  intros Hws Hn Hwa Hwt Hop1 H1 Hsame Hdiff H2.
  assert (Hw : ways s = 1%nat) by (unfold ways; rewrite Hn; reflexivity).
  pose proof (step_well_sized _ _ _ _ Hws H1) as Hws1.
  pose proof (step_config _ _ _ _ H1) as Hc. apply config_of_eq in Hc.
  destruct Hc as (_ & Hbs & Hwa1 & Hwt1 & _ & Hsb & Hbb & Hw1).
  (* the store leaves one dirty block in the set *)
  assert (Hdirty : exists b1,
            sets s1 !! Z.to_nat (set_index_of address1 (set_bits s) (block_bits s))
              = Some {| blocks := [b1] |} /\
            valid b1 = true /\ dirty b1 = true /\
            tag b1 = tag_of address1 (set_bits s) (block_bits s)).
  { destruct (direct_mapped_after_access _ _ _ _ Hws Hw H1)
      as [(_ & Hwa' & _)|(b' & Hk & Hv & Ht)]; [congruence|].
    exists b'. split; [done|]. split; [done|]. split; [|done].
    apply processAccess_inv in H1. destruct H1 as [_ H1]. simpl in H1.
    rewrite Hop1 in H1. apply processStore_inv in H1. destruct H1 as (_ & H1).
    destruct H1 as [set i b Hs Hf Hb _ _ _ Hss
                   |set i wb b0 _ Hs Hf _ [b Hb] Hb0 _ _ _ Hss
                   |set Hwa' _ _ _ _ _ _]; [| |congruence];
      rewrite Hss, put_block_lookup_eq in Hk by eauto using lookup_lt_Some;
      injection Hk as Hk;
      pose proof (lookup_lt_Some _ _ _ Hb) as Hi;
      pose proof (Hws _ _ Hs) as Hlen; rewrite Hw in Hlen;
      assert (i = 0%nat) as -> by lia;
      rewrite (one_block _ _ Hlen Hb) in Hk; simpl in Hk;
      injection Hk as <-.
    - unfold store_hit_block. now rewrite Hwt.
    - destruct Hb0 as [->|[Hz _]]; [|lia].
      unfold store_installed. now rewrite Hwt. }
  destruct Hdirty as (b1 & Hk1 & Hv1 & Hd1 & Ht1).
  assert (Hfill : fill_cost s1 = 100 * Z.quot (block_size s) 4)
    by (unfold fill_cost; now rewrite Hbs).
  (* the next access misses and evicts it *)
  apply processAccess_inv in H2. destruct H2 as [_ H2]. simpl in H2.
  rewrite Hsb, Hbb, Hsame in H2.
  assert (Hmiss : forall set i, sets s1 !!
              Z.to_nat (set_index_of address1 (set_bits s) (block_bits s))
              = Some set ->
            find_tag (blocks set) (tag_of address2 (set_bits s) (block_bits s))
              0 (ways s1) = Some (Some i) -> False).
  { intros set i Hs Hf. rewrite Hk1 in Hs. injection Hs as <-.
    rewrite Hw1, Hw in Hf. cbn [blocks] in Hf. rewrite find_tag_one in Hf.
    unfold matches in Hf. rewrite Hv1, Ht1 in Hf. simpl in Hf.
    destruct (Z.eqb_spec (tag_of address1 (set_bits s) (block_bits s))
                (tag_of address2 (set_bits s) (block_bits s)));
      [congruence|discriminate]. }
  assert (Hwb : forall set i wb, sets s1 !!
              Z.to_nat (set_index_of address1 (set_bits s) (block_bits s))
              = Some set ->
            alloc_choice s1 set i wb -> wb = fill_cost s1).
  { intros set i wb Hs Hch. rewrite Hk1 in Hs. injection Hs as <-.
    destruct Hch as [j Hf|v victim Hf Hv Hvic].
    - apply find_invalid_free in Hf. destruct Hf as (Hj & b & Hb & Hinv).
      rewrite Hw1, Hw in Hj. assert (j = 0%nat) as -> by lia.
      simpl in Hb. some_inv. congruence.
    - simpl in Hvic. destruct v as [|v]; simpl in Hvic; [|discriminate].
      some_inv. unfold writeback_cost. now rewrite Hd1, Hwt1, Hwt. }
  destruct (is_load operation2).
  - apply processLoad_inv in H2. destruct H2 as (_ & _ & H2).
    destruct H2 as [set i b Hs Hf _ _ _ _|set i wb Hs Hf Hch _ _ Ht _].
    + exfalso. eauto.
    + rewrite Ht, (Hwb _ _ _ Hs Hch), Hfill. lia.
  - apply processStore_inv in H2. destruct H2 as (_ & H2).
    destruct H2 as [set i b Hs Hf _ _ _ _ _
                   |set i wb b0 _ Hs Hf Hch _ _ _ Ht _ _
                   |set Hwa' _ _ _ _ _ _].
    + exfalso. eauto.
    + rewrite Ht, (Hwb _ _ _ Hs Hch), Hfill. unfold through_cost.
      rewrite Hwt1, Hwt. lia.
    + congruence.
Qed.

Lemma dirty_conflict_pays_write_back_witness :
  exists s s1 s2,
    new_CacheSimulator 4 1 16 true false true = Some s /\
    (well_sized s /\ num_blocks_per_set s = 1 /\
     write_allocate s = true /\ write_through s = false /\
     is_load "s" = false /\ processAccess s "s" 0 = Some s1 /\
     set_index_of 64 (set_bits s) (block_bits s)
       = set_index_of 0 (set_bits s) (block_bits s) /\
     tag_of 64 (set_bits s) (block_bits s)
       <> tag_of 0 (set_bits s) (block_bits s) /\
     processAccess s1 "l" 64 = Some s2) /\
    total_cycles s1 = 401 /\
    total_cycles s2 = total_cycles s1 + 1 + 2 * (100 * Z.quot (block_size s) 4).
Proof.
  destruct (new_CacheSimulator 4 1 16 true false true) as [s|] eqn:E0;
    [|discriminate].
  destruct (processAccess s "s" 0) as [s1|] eqn:E1;
    [|vm_compute in E0; injection E0 as <-; vm_compute in E1; discriminate E1].
  destruct (processAccess s1 "l" 64) as [s2|] eqn:E2;
    [|vm_compute in E0; injection E0 as <-; vm_compute in E1;
      injection E1 as <-; vm_compute in E2; discriminate E2].
  exists s, s1, s2. split; [reflexivity|].
  assert (Hws : well_sized s) by (eapply new_well_sized; eauto).
  assert (Hfacts : num_blocks_per_set s = 1 /\
            write_allocate s = true /\ write_through s = false /\
            set_index_of 64 (set_bits s) (block_bits s)
              = set_index_of 0 (set_bits s) (block_bits s) /\
            tag_of 64 (set_bits s) (block_bits s)
              <> tag_of 0 (set_bits s) (block_bits s)).
  { vm_compute in E0. injection E0 as <-.
    repeat split; try reflexivity. discriminate. }
  destruct Hfacts as (Hn & Hwa & Hwt & Hsame & Hdiff).
  split; [repeat split; auto|].
  split; [|exact (dirty_conflict_pays_write_back s "s" 0 s1 "l" 64 s2
                    Hws Hn Hwa Hwt eq_refl E1 Hsame Hdiff E2)].
  vm_compute in E0. injection E0 as <-.
  vm_compute in E1. injection E1 as <-. reflexivity.
Defined.

(** ** Defined accesses *)

Lemma reachable_access_defined_witness :
  exists s0 s,
    (new_CacheSimulator 4 1 16 true false true = Some s0 /\
     1 <= 1 /\ shifts_defined (Z.log2 4) (Z.log2 16) = true /\
     run_trace s0 [load 0] = Some s /\ room s) /\
    is_Some (processAccess s "s" 64).
Proof.
  destruct (new_CacheSimulator 4 1 16 true false true) as [s0|] eqn:E0;
    [|discriminate].
  destruct (run_trace s0 [load 0]) as [s|] eqn:E1;
    [|vm_compute in E0; injection E0 as <-; vm_compute in E1; discriminate E1].
  exists s0, s.
  assert (Hroom : room s).
  { vm_compute in E0. injection E0 as <-.
    vm_compute in E1. injection E1 as <-.
    vm_compute. repeat split; try reflexivity; discriminate. }
  split; [split; [reflexivity|]; split; [lia|]; split; [reflexivity|];
          split; [exact E1|exact Hroom]|].
  exact (reachable_access_defined 4 1 16 true false true s0 _ s "s" 64
           E0 ltac:(lia) eq_refl E1 Hroom).
Defined.

(** ** [main] *)

Lemma replay_not_rejected stoul16 input s e :
  replay stoul16 s input <> Rejected e.
Proof.
  revert s. induction input as [|[[operation address_str] size] rest IH];
    intros s; simpl; [discriminate|].
  destruct (stoul16 address_str) as [a|]; [|discriminate].
  destruct (processAccess s operation (uint a)); [apply IH|discriminate].
Qed.

(** A replay that ends with a report is a trace run to its end. *)
Lemma replay_Finished stoul16 input s stats :
  replay stoul16 s input = Finished stats ->
  exists trace s',
    run_trace s trace = Some s' /\ stats = statistics s' /\
    length trace = length input /\
    count_loads trace = count_load_records input.
Proof.
  revert s. induction input as [|[[operation address_str] size] rest IH];
    intros s H; simpl in H.
  - injection H as <-. exists [], s. auto.
  - destruct (stoul16 address_str) as [a|]; [|discriminate].
    destruct (processAccess s operation (uint a)) as [s1|] eqn:E1;
      [|discriminate].
    destruct (IH _ H) as (trace & s' & Hrun & Hst & Hlen & Hcount).
    exists ((operation, uint a) :: trace), s'. simpl. rewrite E1. simpl.
    repeat split; auto. now rewrite Hcount.
Qed.

Section Main.
Variables (atoi : string -> Z) (not_integral : Z -> bool).
Variable stoul16 : string -> option Z.

(** X18. The combination no-write-allocate with write-back never reaches
    the simulator: whatever the other arguments and the input, [main]
    ends with [return 1]. *)
Theorem main_rejects_write_around_write_back argv input :
  argv !! 4%nat = Some "no-write-allocate"%string ->
  argv !! 5%nat = Some "write-back"%string ->
  exists e, main atoi not_integral stoul16 argv input = Rejected e.
Proof.
  intros H4 H5. unfold main.
  destruct argv as [|a0 [|a1 [|a2 [|a3 [|a4 [|a5 [|a6 [|a7 rest]]]]]]]];
    try (eexists; reflexivity).
  simpl in H4, H5. injection H4 as ->. injection H5 as ->.
  destruct (not_integral (atoi a1)); [eexists; reflexivity|].
  destruct (not_integral (atoi a2)); [eexists; reflexivity|].
  destruct (not_integral (atoi a3) || (atoi a3 <? 4));
    [eexists; reflexivity|].
  simpl.
  destruct (negb (String.eqb a6 "lru") && negb (String.eqb a6 "fifo"));
    eexists; reflexivity.
Qed.

(** X19. [main] decides to reject before it reads: if it ends with
    [return 1] on one input, it ends with the same rejection on every
    input. *)
Theorem main_rejection_ignores_input argv input input' e :
  main atoi not_integral stoul16 argv input = Rejected e ->
  main atoi not_integral stoul16 argv input' = Rejected e.
Proof.
  unfold main.
  destruct argv as [|a0 [|a1 [|a2 [|a3 [|a4 [|a5 [|a6 [|a7 rest]]]]]]]];
    try done.
  destruct (not_integral (atoi a1)); [done|].
  destruct (not_integral (atoi a2)); [done|].
  destruct (not_integral (atoi a3) || (atoi a3 <? 4)); [done|].
  destruct (negb (String.eqb a4 "write-allocate")
            && negb (String.eqb a4 "no-write-allocate")); [done|].
  destruct (negb (String.eqb a5 "write-through")
            && negb (String.eqb a5 "write-back")); [done|].
  destruct (negb (String.eqb a6 "lru") && negb (String.eqb a6 "fifo"));
    [done|].
  cbv zeta.
  destruct (negb (String.eqb a4 "write-allocate")
            && negb (String.eqb a5 "write-through")); [done|].
  destruct (new_CacheSimulator _ _ _ _ _ _) as [cache|]; [|discriminate].
  intros H. exfalso. exact (replay_not_rejected _ _ _ _ H).
Qed.

(** X20. The sixth argument does not matter: with ["lru"] and with
    ["fifo"], the other arguments and the input being the same, [main]
    ends the same way and reports the same seven numbers. *)
Theorem main_eviction_argument_has_no_effect a0 a1 a2 a3 a4 a5 input :
  main atoi not_integral stoul16 [a0; a1; a2; a3; a4; a5; "lru"%string] input
  = main atoi not_integral stoul16 [a0; a1; a2; a3; a4; a5; "fifo"%string]
      input.
Proof.
  unfold main.
  destruct (not_integral (atoi a1)); [done|].
  destruct (not_integral (atoi a2)); [done|].
  destruct (not_integral (atoi a3) || (atoi a3 <? 4)); [done|].
  destruct (negb (String.eqb a4 "write-allocate")
            && negb (String.eqb a4 "no-write-allocate")); [done|].
  destruct (negb (String.eqb a5 "write-through")
            && negb (String.eqb a5 "write-back")); [done|].
  change (String.eqb "lru" "lru") with true.
  change (String.eqb "fifo" "lru") with false.
  change (String.eqb "fifo" "fifo") with true.
  cbn [negb andb]. cbv zeta.
  destruct (negb (String.eqb a4 "write-allocate")
            && negb (String.eqb a5 "write-through")); [done|].
  rewrite (new_CacheSimulator_policy true (atoi a1) (atoi a2) (atoi a3)
             (String.eqb a4 "write-allocate") (String.eqb a5 "write-through")
             false).
  destruct (new_CacheSimulator (atoi a1) (atoi a2) (atoi a3)
              (String.eqb a4 "write-allocate") (String.eqb a5 "write-through")
              false) as [cache|]; simpl; [|done].
  apply replay_policy.
Qed.

(** X21. What a report says about the input.  When [main] prints its
    seven numbers, total loads plus total stores is the number of records
    read, total loads is the number of records with operation ['l'], hits
    and misses add up to the totals, and the cycles are at least one per
    record. *)
Theorem main_report_counts_records argv input tl ts lh lm sh sm tc :
  main atoi not_integral stoul16 argv input
    = Finished (tl, ts, lh, lm, sh, sm, tc) ->
  tl + ts = Z.of_nat (length input) /\
  tl = count_load_records input /\
  tl = lh + lm /\ ts = sh + sm /\
  tl + ts <= tc.
Proof.
  unfold main.
  destruct argv as [|a0 [|a1 [|a2 [|a3 [|a4 [|a5 [|a6 [|a7 rest]]]]]]]];
    try done.
  destruct (not_integral (atoi a1)); [done|].
  destruct (not_integral (atoi a2)); [done|].
  destruct (not_integral (atoi a3) || (atoi a3 <? 4)); [done|].
  destruct (negb (String.eqb a4 "write-allocate")
            && negb (String.eqb a4 "no-write-allocate")); [done|].
  destruct (negb (String.eqb a5 "write-through")
            && negb (String.eqb a5 "write-back")); [done|].
  destruct (negb (String.eqb a6 "lru") && negb (String.eqb a6 "fifo"));
    [done|].
  cbv zeta.
  destruct (negb (String.eqb a4 "write-allocate")
            && negb (String.eqb a5 "write-through")); [done|].
  destruct (new_CacheSimulator _ _ _ _ _ _) as [cache|] eqn:Hnew;
    [|discriminate].
  intros H. apply replay_Finished in H.
  destruct H as (trace & s & Hrun & Hst & Hlen & Hcount).
  unfold statistics in Hst. injection Hst as -> -> -> -> -> -> ->.
  destruct (new_CacheSimulator_inv _ _ _ _ _ _ _ Hnew)
    as (_ & _ & _ & _ & _ & _ & Hn & _).
  injection Hn as Hn1 Hn2 Hn3 Hn4 Hn5 Hn6.
  destruct (run_trace_counts _ _ _ Hrun) as [Hl Hs].
  assert (Hcons : stats_consistent s).
  { apply (run_trace_invariant stats_consistent)
      with (trace := trace) (s := cache); [|..|done].
    - intros s1 op a s2. apply step_stats_consistent.
    - unfold stats_consistent. lia. }
  destruct Hcons as [Hcl Hcs].
  destruct (reachable_cycle_bounds _ _ _ _ _ _ _ _ _ Hnew Hrun)
    as (Hf & Hlow & _).
  assert (Hfixed : total_loads s + total_stores s <= fixed_cycles s).
  { unfold fixed_cycles, allocations.
    assert (0 <= load_misses s /\ 0 <= store_misses s /\ 0 <= total_stores s).
    { assert (Hnn : 0 <= load_misses s /\ 0 <= store_misses s /\
                    0 <= store_hits s).
      { apply (run_trace_invariant
                 (fun x => 0 <= load_misses x /\ 0 <= store_misses x /\
                           0 <= store_hits x))
          with (trace := trace) (s := cache); [|..|done]; [|lia].
        intros s1 op a s2 Hx H12. apply step_account in H12.
        destruct H12 as (r & wb & _ & _ & Hc12 & _).
        unfold counts_after in Hc12.
        destruct (is_load op), r; injection Hc12 as _ _ _ -> -> ->;
          simpl; lia. }
      lia. }
    destruct (write_allocate s), (write_through s); nia. }
  rewrite <- Hlen, <- Hcount. repeat split; lia.
Qed.

End Main.

Lemma main_rejects_write_around_write_back_witness :
  exists e,
    main example_atoi example_not_integral example_stoul16
      ["csim"; "4"; "1"; "16"; "no-write-allocate"; "write-back"; "lru"]%string
      [("l"%char, "0"%string, 1)]
    = Rejected e.
Proof.
  apply (main_rejects_write_around_write_back example_atoi
           example_not_integral example_stoul16); reflexivity.
Defined.

Lemma main_rejection_ignores_input_witness :
  main example_atoi example_not_integral example_stoul16
    ["csim"; "4"; "3"; "16"; "write-allocate"; "write-back"; "lru"]%string []
    = Rejected BlocksNotPowerOfTwo /\
  main example_atoi example_not_integral example_stoul16
    ["csim"; "4"; "3"; "16"; "write-allocate"; "write-back"; "lru"]%string
    [("l"%char, "0"%string, 1)]
    = Rejected BlocksNotPowerOfTwo.
Proof.
  split; [reflexivity|].
  apply (main_rejection_ignores_input example_atoi example_not_integral
           example_stoul16 _ []). reflexivity.
Defined.

Lemma main_report_counts_records_witness :
  main example_atoi example_not_integral example_stoul16
    ["csim"; "1"; "2"; "4"; "write-allocate"; "write-back"; "fifo"]%string
    [("l"%char, "0"%string, 1); ("s"%char, "4"%string, 1);
     ("l"%char, "0"%string, 4); ("l"%char, "8"%string, 4)]
    = Finished (3, 1, 1, 2, 0, 1, 404) /\
  (3 + 1 = Z.of_nat 4 /\ 3 = 3 /\ 3 = 1 + 2 /\ 1 = 0 + 1 /\ 3 + 1 <= 404).
Proof.
  split; [vm_compute; reflexivity|].
  apply (main_report_counts_records example_atoi example_not_integral
           example_stoul16
           ["csim"; "1"; "2"; "4"; "write-allocate"; "write-back"; "fifo"]%string
           [("l"%char, "0"%string, 1); ("s"%char, "4"%string, 1);
            ("l"%char, "0"%string, 4); ("l"%char, "8"%string, 4)]).
  vm_compute. reflexivity.
Defined.
